(** * A first-fit heap allocator over a program-break arena

    Shallow embedding of [heapAllocator.c], at two levels.

    The main development sees memory through the chunk headers it holds:
    a finite map from addresses to [heapChunk] records.  A pointer is an
    address in [Z], the null pointer is [0].  Values of type [size_t] are
    integers in [0, 2^64) and every operation on them wraps.  The global
    variables of the program ([allChunks], [mem_stats]), the program break
    moved by [sbrk] and the lines printed by [perror] are the fields of
    one [state] record that every function threads through.

    A map of records describes the memory of the program as long as no
    two headers share a byte and every header that is read was written
    before.  This is so on the heaps the allocator lays out itself
    ([well_formed] below), for requests whose header and payload fit
    between the break and the top of the address space, and for releases
    of the null pointer or of a block of a chunk of the chain.  The
    theorems on sequences of calls are stated for such sequences
    ([orderly]).  Where a function reads a header at an address at which
    the map holds none, or stores one beyond the program break, what the
    program does is decided by bytes the records do not show, and the
    function has no result here ([None]).

    Module [LP64] holds the same functions over bytes, with the header
    laid out as on x86-64 Linux: there a header is a range of 48 bytes and
    a store into one changes any other header on the same bytes.  It
    serves to run the program on the inputs the records do not cover.

    The two [while] loops take fuel; a loop that runs out of fuel has no
    result either.  Calls are taken one at a time, so [global_malloc_lock]
    is left out, and the allocator is the only caller of [sbrk].
    [CHUNK_SIZE], the value of [sizeof(heapChunk)], is a parameter of the
    main development. *)

From Stdlib Require Import ZArith Lia Ascii String.
From stdpp Require Import base option list gmap.

Local Open Scope Z_scope.

(** ** Machine integers *)

Definition SIZE_MOD : Z := 2 ^ 64.

Definition wrap (z : Z) : Z := z mod SIZE_MOD.

Definition add_sz (a b : Z) : Z := wrap (a + b).
Definition sub_sz (a b : Z) : Z := wrap (a - b).

(** [intptr_t] reading of a [size_t] bit pattern, as [sbrk] takes it. *)
Definition to_intptr (z : Z) : Z :=
  if wrap z <? 2 ^ 63 then wrap z else wrap z - SIZE_MOD.

(** What an [int] holds after an arithmetic result [z] is stored in it:
    the 32-bit two's complement reading.  (C leaves the overflow of
    [allocCalls++] undefined; the compiled increment wraps.) *)
Definition to_int (z : Z) : Z := (z + 2 ^ 31) mod 2 ^ 32 - 2 ^ 31.

Definition in_size_t (z : Z) : Prop := 0 <= z < SIZE_MOD.

(** ** Constants and macros *)

Definition ALIGNMENT : Z := 8.
Definition MAGIC_NUMBER : Z := 0x12345678.
Definition NULL : Z := 0.

(** [((size) + (ALIGNMENT-1)) & ~(ALIGNMENT-1)], in [size_t]. *)
Definition ALIGN (size : Z) : Z :=
  Z.land (add_sz size (ALIGNMENT - 1)) (wrap (Z.lnot (ALIGNMENT - 1))).

(** ** Data *)

Record heapChunk : Type := mkChunk
  { magic : Z;
    size : Z;
    isFree : bool;
    next : Z;
    file : string;
    line : Z }.

Record MemoryStats : Type := mkStats
  { allocCalls : Z;
    totalAllocated : Z;
    peakMemory : Z;
    sbrkCalls : Z;
    corruptedChunks : Z;
    unfreedChunks : Z }.

Definition set_magic (v : Z) (c : heapChunk) : heapChunk :=
  mkChunk v (size c) (isFree c) (next c) (file c) (line c).
Definition set_size (v : Z) (c : heapChunk) : heapChunk :=
  mkChunk (magic c) v (isFree c) (next c) (file c) (line c).
Definition set_isFree (v : bool) (c : heapChunk) : heapChunk :=
  mkChunk (magic c) (size c) v (next c) (file c) (line c).
Definition set_next (v : Z) (c : heapChunk) : heapChunk :=
  mkChunk (magic c) (size c) (isFree c) v (file c) (line c).
Definition set_origin (f : string) (l : Z) (c : heapChunk) : heapChunk :=
  mkChunk (magic c) (size c) (isFree c) (next c) f l.

(** What a header reads as where none was ever written: [splitChunk] and
    the arena path assign fields one by one into raw memory.  The arena
    path assigns every field.  [splitChunk] assigns neither [file] nor
    [line]: in the program these two fields of a chunk that was split off
    and never handed out hold whatever the memory held before; the
    records show the values below, and no statement depends on them. *)
Definition raw_chunk : heapChunk := mkChunk 0 0 false NULL EmptyString 0.

(** The program break.  [sbrk] moves it between the two bounds the
    operating system allows. *)
Record arena : Type := mkArena
  { brk_min : Z;
    brk_cur : Z;
    brk_max : Z }.

Record state : Type := mkState
  { allChunks : Z;
    mem : gmap Z heapChunk;
    mem_stats : MemoryStats;
    os : arena;
    diag : list string }.

Definition set_mem (h : gmap Z heapChunk) (st : state) : state :=
  mkState (allChunks st) h (mem_stats st) (os st) (diag st).
Definition set_allChunks (p : Z) (st : state) : state :=
  mkState p (mem st) (mem_stats st) (os st) (diag st).
Definition set_stats (s : MemoryStats) (st : state) : state :=
  mkState (allChunks st) (mem st) s (os st) (diag st).
Definition set_os (a : arena) (st : state) : state :=
  mkState (allChunks st) (mem st) (mem_stats st) a (diag st).
Definition add_diag (msg : string) (st : state) : state :=
  mkState (allChunks st) (mem st) (mem_stats st) (os st) (diag st ++ [msg]).

(** The allocator before its first call: [allChunks = NULL],
    [mem_stats = {0}], no header anywhere. *)
Definition init_state (a : arena) : state :=
  mkState NULL ∅ (mkStats 0 0 0 0 0 0) a [].

(** Assignment to one field of the header at [p]. *)
Definition write (p : Z) (f : heapChunk → heapChunk)
    (h : gmap Z heapChunk) : gmap Z heapChunk :=
  <[p := f (default raw_chunk (h !! p))]> h.

(** ** The arena source *)

(** [sbrk(increment)] as the C library implements it over the [brk]
    system call; the result is the old break, or the failure value -1
    (here [None]).  A positive increment moves the break up, or fails
    when the new break would pass the limit [brk_max].  An increment of 0
    reads the break.  A negative increment larger than the break fails;
    one that would take the break below the start of the arena is
    answered by the old break with the break left where it is (the
    system call ignores it and the library sees no error); any other
    moves the break down. *)
Definition sbrk (a : arena) (increment : Z) : option Z * arena :=
  let d := to_intptr increment in
  let new_brk := brk_cur a + d in
  if 0 <? d then
    if (brk_min a <=? new_brk) && (new_brk <=? brk_max a)
    then (Some (brk_cur a), mkArena (brk_min a) new_brk (brk_max a))
    else (None, a)
  else if d =? 0 then (Some (brk_cur a), a)
  else if new_brk <? 0 then (None, a)
  else if new_brk <? brk_min a then (Some (brk_cur a), a)
  else (Some (brk_cur a), mkArena (brk_min a) new_brk (brk_max a)).

Definition incr_sbrkCalls (s : MemoryStats) : MemoryStats :=
  mkStats (allocCalls s) (totalAllocated s) (peakMemory s)
          (add_sz (sbrkCalls s) 1) (corruptedChunks s) (unfreedChunks s).

Definition incr_corruptedChunks (s : MemoryStats) : MemoryStats :=
  mkStats (allocCalls s) (totalAllocated s) (peakMemory s)
          (sbrkCalls s) (corruptedChunks s + 1) (unfreedChunks s).

Definition sbrkWithStats (st : state) (sz : Z) : option Z * state :=
  let st1 := set_stats (incr_sbrkCalls (mem_stats st)) st in
  let '(r, a) := sbrk (os st1) sz in
  (r, set_os a st1).

(** The statistics update at the head of [allocWithStats]. *)
Definition count_request (bytes : Z) (s : MemoryStats) : MemoryStats :=
  let total := add_sz (totalAllocated s) bytes in
  mkStats (to_int (allocCalls s + 1)) total
          (if peakMemory s <? total then total else peakMemory s)
          (sbrkCalls s) (corruptedChunks s) (unfreedChunks s).

(** ** The program over bytes

    The header as the compiler lays it out on x86-64 Linux: [magic] at
    offset 0 (4 bytes), [size] at 8 (8 bytes), [isFree] at 16 (1 byte),
    [next] at 24 (8 bytes), [file] at 32 (a pointer, 8 bytes), [line] at
    40 (4 bytes); 48 bytes with the padding.  Memory is a map from
    addresses to bytes, numbers are stored little-endian, and a byte never
    written reads as 0 (the pages [sbrk] maps are zero-filled).  A load or
    a store succeeds when its bytes lie between the start of the arena
    and the end of the page that holds the break; elsewhere the program
    faults and the function has no result.  Every function is a
    computation over the [heap], written in the order of the statements
    of the source. *)

Module LP64.

Definition CHUNK_SIZE : Z := 48.
Definition PAGE_SIZE : Z := 4096.

(** The globals, the bytes of the arena, the break and the lines of
    [perror]. *)
Record heap : Type := mkHeap
  { allChunks : Z;
    bytes : gmap Z Z;
    mem_stats : MemoryStats;
    os : arena;
    diag : list string }.

Definition init (a : arena) : heap :=
  mkHeap NULL ∅ (mkStats 0 0 0 0 0 0) a [].

(** The [n] bytes at [p], read and written as one little-endian
    number. *)
Fixpoint load_bytes (n : nat) (m : gmap Z Z) (p : Z) : Z :=
  match n with
  | O => 0
  | S n' => default 0 (m !! p) + 256 * load_bytes n' m (p + 1)
  end.

Fixpoint store_bytes (n : nat) (p v : Z) (m : gmap Z Z) : gmap Z Z :=
  match n with
  | O => m
  | S n' => store_bytes n' (p + 1) (v / 256) (<[p := v mod 256]> m)
  end.

(** The pages up to the one that holds the break are mapped. *)
Definition page_up (a : Z) : Z :=
  (a + PAGE_SIZE - 1) / PAGE_SIZE * PAGE_SIZE.

Definition mapped (s : heap) (p n : Z) : bool :=
  (brk_min (os s) <=? p) && (p + n <=? page_up (brk_cur (os s))).

(** Computations over the heap that may fault. *)
Definition M (A : Type) : Type := heap → option (A * heap).
Definition ret {A : Type} (x : A) : M A := λ s, Some (x, s).
Definition bind {A B : Type} (m : M A) (k : A → M B) : M B :=
  λ s, match m s with Some (x, s') => k x s' | None => None end.

#[local] Instance M_ret : MRet M := @ret.
#[local] Instance M_bind : MBind M := λ A B k m, bind m k.

Definition load (n : nat) (p : Z) : M Z :=
  λ s, if mapped s p (Z.of_nat n)
       then Some (load_bytes n (bytes s) p, s) else None.

Definition store (n : nat) (p v : Z) : M unit :=
  λ s, if mapped s p (Z.of_nat n)
       then Some (tt, mkHeap (allChunks s) (store_bytes n p v (bytes s))
                        (mem_stats s) (os s) (diag s))
       else None.

(** The fields of the header at [p]. *)
Definition get_magic (p : Z) : M Z := load 4 p.
Definition get_size (p : Z) : M Z := load 8 (p + 8).
Definition get_isFree (p : Z) : M bool :=
  b ← load 1 (p + 16); mret (negb (b =? 0)).
Definition get_next (p : Z) : M Z := load 8 (p + 24).
Definition set_magic (p v : Z) : M unit := store 4 p v.
Definition set_size (p v : Z) : M unit := store 8 (p + 8) v.
Definition set_isFree (p : Z) (v : bool) : M unit :=
  store 1 (p + 16) (if v then 1 else 0).
Definition set_next (p v : Z) : M unit := store 8 (p + 24) v.
Definition set_file (p v : Z) : M unit := store 8 (p + 32) v.
Definition set_line (p v : Z) : M unit := store 4 (p + 40) v.

Definition get_allChunks : M Z := λ s, Some (allChunks s, s).
Definition set_allChunks (p : Z) : M unit :=
  λ s, Some (tt, mkHeap p (bytes s) (mem_stats s) (os s) (diag s)).
Definition update_stats (f : MemoryStats → MemoryStats) : M unit :=
  λ s, Some (tt, mkHeap (allChunks s) (bytes s) (f (mem_stats s)) (os s)
                   (diag s)).
Definition perror (msg : string) : M unit :=
  λ s, Some (tt, mkHeap (allChunks s) (bytes s) (mem_stats s) (os s)
                   (diag s ++ [msg])).

Fixpoint findFreeChunk_loop (fuel : nat) (current last size : Z)
    : M (Z * Z) :=
  match fuel with
  | O => λ _, None
  | S fuel' =>
      if decide (current = NULL) then mret (current, last)
      else
        free ← get_isFree current;
        hit ← (if free : bool
                then sz ← get_size current; mret (size <=? sz)
                else mret false);
        if hit : bool then mret (current, last)
        else nx ← get_next current;
             findFreeChunk_loop fuel' nx current size
  end.

Definition findFreeChunk (fuel : nat) (last size : Z) : M (Z * Z) :=
  current ← get_allChunks; findFreeChunk_loop fuel current last size.

Definition splitChunk (chunk size : Z) : M unit :=
  let newChunk := wrap (chunk + size + CHUNK_SIZE) in
  csz ← get_size chunk;
  _ ← set_size newChunk (sub_sz (sub_sz csz size) CHUNK_SIZE);
  _ ← set_isFree newChunk true;
  nx ← get_next chunk;
  _ ← set_next newChunk nx;
  _ ← set_magic newChunk MAGIC_NUMBER;
  _ ← set_size chunk size;
  set_next chunk newChunk.

(** [sbrk] as above; the pages above the new break go back to the
    system, and come back zero-filled. *)
Definition sbrkWithStats (sz : Z) : M (option Z) :=
  λ s,
    let '(r, a) := sbrk (os s) sz in
    Some (r, mkHeap (allChunks s)
               (filter (λ kv, kv.1 < page_up (brk_cur a)) (bytes s))
               (incr_sbrkCalls (mem_stats s)) a (diag s)).

Definition myAlloc (fuel : nat) (size file line : Z) : M Z :=
  if size <=? 0 then mret NULL
  else
    let size := ALIGN size in
    let totalSize := add_sz size CHUNK_SIZE in
    head ← get_allChunks;
    '(chunk, last) ←
      (if decide (head = NULL) then mret (NULL, NULL)
       else
         '(chunk, last) ← findFreeChunk fuel head size;
         if decide (chunk = NULL) then mret (chunk, last)
         else
           csz ← get_size chunk;
           _ ← (if add_sz CHUNK_SIZE ALIGNMENT <=? sub_sz csz size
                 then splitChunk chunk size else mret tt);
           _ ← set_isFree chunk false;
           mret (chunk, last));
    r ← (if decide (chunk = NULL) then
            r ← sbrkWithStats totalSize;
            match r with
            | None => mret None
            | Some chunk =>
                _ ← set_size chunk size;
                _ ← set_magic chunk MAGIC_NUMBER;
                _ ← set_next chunk NULL;
                _ ← set_isFree chunk false;
                _ ← (if decide (last = NULL) then set_allChunks chunk
                      else set_next last chunk);
                mret (Some chunk)
            end
          else mret (Some chunk));
    match r with
    | None => mret NULL
    | Some chunk =>
        _ ← set_file chunk file;
        _ ← set_line chunk line;
        mret (wrap (chunk + CHUNK_SIZE))
    end.

Definition allocWithStats (fuel : nat) (bytes file line : Z) : M Z :=
  _ ← update_stats (count_request bytes);
  myAlloc fuel bytes file line.

Fixpoint heapMergeChunks (fuel : nat) (chunk : Z) : M unit :=
  match fuel with
  | O => λ _, None
  | S fuel' =>
      nx ← get_next chunk;
      if decide (nx = NULL) then mret tt
      else
        free ← get_isFree nx;
        if free : bool then
          nsz ← get_size nx;
          csz ← get_size chunk;
          _ ← set_size chunk (add_sz csz (add_sz CHUNK_SIZE nsz));
          nx1 ← get_next chunk;
          nn ← get_next nx1;
          _ ← set_next chunk nn;
          heapMergeChunks fuel' chunk
        else mret tt
  end.

Definition heapFree (fuel : nat) (ptr : Z) : M unit :=
  if decide (ptr = NULL) then mret tt
  else
    let chunk := wrap (ptr - CHUNK_SIZE) in
    m ← get_magic chunk;
    _ ← (if decide (m = MAGIC_NUMBER) then mret tt
          else _ ← update_stats incr_corruptedChunks;
               perror "Memory corruption");
    _ ← set_isFree chunk true;
    nx ← get_next chunk;
    if decide (nx = NULL) then mret tt else heapMergeChunks fuel chunk.

End LP64.

(** ** The allocator proper; [CHUNK_SIZE] is [sizeof(heapChunk)] *)

Section Allocator.

Variable CHUNK_SIZE : Z.

(** The test of the [while] loop of [findFreeChunk]. *)
Definition fits (c : heapChunk) (sz : Z) : bool :=
  isFree c && (sz <=? size c).

(** The loop of [findFreeChunk]; the pair is the returned pointer and the
    final value of [*last]. *)
Fixpoint findFreeChunk_loop (fuel : nat) (h : gmap Z heapChunk)
    (current last sz : Z) : option (Z * Z) :=
  match fuel with
  | O => None
  | S fuel' =>
      if decide (current = NULL) then Some (current, last)
      else
        c ← h !! current;
        if fits c sz then Some (current, last)
        else findFreeChunk_loop fuel' h (next c) current sz
  end.

Definition findFreeChunk (fuel : nat) (st : state) (last sz : Z)
    : option (Z * Z) :=
  findFreeChunk_loop fuel (mem st) (allChunks st) last sz.

Definition splitChunk (h : gmap Z heapChunk) (chunk sz : Z)
    : option (gmap Z heapChunk) :=
  let newChunk := chunk + sz + CHUNK_SIZE in
  c ← h !! chunk;
  let h1 := write newChunk
              (set_size (sub_sz (sub_sz (size c) sz) CHUNK_SIZE)) h in
  let h2 := write newChunk (set_isFree true) h1 in
  c2 ← h2 !! chunk;
  let h3 := write newChunk (set_next (next c2)) h2 in
  let h4 := write newChunk (set_magic MAGIC_NUMBER) h3 in
  let h5 := write chunk (set_size sz) h4 in
  Some (write chunk (set_next newChunk) h5).

(** The part of [myAlloc] under [if(allChunks)]: the chunk found (or
    [NULL]), the final [last], and the memory. *)
Definition reuse (fuel : nat) (st : state) (sz : Z)
    : option (Z * Z * gmap Z heapChunk) :=
  if decide (allChunks st = NULL) then Some (NULL, NULL, mem st)
  else
    '(chunk, last) ← findFreeChunk fuel st (allChunks st) sz;
    if decide (chunk = NULL) then Some (chunk, last, mem st)
    else
      c ← mem st !! chunk;
      h1 ← (if add_sz CHUNK_SIZE ALIGNMENT <=? sub_sz (size c) sz
            then splitChunk (mem st) chunk sz
            else Some (mem st));
      Some (chunk, last, write chunk (set_isFree false) h1).

(** The part of [myAlloc] under [if (!chunk)].  The inner result is the
    new chunk, or [None] when [sbrk] fails and [myAlloc] returns early.
    The header is stored at the address [sbrk] returned: when it does not
    end at or below the break that [sbrk] left, the stores reach memory
    the program does not own (whether they fault depends on the page
    that holds the break) and the call has no result here. *)
Definition grow (st : state) (last sz : Z) : option (option Z * state) :=
  let totalSize := add_sz sz CHUNK_SIZE in
  match sbrkWithStats st totalSize with
  | (None, st1) => Some (None, st1)
  | (Some chunk, st1) =>
      if chunk + CHUNK_SIZE <=? brk_cur (os st1) then
        let h1 := write chunk (set_size sz) (mem st1) in
        let h2 := write chunk (set_magic MAGIC_NUMBER) h1 in
        let h3 := write chunk (set_next NULL) h2 in
        let h4 := write chunk (set_isFree false) h3 in
        if decide (last = NULL)
        then Some (Some chunk, set_allChunks chunk (set_mem h4 st1))
        else Some (Some chunk, set_mem (write last (set_next chunk) h4) st1)
      else None
  end.

(** [myAlloc]: the returned pointer and the state after the call. *)
Definition myAlloc (fuel : nat) (st : state) (sz : Z) (f : string) (l : Z)
    : option (Z * state) :=
  if sz <=? 0 then Some (NULL, st)
  else
    let sz := ALIGN sz in
    '(chunk, last, h1) ← reuse fuel st sz;
    '(r, st1) ← (if decide (chunk = NULL) then grow (set_mem h1 st) last sz
                 else Some (Some chunk, set_mem h1 st));
    match r with
    | None => Some (NULL, st1)
    | Some chunk =>
        Some (chunk + CHUNK_SIZE,
              set_mem (write chunk (set_origin f l) (mem st1)) st1)
    end.

Definition allocWithStats (fuel : nat) (st : state) (bytes : Z)
    (f : string) (l : Z) : option (Z * state) :=
  myAlloc fuel (set_stats (count_request bytes (mem_stats st)) st) bytes f l.

Fixpoint heapMergeChunks (fuel : nat) (h : gmap Z heapChunk) (chunk : Z)
    : option (gmap Z heapChunk) :=
  match fuel with
  | O => None
  | S fuel' =>
      c ← h !! chunk;
      if decide (next c = NULL) then Some h
      else
        n ← h !! next c;
        if isFree n then
          let h1 := write chunk
                      (set_size (add_sz (size c)
                                        (add_sz CHUNK_SIZE (size n)))) h in
          c1 ← h1 !! chunk;
          n1 ← h1 !! next c1;
          heapMergeChunks fuel' (write chunk (set_next (next n1)) h1) chunk
        else Some h
  end.

Definition heapFree (fuel : nat) (st : state) (ptr : Z) : option state :=
  if decide (ptr = NULL) then Some st
  else
    let chunk := ptr - CHUNK_SIZE in
    c ← mem st !! chunk;
    let st1 :=
      if decide (magic c = MAGIC_NUMBER) then st
      else add_diag "Memory corruption"
             (set_stats (incr_corruptedChunks (mem_stats st)) st) in
    let h1 := write chunk (set_isFree true) (mem st1) in
    c1 ← h1 !! chunk;
    h2 ← (if decide (next c1 = NULL) then Some h1
          else heapMergeChunks fuel h1 chunk);
    Some (set_mem h2 st1).

(** ** Chains of chunks *)

(** [lseg h p q l]: following [next] from [p] visits the headers at the
    addresses [l], in this order, and then arrives at [q]. *)
Fixpoint lseg (h : gmap Z heapChunk) (p q : Z) (l : list Z) : Prop :=
  match l with
  | [] => p = q
  | a :: l' =>
      p = a ∧ a ≠ NULL ∧ ∃ c, h !! a = Some c ∧ lseg h (next c) q l'
  end.

(** The chain rooted at [p] ends in [NULL] after the chunks [l]. *)
Definition chain (h : gmap Z heapChunk) (p : Z) (l : list Z) : Prop :=
  lseg h p NULL l.

(** The chunk at [a] fails the test of the search for [sz]. *)
Definition unfit (h : gmap Z heapChunk) (sz a : Z) : Prop :=
  ∃ c, h !! a = Some c ∧ fits c sz = false.

(** The chunks that the walks of [checkForUnfreedChunks] and [printAll]
    visit: those reachable from [allChunks] through [next]. *)
Inductive in_chain (st : state) : Z → Prop :=
  | in_chain_head :
      allChunks st ≠ NULL → in_chain st (allChunks st)
  | in_chain_next a c :
      in_chain st a → mem st !! a = Some c → next c ≠ NULL →
      in_chain st (next c).

(** ** Runs of the public interface *)

Inductive call : Type :=
  | Allocate (bytes : Z) (f : string) (l : Z)
  | Release (ptr : Z).

(** One call that returns; a request is a [size_t] value. *)
Inductive step : state → call → state → Prop :=
  | step_allocate fuel st bytes f l p st' :
      in_size_t bytes →
      allocWithStats fuel st bytes f l = Some (p, st') →
      step st (Allocate bytes f l) st'
  | step_release fuel st ptr st' :
      heapFree fuel st ptr = Some st' →
      step st (Release ptr) st'.

Inductive runs : state → list call → state → Prop :=
  | runs_nil st : runs st [] st
  | runs_cons st c st1 calls st2 :
      step st c st1 → runs st1 calls st2 → runs st (c :: calls) st2.


(** A request whose header and aligned payload fit between the break and
    the top of the address space: the total that [myAlloc] asks [sbrk]
    for does not wrap, and a chunk made for it ends at the break that
    [sbrk] leaves. *)
Definition fits_arena (st : state) (bytes : Z) : Prop :=
  brk_cur (os st) + CHUNK_SIZE + ALIGN bytes < SIZE_MOD.

(** What may be released: the null pointer, or the block of a chunk of
    the chain. *)
Definition releasable (st : state) (ptr : Z) : Prop :=
  ptr = NULL ∨ in_chain st (ptr - CHUNK_SIZE).

Definition proper (st : state) (c : call) : Prop :=
  match c with
  | Allocate bytes _ _ => fits_arena st bytes
  | Release ptr => releasable st ptr
  end.

(** Runs in which every request fits the arena and every release is of
    the null pointer or of a block of the chain. *)
Inductive orderly : state → list call → state → Prop :=
  | orderly_nil st : orderly st [] st
  | orderly_cons st c st1 calls st2 :
      proper st c → step st c st1 → orderly st1 calls st2 →
      orderly st (c :: calls) st2.

(** Sum of the bytes asked for by the calls of a run. *)
Fixpoint requested (calls : list call) : Z :=
  match calls with
  | [] => 0
  | Allocate bytes _ _ :: calls' => bytes + requested calls'
  | Release _ :: calls' => requested calls'
  end.

(** *** Bytes outstanding, as the specification words it

    The bytes requested by allocations not yet released, and the largest
    value this total ever had.  This accounting is not in the program: it
    is what "peak cumulative bytes outstanding" asks for, kept beside the
    run so that the statistic can be compared with it. *)
Record ledger : Type := mkLedger
  { live : gmap Z Z;
    outstanding : Z;
    peak_outstanding : Z }.

Definition empty_ledger : ledger := mkLedger ∅ 0 0.

Definition ledger_allocate (p bytes : Z) (g : ledger) : ledger :=
  if decide (p = NULL) then g
  else
    let out := outstanding g + bytes in
    mkLedger (<[p := bytes]> (live g)) out (Z.max (peak_outstanding g) out).

Definition ledger_release (p : Z) (g : ledger) : ledger :=
  match live g !! p with
  | Some bytes =>
      mkLedger (delete p (live g)) (outstanding g - bytes)
               (peak_outstanding g)
  | None => g
  end.

(** A scripted run: [Some n] asks for [n] bytes, [None] releases the
    pointer returned by the most recent allocation. *)
Fixpoint run_script (fuel : nat) (st : state) (g : ledger) (recent : Z)
    (script : list (option Z)) : option (state * ledger) :=
  match script with
  | [] => Some (st, g)
  | Some bytes :: script' =>
      '(p, st1) ← allocWithStats fuel st bytes "script" 0;
      run_script fuel st1 (ledger_allocate p bytes g) p script'
  | None :: script' =>
      st1 ← heapFree fuel st recent;
      run_script fuel st1 (ledger_release recent g) recent script'
  end.

(** What [heapMergeChunks] makes of a chunk of size [sz] followed by the
    chunks [l]: its final size and its final [next]. *)
Fixpoint absorb (h : gmap Z heapChunk) (sz : Z) (l : list Z) : Z * Z :=
  match l with
  | [] => (sz, NULL)
  | n :: l' =>
      match h !! n with
      | Some cn =>
          if isFree cn
          then absorb h (add_sz sz (add_sz CHUNK_SIZE (size cn))) l'
          else (sz, n)
      | None => (sz, n)
      end
  end.

(** The header that [splitChunk] writes after the first [sz] payload bytes
    of the chunk [c] at [chunk]. *)
Definition remainder (h : gmap Z heapChunk) (chunk sz : Z) (c : heapChunk)
    : heapChunk :=
  mkChunk MAGIC_NUMBER (sub_sz (sub_sz (size c) sz) CHUNK_SIZE) true (next c)
    (file (default raw_chunk (h !! (chunk + sz + CHUNK_SIZE))))
    (line (default raw_chunk (h !! (chunk + sz + CHUNK_SIZE)))).

(** The memory after [myAlloc] has reused the chunk [c] at [chunk]. *)
Definition reused (h : gmap Z heapChunk) (chunk sz : Z) (c : heapChunk)
    (f : string) (l : Z) : gmap Z heapChunk :=
  if add_sz CHUNK_SIZE ALIGNMENT <=? sub_sz (size c) sz
  then <[chunk := mkChunk (magic c) sz false (chunk + sz + CHUNK_SIZE) f l]>
         (<[chunk + sz + CHUNK_SIZE := remainder h chunk sz c]> h)
  else <[chunk := set_origin f l (set_isFree false c)]> h.

(** The search of [myAlloc] found nothing to reuse and left [last]. *)
Definition missed (fuel : nat) (st : state) (sz last : Z) : Prop :=
  (allChunks st = NULL ∧ last = NULL) ∨
  (allChunks st ≠ NULL ∧
   findFreeChunk fuel st (allChunks st) sz = Some (NULL, last)).

(** The header that [myAlloc] stamps on fresh arena memory at [chunk]. *)
Definition fresh_chunk (h : gmap Z heapChunk) (chunk sz : Z) : heapChunk :=
  mkChunk MAGIC_NUMBER sz false NULL
    (file (default raw_chunk (h !! chunk)))
    (line (default raw_chunk (h !! chunk))).

(** Every header carries the sentinel. *)
Definition stamped (h : gmap Z heapChunk) : Prop :=
  ∀ a c, h !! a = Some c → magic c = MAGIC_NUMBER.

(** Every link leads to a header or is [NULL]. *)
Definition linked (h : gmap Z heapChunk) : Prop :=
  ∀ a c, h !! a = Some c → next c = NULL ∨ is_Some (h !! next c).

Definition closed (st : state) : Prop :=
  stamped (mem st) ∧ linked (mem st) ∧
  (allChunks st = NULL ∨ is_Some (mem st !! allChunks st)).

(** Every header has a size that is a multiple of the alignment. *)
Definition aligned (h : gmap Z heapChunk) : Prop :=
  ∀ a c, h !! a = Some c → (ALIGNMENT | size c).

(** ** Chunks laid out in the arena

    [layout h p lo hi l]: the chain from [p] is [l], every chunk carries
    the sentinel, and the chunks lie in address order between [lo] and
    [hi], each one (header and payload) ending before the next begins. *)
Fixpoint layout (h : gmap Z heapChunk) (p lo hi : Z) (l : list Z) : Prop :=
  match l with
  | [] => p = NULL
  | a :: l' =>
      p = a ∧ lo <= a ∧
      ∃ c, h !! a = Some c ∧ magic c = MAGIC_NUMBER ∧ 0 <= size c ∧
           a + CHUNK_SIZE + size c <= hi ∧
           layout h (next c) (a + CHUNK_SIZE + size c) hi l'
  end.

(** The chain of [st] is [l] and lies inside the arena, which itself lies
    inside the address space. *)
Definition well_formed (st : state) (l : list Z) : Prop :=
  0 < brk_min (os st) ∧ brk_min (os st) <= brk_cur (os st) ∧
  brk_cur (os st) <= brk_max (os st) ∧ brk_max (os st) <= SIZE_MOD ∧
  layout (mem st) (allChunks st) (brk_min (os st)) (brk_cur (os st)) l.

(** Requests small enough that neither the aligned size plus the header
    nor its reading as an [intptr_t] wraps. *)
Definition modest (c : call) : Prop :=
  match c with
  | Allocate bytes _ _ => bytes + ALIGNMENT + CHUNK_SIZE <= 2 ^ 63
  | Release _ => True
  end.

(** ** Diagnostics: origin labels, the leak audit, the chunk dump *)

(** The characters at which [extractFilename] restarts the name. *)
Definition is_separator (c : ascii) : bool :=
  Ascii.eqb c "/" || Ascii.eqb c "\".

(** The loop of [extractFilename]: [p] is what is left of the path and
    [filename] the suffix recorded last. *)
Fixpoint extractFilename_loop (p filename : string) : string :=
  match p with
  | EmptyString => filename
  | String c p' =>
      if is_separator c then extractFilename_loop p' p'
      else extractFilename_loop p' filename
  end.

Definition extractFilename (path : string) : string :=
  extractFilename_loop path path.

Definition has_separator (s : string) : Prop :=
  ∃ c, In c (list_ascii_of_string s) ∧ is_separator c = true.

(** [heapAlloc(bytes)], expanded at line [l] of the file [path]. *)
Definition heapAlloc (fuel : nat) (st : state) (path : string) (l : Z)
    (bytes : Z) : option (Z * state) :=
  allocWithStats fuel st bytes (extractFilename path) l.

(** One line printed by [checkForUnfreedChunks]: the chunk, and the file
    and line that allocated it. *)
Record leak : Type := mkLeak
  { leak_chunk : Z;
    leak_file : string;
    leak_line : Z }.

Definition incr_unfreedChunks (s : MemoryStats) : MemoryStats :=
  mkStats (allocCalls s) (totalAllocated s) (peakMemory s)
          (sbrkCalls s) (corruptedChunks s) (unfreedChunks s + 1).

(** The loop of [checkForUnfreedChunks]; [out] collects the printed
    lines. *)
Fixpoint checkForUnfreedChunks_loop (fuel : nat) (h : gmap Z heapChunk)
    (current : Z) (s : MemoryStats) (out : list leak)
    : option (MemoryStats * list leak) :=
  match fuel with
  | O => None
  | S fuel' =>
      if decide (current = NULL) then Some (s, out)
      else
        c ← h !! current;
        if isFree c
        then checkForUnfreedChunks_loop fuel' h (next c) s out
        else checkForUnfreedChunks_loop fuel' h (next c)
               (incr_unfreedChunks s)
               (out ++ [mkLeak current (file c) (line c)])
  end.

Definition checkForUnfreedChunks (fuel : nat) (st : state)
    : option (state * list leak) :=
  '(s, out) ← checkForUnfreedChunks_loop fuel (mem st) (allChunks st)
                (mem_stats st) [];
  Some (set_stats s st, out).

(** One block printed by [printAll]. *)
Record dump : Type := mkDump
  { dump_chunk : Z;
    dump_size : Z;
    dump_line : Z;
    dump_file : string;
    dump_free : bool }.

Fixpoint printAll_loop (fuel : nat) (h : gmap Z heapChunk) (current : Z)
    (out : list dump) : option (list dump) :=
  match fuel with
  | O => None
  | S fuel' =>
      if decide (current = NULL) then Some out
      else
        c ← h !! current;
        printAll_loop fuel' h (next c)
          (out ++ [mkDump current (size c) (line c) (file c) (isFree c)])
  end.

Definition printAll (fuel : nat) (st : state) : option (list dump) :=
  printAll_loop fuel (mem st) (allChunks st) [].

(** The chunks of [l] that are not free, as the audit prints them. *)
Fixpoint leaks_of (h : gmap Z heapChunk) (l : list Z) : list leak :=
  match l with
  | [] => []
  | a :: l' =>
      match h !! a with
      | Some c =>
          if isFree c then leaks_of h l'
          else mkLeak a (file c) (line c) :: leaks_of h l'
      | None => leaks_of h l'
      end
  end.

(** The entries of a dump that are marked not free, as audit lines. *)
Definition dump_leaks (d : list dump) : list leak :=
  (λ e, mkLeak (dump_chunk e) (dump_file e) (dump_line e))
    <$> filter (λ e, dump_free e = false) d.

Definition add_unfreedChunks (n : Z) (s : MemoryStats) : MemoryStats :=
  mkStats (allocCalls s) (totalAllocated s) (peakMemory s)
          (sbrkCalls s) (corruptedChunks s) (unfreedChunks s + n).

(** The chunks of [l] with their fields, as the dump prints them. *)
Fixpoint dumps_of (h : gmap Z heapChunk) (l : list Z) : list dump :=
  match l with
  | [] => []
  | a :: l' =>
      match h !! a with
      | Some c =>
          mkDump a (size c) (line c) (file c) (isFree c) :: dumps_of h l'
      | None => dumps_of h l'
      end
  end.

(** Number of allocate calls in a run. *)
Fixpoint allocations (calls : list call) : Z :=
  match calls with
  | [] => 0
  | Allocate _ _ _ :: calls' => 1 + allocations calls'
  | Release _ :: calls' => allocations calls'
  end.

(** ** Chunks that tile the arena

    [tiling h p lo hi l]: the chain from [p] is [l], its first chunk
    starts at [lo], every chunk is followed at once by the next, and the
    last one ends at [hi]. *)
Fixpoint tiling (h : gmap Z heapChunk) (p lo hi : Z) (l : list Z) : Prop :=
  match l with
  | [] => p = NULL ∧ lo = hi
  | a :: l' =>
      p = a ∧ a = lo ∧
      ∃ c, h !! a = Some c ∧ magic c = MAGIC_NUMBER ∧ 0 <= size c ∧
           tiling h (next c) (a + CHUNK_SIZE + size c) hi l'
  end.

(** The chain of [st] is [l] and tiles the arena from [base] to the
    break. *)
Definition packed (base : Z) (st : state) (l : list Z) : Prop :=
  0 < brk_min (os st) ∧ brk_min (os st) <= base ∧
  brk_cur (os st) <= brk_max (os st) ∧ brk_max (os st) <= SIZE_MOD ∧
  tiling (mem st) (allChunks st) base (brk_cur (os st)) l.

(** Bytes taken by the chunks of [l], headers included. *)
Fixpoint footprint (h : gmap Z heapChunk) (l : list Z) : Z :=
  match l with
  | [] => 0
  | a :: l' =>
      match h !! a with
      | Some c => CHUNK_SIZE + size c + footprint h l'
      | None => footprint h l'
      end
  end.

(** ** Example states

    Two chunks [ex_a] and [ex_b], one after the other in an arena that
    starts at address 4096: 8 payload bytes, then 64. *)
Definition ex_a : Z := 4096.
Definition ex_b : Z := ex_a + CHUNK_SIZE + 8.

Definition ex_chunk (m sz : Z) (fr : bool) (nx : Z) : heapChunk :=
  mkChunk m sz fr nx "main.c" 241.

Definition ex_mem (fa fb : bool) : gmap Z heapChunk :=
  <[ex_a := ex_chunk MAGIC_NUMBER 8 fa ex_b]>
    (<[ex_b := ex_chunk MAGIC_NUMBER 64 fb NULL]> ∅).

Definition ex_arena : arena :=
  mkArena 4096 (ex_b + CHUNK_SIZE + 64) 65536.

Definition ex_stats : MemoryStats := mkStats 2 65 65 2 0 0.

(** [fa] and [fb] say which of the two chunks are free. *)
Definition ex_state (fa fb : bool) : state :=
  mkState ex_a (ex_mem fa fb) ex_stats ex_arena [].

(** One occupied chunk whose sentinel has been overwritten. *)
Definition ex_overwritten : state :=
  mkState ex_a (<[ex_a := ex_chunk 0 8 false NULL]> ∅)
    (mkStats 1 5 5 1 0 0) (mkArena 4096 (ex_a + CHUNK_SIZE + 8) 65536) [].

(** Three chunks, [ex_a], [ex_b] and then [ex_c] with 16 payload bytes;
    the first two are occupied and [fc] says whether the third is
    free. *)
Definition ex_c : Z := ex_b + CHUNK_SIZE + 64.

Definition ex_state3 (fc : bool) : state :=
  mkState ex_a
    (<[ex_a := ex_chunk MAGIC_NUMBER 8 false ex_b]>
       (<[ex_b := ex_chunk MAGIC_NUMBER 64 false ex_c]>
          (<[ex_c := ex_chunk MAGIC_NUMBER 16 fc NULL]> ∅)))
    (mkStats 3 81 81 3 0 0) (mkArena 4096 (ex_c + CHUNK_SIZE + 16) 65536)
    [].

(** An arena that cannot grow. *)
Definition ex_full : state := init_state (mkArena 4096 4096 4096).

(** The state after [heapAlloc(5)] on a fresh allocator. *)
Definition ex_after_alloc : state :=
  match allocWithStats 1 (init_state (mkArena 4096 4096 65536)) 5
          "main.c" 241 with
  | Some (_, st) => st
  | None => init_state (mkArena 4096 4096 65536)
  end.


(** ** Arithmetic of [size_t] and of [ALIGN] *)

Lemma wrap_range z : in_size_t (wrap z).
Proof. unfold in_size_t, wrap, SIZE_MOD. apply Z.mod_pos_bound. lia. Qed.

Lemma wrap_small z : in_size_t z → wrap z = z.
Proof. unfold in_size_t, wrap, SIZE_MOD. intros. apply Z.mod_small. lia. Qed.

Lemma wrap_mod8 z : wrap z mod 8 = z mod 8.
Proof.
  unfold wrap, SIZE_MOD. apply Z.mod_mod_divide.
  exists (2 ^ 61). reflexivity.
Qed.

Lemma ALIGN_div size : ALIGN size = 8 * (wrap (size + 7) / 8).
Proof.
  unfold ALIGN, add_sz, ALIGNMENT. change (8 - 1) with 7.
  set (x := wrap (size + 7)).
  assert (Hx : in_size_t x) by apply wrap_range.
  change (wrap (Z.lnot 7)) with (Z.land (Z.ones 64) (Z.lnot (Z.ones 3))).
  rewrite Z.land_assoc, Z.land_ones by lia.
  change (2 ^ 64) with SIZE_MOD. fold (wrap x). rewrite (wrap_small x Hx).
  rewrite <- Z.ldiff_land, Z.ldiff_ones_r by lia.
  rewrite Z.shiftl_mul_pow2, Z.shiftr_div_pow2 by lia.
  change (2 ^ 3) with 8. lia.
Qed.

Lemma ALIGN_mod8 size : ALIGN size mod 8 = 0.
Proof. rewrite ALIGN_div, Z.mul_comm. apply Z.mod_mul. lia. Qed.

Lemma ALIGN_range size : in_size_t (ALIGN size).
Proof.
  rewrite ALIGN_div. pose proof (wrap_range (size + 7)) as H.
  unfold in_size_t, SIZE_MOD in *.
  pose proof (Z.mul_div_le (wrap (size + 7)) 8). 
  assert (0 <= wrap (size + 7) / 8) by (apply Z.div_pos; lia). lia.
Qed.

(** Below the wrap-around [ALIGN] rounds up to the next multiple of 8. *)
Lemma ALIGN_round_up size :
  0 <= size <= SIZE_MOD - 8 → size <= ALIGN size < size + 8.
Proof.
  intros H. rewrite ALIGN_div, wrap_small by (unfold in_size_t; lia).
  pose proof (Z.div_mod (size + 7) 8). 
  pose proof (Z.mod_pos_bound (size + 7) 8). lia.
Qed.


(** ** Field assignments *)

Lemma write_present p f (h : gmap Z heapChunk) c :
  h !! p = Some c → write p f h = <[p := f c]> h.
Proof. intros H. unfold write. by rewrite H. Qed.

Lemma lookup_write_eq p f (h : gmap Z heapChunk) :
  write p f h !! p = Some (f (default raw_chunk (h !! p))).
Proof. unfold write. apply lookup_insert_eq. Qed.

Lemma lookup_write_ne p q f (h : gmap Z heapChunk) :
  p ≠ q → write p f h !! q = h !! q.
Proof. intros H. unfold write. by apply lookup_insert_ne. Qed.

Lemma write_write p f g (h : gmap Z heapChunk) :
  write p g (write p f h) = write p (g ∘ f) h.
Proof.
  unfold write. rewrite lookup_insert_eq. simpl. apply insert_insert_eq.
Qed.

(** ** Chains: framing, splitting, uniqueness *)

Lemma set_size_next_id c : set_next (next c) (set_size (size c) c) = c.
Proof. by destruct c. Qed.

Lemma lseg_ext (h h' : gmap Z heapChunk) l p q :
  (∀ a, a ∈ l → h' !! a = h !! a) → lseg h p q l → lseg h' p q l.
Proof.
  revert p. induction l as [|a l IH]; intros p Hagree; simpl; [done|].
  intros (-> & Hnz & c & Hc & Hrest). split; [done|]. split; [done|].
  exists c. split.
  - rewrite Hagree; [done | left].
  - apply IH; [|done]. intros b Hb. apply Hagree. by right.
Qed.

Lemma lseg_app (h : gmap Z heapChunk) l1 l2 p q :
  lseg h p q (l1 ++ l2) ↔ ∃ r, lseg h p r l1 ∧ lseg h r q l2.
Proof.
  revert p. induction l1 as [|a l1 IH]; intros p; simpl.
  - split; [intros H; by exists p | by intros (r & -> & H)].
  - split.
    + intros (-> & Hnz & c & Hc & Hrest).
      apply IH in Hrest as (r & H1 & H2). exists r. eauto 10.
    + intros (r & (-> & Hnz & c & Hc & H1) & H2).
      split; [done|]. split; [done|]. exists c. split; [done|].
      apply IH. eauto.
Qed.

Lemma chain_functional (h : gmap Z heapChunk) p l1 l2 :
  chain h p l1 → chain h p l2 → l1 = l2.
Proof.
  unfold chain. revert p l2.
  induction l1 as [|a l1 IH]; intros p [|b l2]; simpl; try done.
  - intros -> (<- & Hnz & _). done.
  - intros (-> & Hnz & _) Hp. congruence.
  - intros (-> & _ & c & Hc & H1) (Hab & _ & c' & Hc' & H2). subst b.
    rewrite Hc in Hc'. injection Hc' as <-. f_equal. by eapply IH.
Qed.

Lemma chain_head_fresh (h : gmap Z heapChunk) a l :
  chain h a (a :: l) → a ∉ l.
Proof.
  intros Hch Hin.
  apply list_elem_of_split in Hin as (l1 & l2 & ->).
  pose proof Hch as (_ & _ & c & Hc & Hrest).
  apply lseg_app in Hrest as (r & _ & Hr).
  assert (r = a) as -> by (by destruct Hr).
  pose proof (chain_functional _ _ _ _ Hch Hr) as Heq.
  apply (f_equal length) in Heq. simpl in Heq. rewrite length_app in Heq.
  simpl in Heq. lia.
Qed.

Lemma chain_NoDup (h : gmap Z heapChunk) p l : chain h p l → NoDup l.
Proof.
  revert p. induction l as [|a l IH]; intros p Hch; [constructor|].
  pose proof Hch as (-> & _ & c & Hc & Hrest).
  constructor; [by eapply chain_head_fresh | by eapply IH].
Qed.

Lemma absorb_ext (h h' : gmap Z heapChunk) sz l :
  (∀ a, a ∈ l → h' !! a = h !! a) → absorb h' sz l = absorb h sz l.
Proof.
  revert sz. induction l as [|n l IH]; intros sz Hagree; simpl; [done|].
  rewrite Hagree by left. destruct (h !! n) as [cn|]; [|done].
  destruct (isFree cn); [|done]. apply IH. intros b Hb. apply Hagree.
  by right.
Qed.

(** ** [heapMergeChunks] on a chain *)

Lemma heapMergeChunks_stop fuel (h : gmap Z heapChunk) chunk c :
  h !! chunk = Some c →
  next c = NULL ∨ (∃ n, h !! next c = Some n ∧ isFree n = false) →
  heapMergeChunks (S fuel) h chunk = Some h.
Proof.
  intros Hc Hstop. simpl. rewrite Hc. simpl.
  destruct (decide (next c = NULL)) as [|Hnz]; [done|].
  destruct Hstop as [|(n & Hn & Hocc)]; [done|].
  rewrite Hn. simpl. by rewrite Hocc.
Qed.

Lemma heapMergeChunks_absorb fuel (h : gmap Z heapChunk) chunk c n :
  h !! chunk = Some c → next c ≠ NULL → next c ≠ chunk →
  h !! next c = Some n → isFree n = true →
  heapMergeChunks (S fuel) h chunk =
  heapMergeChunks fuel
    (<[chunk := set_next (next n)
                  (set_size (add_sz (size c) (add_sz CHUNK_SIZE (size n))) c)]>
       h) chunk.
Proof.
  intros Hc Hnz Hne Hn Hfree. simpl. rewrite Hc. simpl.
  destruct (decide (next c = NULL)); [done|].
  rewrite Hn. simpl. rewrite Hfree.
  rewrite lookup_write_eq, Hc. simpl.
  rewrite lookup_write_ne, Hn by done. simpl.
  rewrite write_write. unfold write. rewrite Hc. done.
Qed.

Lemma heapMergeChunks_chain fuel (h : gmap Z heapChunk) chunk c l :
  chain h chunk (chunk :: l) → h !! chunk = Some c →
  (length l < fuel)%nat →
  heapMergeChunks fuel h chunk =
  Some (<[chunk := set_next (absorb h (size c) l).2
                     (set_size (absorb h (size c) l).1 c)]> h).
Proof.
  revert h c fuel. induction l as [|n l IH]; intros h c fuel Hch Hc Hfuel.
  - destruct fuel as [|fuel]; [simpl in Hfuel; lia|].
    destruct Hch as (_ & _ & c' & Hc' & Hnil). simpl in Hnil.
    rewrite Hc in Hc'. injection Hc' as <-.
    rewrite (heapMergeChunks_stop _ _ _ c) by auto.
    simpl. rewrite <- Hnil, set_size_next_id, insert_id; done.
  - destruct fuel as [|fuel]; [simpl in Hfuel; lia|].
    pose proof (chain_head_fresh _ _ _ Hch) as Hfresh.
    destruct Hch as (_ & Hcnz & c' & Hc' & Hn & Hnnz & cn & Hcn & Hrest).
    rewrite Hc in Hc'. injection Hc' as <-.
    assert (n ≠ chunk) by (intros ->; apply Hfresh; left).
    assert (chunk ∉ l) by (intros ?; apply Hfresh; by right).
    simpl absorb. rewrite Hcn.
    destruct (isFree cn) eqn:Hfree.
    + rewrite (heapMergeChunks_absorb _ _ _ c cn) by congruence.
      set (c2 := set_next _ _). set (h2 := <[chunk := c2]> h).
      assert (Hframe : ∀ a, a ∈ l → h2 !! a = h !! a).
      { intros a Ha. unfold h2. apply lookup_insert_ne. congruence. }
      rewrite (IH h2 c2).
      * rewrite (absorb_ext h h2) by done. unfold h2.
        rewrite insert_insert_eq. done.
      * split; [done|]. split; [done|]. exists c2. split.
        -- unfold h2. apply lookup_insert_eq.
        -- apply (lseg_ext h); done.
      * unfold h2. apply lookup_insert_eq.
      * simpl in Hfuel. lia.
    + rewrite (heapMergeChunks_stop _ _ _ c); [|done|].
      * simpl. rewrite <- Hn, set_size_next_id, insert_id; done.
      * right. exists cn. by rewrite Hn.
Qed.

(** ** [heapFree] *)

Lemma heapFree_valid fuel st ptr c :
  ptr ≠ NULL → mem st !! (ptr - CHUNK_SIZE) = Some c →
  magic c = MAGIC_NUMBER →
  heapFree fuel st ptr =
  (h2 ← (if decide (next c = NULL)
         then Some (<[ptr - CHUNK_SIZE := set_isFree true c]> (mem st))
         else heapMergeChunks fuel
                (<[ptr - CHUNK_SIZE := set_isFree true c]> (mem st))
                (ptr - CHUNK_SIZE));
   Some (set_mem h2 st)).
Proof.
  intros Hp Hc Hm. unfold heapFree.
  destruct (decide (ptr = NULL)); [done|].
  rewrite Hc. simpl. destruct (decide (magic c = MAGIC_NUMBER)); [|done].
  rewrite lookup_write_eq, Hc. simpl. unfold write. rewrite Hc. done.
Qed.

Lemma heapFree_corrupted fuel st ptr c :
  ptr ≠ NULL → mem st !! (ptr - CHUNK_SIZE) = Some c →
  magic c ≠ MAGIC_NUMBER →
  heapFree fuel st ptr =
  (h2 ← (if decide (next c = NULL)
         then Some (<[ptr - CHUNK_SIZE := set_isFree true c]> (mem st))
         else heapMergeChunks fuel
                (<[ptr - CHUNK_SIZE := set_isFree true c]> (mem st))
                (ptr - CHUNK_SIZE));
   Some (set_mem h2
           (add_diag "Memory corruption"
              (set_stats (incr_corruptedChunks (mem_stats st)) st)))).
Proof.
  intros Hp Hc Hm. unfold heapFree.
  destruct (decide (ptr = NULL)); [done|].
  rewrite Hc. simpl. destruct (decide (magic c = MAGIC_NUMBER)); [done|].
  simpl. rewrite lookup_write_eq, Hc. simpl. unfold write. rewrite Hc. done.
Qed.

(** C1, as the code has it: a release whose header carries a wrong
    sentinel counts the corruption and then goes on to mark the chunk
    free, because the branch that counts it does not return. *)
Theorem heapFree_corrupted_marks_free fuel st ptr c :
  ptr ≠ NULL → mem st !! (ptr - CHUNK_SIZE) = Some c →
  magic c ≠ MAGIC_NUMBER → isFree c = false → next c = NULL →
  ∃ st',
    heapFree fuel st ptr = Some st' ∧
    corruptedChunks (mem_stats st') = corruptedChunks (mem_stats st) + 1 ∧
    mem st' !! (ptr - CHUNK_SIZE) = Some (set_isFree true c) ∧
    mem st' ≠ mem st.
Proof.
  intros Hp Hc Hm Hocc Hnext.
  rewrite (heapFree_corrupted _ _ _ c) by done.
  destruct (decide (next c = NULL)); [|done]. simpl.
  eexists. split; [done|]. simpl. split; [done|].
  split; [apply lookup_insert_eq|].
  intros Heq. apply (f_equal (λ h : gmap Z heapChunk, h !! (ptr - CHUNK_SIZE))) in Heq.
  simpl in Heq. rewrite lookup_insert_eq, Hc in Heq.
  injection Heq as Heq. apply (f_equal isFree) in Heq. simpl in Heq.
  congruence.
Qed.

(** ** [findFreeChunk] *)

Lemma last_cons_default (a d : Z) l :
  List.last (a :: l) d = List.last l a.
Proof.
  revert a d. induction l as [|b l IH]; intros a d; [done|].
  change (List.last (a :: b :: l) d) with (List.last (b :: l) d).
  rewrite IH. symmetry. apply IH.
Qed.

Lemma findFreeChunk_loop_hit fuel (h : gmap Z heapChunk) p c cc l1 last sz :
  lseg h p c l1 → Forall (unfit h sz) l1 →
  c ≠ NULL → h !! c = Some cc → fits cc sz = true →
  (length l1 < fuel)%nat →
  findFreeChunk_loop fuel h p last sz = Some (c, List.last l1 last).
Proof.
  revert p last fuel.
  induction l1 as [|a l1 IH]; intros p last fuel Hseg Hunfit Hnz Hc Hfit Hfuel;
    (destruct fuel as [|fuel]; [simpl in Hfuel; lia|]).
  - simpl in Hseg. subst p. simpl.
    destruct (decide (c = NULL)); [done|]. rewrite Hc. simpl.
    by rewrite Hfit.
  - destruct Hseg as (-> & Hanz & ca & Hca & Hrest).
    apply Forall_cons in Hunfit as [(ca' & Hca' & Hno) Hunfit].
    rewrite Hca in Hca'. injection Hca' as <-.
    rewrite last_cons_default.
    simpl findFreeChunk_loop. destruct (decide (a = NULL)); [done|].
    rewrite Hca. simpl. rewrite Hno.
    apply IH; try done. simpl in Hfuel. lia.
Qed.

Lemma findFreeChunk_loop_miss fuel (h : gmap Z heapChunk) p l last sz :
  chain h p l → Forall (unfit h sz) l → (length l < fuel)%nat →
  findFreeChunk_loop fuel h p last sz = Some (NULL, List.last l last).
Proof.
  revert p last fuel.
  induction l as [|a l IH]; intros p last fuel Hch Hunfit Hfuel;
    (destruct fuel as [|fuel]; [simpl in Hfuel; lia|]).
  - unfold chain in Hch. simpl in Hch. subst p. simpl.
    destruct (decide (NULL = NULL)); done.
  - destruct Hch as (-> & Hanz & ca & Hca & Hrest).
    apply Forall_cons in Hunfit as [(ca' & Hca' & Hno) Hunfit].
    rewrite Hca in Hca'. injection Hca' as <-.
    rewrite last_cons_default.
    simpl findFreeChunk_loop. destruct (decide (a = NULL)); [done|].
    rewrite Hca. simpl. rewrite Hno.
    apply IH; try done. simpl in Hfuel. lia.
Qed.

(** A chain either holds no chunk that passes the test, or splits at the
    first one that does. *)
Lemma chain_first_fit (h : gmap Z heapChunk) p l sz :
  chain h p l →
  Forall (unfit h sz) l ∨
  ∃ l1 c l2 cc,
    l = l1 ++ c :: l2 ∧ Forall (unfit h sz) l1 ∧ lseg h p c l1 ∧
    c ≠ NULL ∧ h !! c = Some cc ∧ fits cc sz = true ∧
    chain h c (c :: l2).
Proof.
  revert p. induction l as [|a l IH]; intros p Hch; [by left|].
  pose proof Hch as (-> & Hanz & ca & Hca & Hrest).
  destruct (fits ca sz) eqn:Hfit.
  - right. exists [], a, l, ca. simpl. repeat split; try done.
    exists ca. done.
  - destruct (IH _ Hrest) as [Hall|(l1 & c & l2 & cc & -> & H1 & H2 & H3)].
    + left. constructor; [by exists ca | done].
    + right. exists (a :: l1), c, l2, cc. split; [done|].
      split; [constructor; [by exists ca | done]|].
      split; [|done]. simpl. split; [done|]. split; [done|]. by exists ca.
Qed.

Lemma findFreeChunk_loop_fits fuel (h : gmap Z heapChunk) p last sz c last' cc :
  findFreeChunk_loop fuel h p last sz = Some (c, last') →
  c ≠ NULL → h !! c = Some cc → fits cc sz = true.
Proof.
  revert p last. induction fuel as [|fuel IH]; intros p last; [done|].
  simpl. destruct (decide (p = NULL)) as [->|Hp].
  - intros [= <- _]. done.
  - destruct (h !! p) as [cp|] eqn:Hcp; [|done]. simpl.
    destruct (fits cp sz) eqn:Hfit.
    + intros [= <- _] _ Hc. congruence.
    + apply IH.
Qed.

(** ** [splitChunk] and [myAlloc] *)

Lemma splitChunk_spec (h : gmap Z heapChunk) chunk sz c :
  h !! chunk = Some c → chunk + sz + CHUNK_SIZE ≠ chunk →
  splitChunk h chunk sz =
  Some (<[chunk := set_next (chunk + sz + CHUNK_SIZE) (set_size sz c)]>
          (<[chunk + sz + CHUNK_SIZE :=
               mkChunk MAGIC_NUMBER
                 (sub_sz (sub_sz (size c) sz) CHUNK_SIZE) true (next c)
                 (file (default raw_chunk (h !! (chunk + sz + CHUNK_SIZE))))
                 (line (default raw_chunk (h !! (chunk + sz + CHUNK_SIZE))))]>
             h)).
Proof.
  intros Hc Hne. unfold splitChunk. rewrite Hc. simpl.
  rewrite !lookup_write_ne, Hc by done. simpl.
  rewrite !write_write.
  unfold write at 1. rewrite lookup_write_ne, Hc by done. simpl.
  unfold write. done.
Qed.

Lemma myAlloc_hit fuel st bytes f l chunk last c :
  0 < CHUNK_SIZE → 0 < bytes → allChunks st ≠ NULL →
  findFreeChunk fuel st (allChunks st) (ALIGN bytes) = Some (chunk, last) →
  chunk ≠ NULL → mem st !! chunk = Some c →
  myAlloc fuel st bytes f l =
  Some (chunk + CHUNK_SIZE,
        set_mem (reused (mem st) chunk (ALIGN bytes) c f l) st).
Proof.
  intros HCS Hpos Hhead Hfind Hnz Hc. unfold myAlloc.
  destruct (Z.leb_spec bytes 0) as [|_]; [lia|].
  pose proof (ALIGN_range bytes) as Hsz. set (sz := ALIGN bytes) in *.
  assert (Hne : chunk + sz + CHUNK_SIZE ≠ chunk)
    by (unfold in_size_t in Hsz; lia).
  unfold reuse. rewrite decide_False by done.
  rewrite Hfind. simpl. rewrite decide_False by done.
  rewrite Hc. simpl. unfold reused, remainder.
  destruct (add_sz CHUNK_SIZE ALIGNMENT <=? sub_sz (size c) sz).
  - rewrite (splitChunk_spec _ _ _ c) by done. simpl.
    rewrite !decide_False by done. simpl.
    rewrite write_write. unfold write at 1.
    rewrite lookup_insert_eq. simpl.
    rewrite insert_insert_eq. done.
  - simpl. rewrite !decide_False by done. simpl.
    rewrite write_write. unfold write. rewrite Hc. simpl. done.
Qed.

(** C3: an allocate call that reuses the free chunk [c] found at [chunk].
    The chunk is at least as large as the aligned request.  When its
    excess is at least one header plus the alignment, the call splits it:
    the chunk keeps exactly the aligned size and points to a new free
    chunk, stamped with the sentinel, that holds the leftover and points
    to the old successor; no other header changes.  When the excess is
    smaller, the chunk is handed out with its size and successor as they
    were. *)
Theorem myAlloc_splits_on_reuse fuel st bytes f l chunk last c :
  0 < CHUNK_SIZE → CHUNK_SIZE + ALIGNMENT < SIZE_MOD →
  0 < bytes → allChunks st ≠ NULL →
  findFreeChunk fuel st (allChunks st) (ALIGN bytes) = Some (chunk, last) →
  chunk ≠ NULL → mem st !! chunk = Some c → in_size_t (size c) →
  ALIGN bytes <= size c ∧
  (CHUNK_SIZE + ALIGNMENT <= size c - ALIGN bytes →
   ∃ st' f' l',
     myAlloc fuel st bytes f l = Some (chunk + CHUNK_SIZE, st') ∧
     allChunks st' = allChunks st ∧
     mem st' !! chunk =
       Some (mkChunk (magic c) (ALIGN bytes) false
               (chunk + ALIGN bytes + CHUNK_SIZE) f l) ∧
     mem st' !! (chunk + ALIGN bytes + CHUNK_SIZE) =
       Some (mkChunk MAGIC_NUMBER (size c - ALIGN bytes - CHUNK_SIZE) true
               (next c) f' l') ∧
     ∀ a, a ≠ chunk → a ≠ chunk + ALIGN bytes + CHUNK_SIZE →
          mem st' !! a = mem st !! a) ∧
  (size c - ALIGN bytes < CHUNK_SIZE + ALIGNMENT →
   myAlloc fuel st bytes f l =
   Some (chunk + CHUNK_SIZE,
         set_mem (<[chunk := mkChunk (magic c) (size c) false (next c) f l]>
                    (mem st)) st)).
Proof.
  intros HCS Hsmall Hpos Hhead Hfind Hnz Hc Hrange.
  pose proof (findFreeChunk_loop_fits _ _ _ _ _ _ _ _ Hfind Hnz Hc) as Hfit.
  unfold fits in Hfit. apply andb_prop in Hfit as [_ Hle].
  apply Z.leb_le in Hle.
  pose proof (ALIGN_range bytes) as Hsz.
  rewrite (myAlloc_hit _ _ _ _ _ _ _ _ HCS Hpos Hhead Hfind Hnz Hc).
  set (sz := ALIGN bytes) in *. unfold reused, remainder.
  assert (Hthr : add_sz CHUNK_SIZE ALIGNMENT = CHUNK_SIZE + ALIGNMENT).
  { apply wrap_small. unfold in_size_t, ALIGNMENT in *. lia. }
  assert (Hexc : sub_sz (size c) sz = size c - sz).
  { apply wrap_small. unfold in_size_t in *. lia. }
  rewrite Hthr, Hexc.
  split; [done|]. split.
  - intros Hsplit. destruct (Z.leb_spec (CHUNK_SIZE + ALIGNMENT) (size c - sz));
      [|lia].
    assert (Hrem : sub_sz (size c - sz) CHUNK_SIZE = size c - sz - CHUNK_SIZE).
    { apply wrap_small. unfold in_size_t, ALIGNMENT in *. lia. }
    rewrite Hrem.
    eexists _, _, _. split; [done|]. simpl. split; [done|].
    split; [apply lookup_insert_eq|]. split.
    + rewrite lookup_insert_ne by (unfold in_size_t in *; lia).
      apply lookup_insert_eq.
    + intros a Ha1 Ha2. rewrite !lookup_insert_ne by done. done.
  - intros Hno. destruct (Z.leb_spec (CHUNK_SIZE + ALIGNMENT) (size c - sz));
      [lia|]. done.
Qed.

(** ** The shapes of the results of [myAlloc] and [heapMergeChunks] *)

Lemma findFreeChunk_loop_last fuel (h : gmap Z heapChunk) p last sz c last' :
  findFreeChunk_loop fuel h p last sz = Some (c, last') →
  last' = last ∨ (last' ≠ NULL ∧ is_Some (h !! last')).
Proof.
  revert p last. induction fuel as [|fuel IH]; intros p last; [done|].
  simpl. destruct (decide (p = NULL)) as [->|Hp].
  - intros [= _ <-]. by left.
  - destruct (h !! p) as [cp|] eqn:Hcp; [|done]. simpl.
    destruct (fits cp sz).
    + intros [= _ <-]. by left.
    + intros Hrec. apply IH in Hrec as [->|?]; [|by right].
      right. split; [done|]. by rewrite Hcp.
Qed.

Lemma sbrk_up a inc :
  0 < to_intptr inc →
  sbrk a inc =
  if (brk_min a <=? brk_cur a + to_intptr inc)
     && (brk_cur a + to_intptr inc <=? brk_max a)
  then (Some (brk_cur a),
        mkArena (brk_min a) (brk_cur a + to_intptr inc) (brk_max a))
  else (None, a).
Proof.
  intros Hd. unfold sbrk.
  destruct (Z.ltb_spec 0 (to_intptr inc)); [done | lia].
Qed.

Lemma sbrk_failure a inc a' : sbrk a inc = (None, a') → a' = a.
Proof. unfold sbrk. repeat case_match; by intros [=]. Qed.

Lemma grow_failure st last sz :
  (sbrk (os st) (add_sz sz CHUNK_SIZE)).1 = None →
  grow st last sz
  = Some (None, set_stats (incr_sbrkCalls (mem_stats st)) st).
Proof.
  intros Hfail. unfold grow, sbrkWithStats. simpl.
  destruct (sbrk (os st) _) as [[r|] a] eqn:Hs; [done|].
  apply sbrk_failure in Hs as ->. by destruct st.
Qed.

Lemma grow_success st last sz chunk a :
  sbrk (os st) (add_sz sz CHUNK_SIZE) = (Some chunk, a) →
  chunk + CHUNK_SIZE <= brk_cur a →
  grow st last sz =
  Some (Some chunk,
   mkState (if decide (last = NULL) then chunk else allChunks st)
     (if decide (last = NULL)
      then <[chunk := fresh_chunk (mem st) chunk sz]> (mem st)
      else write last (set_next chunk)
             (<[chunk := fresh_chunk (mem st) chunk sz]> (mem st)))
     (incr_sbrkCalls (mem_stats st)) a (diag st)).
Proof.
  intros Hok Hfit. unfold grow, sbrkWithStats. simpl. rewrite Hok. simpl.
  destruct (Z.leb_spec (chunk + CHUNK_SIZE) (brk_cur a)); [|lia].
  rewrite !write_write. unfold write at 2 3. simpl.
  destruct (decide (last = NULL)); done.
Qed.

(** The header of a grown chunk must end at or below the new break. *)
Lemma grow_outside st last sz chunk a :
  sbrk (os st) (add_sz sz CHUNK_SIZE) = (Some chunk, a) →
  brk_cur a < chunk + CHUNK_SIZE →
  grow st last sz = None.
Proof.
  intros Hok Hout. unfold grow, sbrkWithStats. simpl. rewrite Hok. simpl.
  destruct (Z.leb_spec (chunk + CHUNK_SIZE) (brk_cur a)); [lia | done].
Qed.

Lemma grow_inv st last sz chunk a r st1 :
  sbrk (os st) (add_sz sz CHUNK_SIZE) = (Some chunk, a) →
  grow st last sz = Some (r, st1) →
  chunk + CHUNK_SIZE <= brk_cur a ∧ r = Some chunk ∧
  st1 =
   mkState (if decide (last = NULL) then chunk else allChunks st)
     (if decide (last = NULL)
      then <[chunk := fresh_chunk (mem st) chunk sz]> (mem st)
      else write last (set_next chunk)
             (<[chunk := fresh_chunk (mem st) chunk sz]> (mem st)))
     (incr_sbrkCalls (mem_stats st)) a (diag st).
Proof.
  intros Hok Hg.
  destruct (Z.le_gt_cases (chunk + CHUNK_SIZE) (brk_cur a)) as [Hfit|Hout].
  - rewrite (grow_success _ _ _ _ _ Hok Hfit) in Hg.
    by injection Hg as <- <-.
  - by rewrite (grow_outside _ _ _ _ _ Hok) in Hg by lia.
Qed.

Lemma myAlloc_cases fuel st bytes f l p st' :
  0 < CHUNK_SIZE → myAlloc fuel st bytes f l = Some (p, st') →
  (bytes <= 0 ∧ p = NULL ∧ st' = st) ∨
  (0 < bytes ∧ ∃ chunk last c,
     allChunks st ≠ NULL ∧
     findFreeChunk fuel st (allChunks st) (ALIGN bytes) = Some (chunk, last) ∧
     chunk ≠ NULL ∧ mem st !! chunk = Some c ∧ p = chunk + CHUNK_SIZE ∧
     st' = set_mem (reused (mem st) chunk (ALIGN bytes) c f l) st) ∨
  (0 < bytes ∧ ∃ last,
     missed fuel st (ALIGN bytes) last ∧
     ((sbrk (os st) (add_sz (ALIGN bytes) CHUNK_SIZE)).1 = None ∧
      p = NULL ∧ st' = set_stats (incr_sbrkCalls (mem_stats st)) st ∨
      ∃ chunk st1,
        (sbrk (os st) (add_sz (ALIGN bytes) CHUNK_SIZE)).1 = Some chunk ∧
        grow st last (ALIGN bytes) = Some (Some chunk, st1) ∧
        p = chunk + CHUNK_SIZE ∧
        st' = set_mem (write chunk (set_origin f l) (mem st1)) st1)).
Proof.
  intros HCS Hrun.
  destruct (Z.leb_spec bytes 0) as [Hle|Hpos].
  { left. unfold myAlloc in Hrun.
    destruct (Z.leb_spec bytes 0); [|lia]. by injection Hrun as <- <-. }
  right.
  assert (Hsplit :
    (∃ chunk last c,
       allChunks st ≠ NULL ∧
       findFreeChunk fuel st (allChunks st) (ALIGN bytes)
         = Some (chunk, last) ∧
       chunk ≠ NULL ∧ mem st !! chunk = Some c) ∨
    (∃ last, missed fuel st (ALIGN bytes) last ∧
       reuse fuel st (ALIGN bytes) = Some (NULL, last, mem st))).
  { unfold myAlloc in Hrun. destruct (Z.leb_spec bytes 0); [lia|].
    unfold reuse, missed in *.
    destruct (decide (allChunks st = NULL)) as [Hnull|Hhead].
    { right. exists NULL. split; [by left | done]. }
    destruct (findFreeChunk fuel st (allChunks st) (ALIGN bytes))
      as [[chunk last]|] eqn:Hfind; [|done].
    simpl in Hrun. destruct (decide (chunk = NULL)) as [->|Hnz].
    { right. exists last. split; [by right | done]. }
    destruct (mem st !! chunk) as [c|] eqn:Hc; [|done].
    left. exists chunk, last, c. done. }
  destruct Hsplit as [(chunk & last & c & Hhead & Hfind & Hnz & Hc)
                     |(last & Hmiss & Hreuse)].
  - left. split; [done|]. exists chunk, last, c.
    rewrite (myAlloc_hit _ _ _ _ _ _ _ _ HCS Hpos Hhead Hfind Hnz Hc) in Hrun.
    injection Hrun as <- <-. done.
  - right. split; [done|]. exists last. split; [done|].
    unfold myAlloc in Hrun. destruct (Z.leb_spec bytes 0); [lia|].
    rewrite Hreuse in Hrun. simpl in Hrun.
    replace (set_mem (mem st) st) with st in Hrun by (by destruct st).
    destruct (sbrk (os st) (add_sz (ALIGN bytes) CHUNK_SIZE))
      as [[chunk|] a] eqn:Hsbrk.
    + right.
      destruct (grow st last (ALIGN bytes)) as [[r st1]|] eqn:Hgrow; [|done].
      destruct (grow_inv _ _ _ _ _ _ _ Hsbrk Hgrow) as (_ & -> & _).
      exists chunk, st1. split; [done|]. split; [done|].
      simpl in Hrun. by injection Hrun as <- <-.
    + left. rewrite grow_failure in Hrun by (by rewrite Hsbrk).
      simpl in Hrun. injection Hrun as <- <-. done.
Qed.

Lemma heapMergeChunks_cases fuel (h h' : gmap Z heapChunk) chunk :
  heapMergeChunks (S fuel) h chunk = Some h' →
  h' = h ∨
  ∃ c n0 m n,
    h !! chunk = Some c ∧ h !! next c = Some n0 ∧ h !! m = Some n ∧
    heapMergeChunks fuel
      (<[chunk := set_next (next n)
                    (set_size (add_sz (size c) (add_sz CHUNK_SIZE (size n0)))
                       c)]> h) chunk = Some h'.
Proof.
  simpl. destruct (h !! chunk) as [c|] eqn:Hc; [|done]. simpl.
  destruct (decide (next c = NULL)); [intros [= <-]; by left|].
  destruct (h !! next c) as [n0|] eqn:Hn0; [|done]. simpl.
  destruct (isFree n0); [|intros [= <-]; by left].
  rewrite lookup_write_eq, Hc. simpl.
  destruct (decide (next c = chunk)) as [Heq|Hne].
  - rewrite Heq, lookup_write_eq, Hc. simpl.
    rewrite write_write. unfold write. rewrite Hc. simpl. intros Hrec.
    right. exists c, n0, chunk, c. done.
  - rewrite lookup_write_ne, Hn0 by done. simpl.
    rewrite write_write. unfold write. rewrite Hc. simpl. intros Hrec.
    right. exists c, n0, (next c), n0. done.
Qed.

(** ** Sizes stay multiples of the alignment *)

Lemma divide_wrap z : (ALIGNMENT | z) → (ALIGNMENT | wrap z).
Proof.
  unfold ALIGNMENT. intros H. apply Z.mod_divide; [lia|].
  rewrite wrap_mod8. apply Z.mod_divide; [lia | done].
Qed.

Lemma divide_add_sz a b :
  (ALIGNMENT | a) → (ALIGNMENT | b) → (ALIGNMENT | add_sz a b).
Proof. intros. apply divide_wrap. by apply Z.divide_add_r. Qed.

Lemma divide_sub_sz a b :
  (ALIGNMENT | a) → (ALIGNMENT | b) → (ALIGNMENT | sub_sz a b).
Proof. intros. apply divide_wrap. by apply Z.divide_sub_r. Qed.

Lemma divide_ALIGN bytes : (ALIGNMENT | ALIGN bytes).
Proof.
  unfold ALIGNMENT at 1. apply Z.mod_divide; [lia | apply ALIGN_mod8].
Qed.

Lemma aligned_insert (h : gmap Z heapChunk) a c :
  aligned h → (ALIGNMENT | size c) → aligned (<[a := c]> h).
Proof.
  intros Hal Hc b cb. rewrite lookup_insert. case_decide.
  - intros [= <-]. done.
  - apply Hal.
Qed.

Lemma aligned_write (h : gmap Z heapChunk) p f :
  aligned h →
  (∀ c, (ALIGNMENT | size c) → (ALIGNMENT | size (f c))) →
  aligned (write p f h).
Proof.
  intros Hal Hf. apply aligned_insert; [done|]. apply Hf.
  destruct (h !! p) as [c|] eqn:Hc; simpl.
  - by eapply Hal.
  - apply Z.divide_0_r.
Qed.

Lemma aligned_heapMergeChunks fuel (h h' : gmap Z heapChunk) chunk :
  (ALIGNMENT | CHUNK_SIZE) → aligned h →
  heapMergeChunks fuel h chunk = Some h' → aligned h'.
Proof.
  intros HCS. revert h. induction fuel as [|fuel IH]; intros h Hal; [done|].
  intros Hrun.
  apply heapMergeChunks_cases in Hrun
    as [->|(c & n0 & m & n & Hc & Hn0 & Hn & Hrec)]; [done|].
  apply IH in Hrec; [done|]. apply aligned_insert; [done|]. simpl.
  apply divide_add_sz; [by eapply Hal|].
  apply divide_add_sz; [done | by eapply Hal].
Qed.

Lemma aligned_heapFree fuel st ptr st' :
  (ALIGNMENT | CHUNK_SIZE) → aligned (mem st) →
  heapFree fuel st ptr = Some st' → aligned (mem st').
Proof.
  intros HCS Hal. unfold heapFree.
  destruct (decide (ptr = NULL)); [by intros [= <-]|].
  destruct (mem st !! (ptr - CHUNK_SIZE)) as [c|] eqn:Hc; [|done]. simpl.
  set (st1 := if decide (magic c = MAGIC_NUMBER) then st else _).
  assert (Hmem : mem st1 = mem st)
    by (unfold st1; by destruct (decide (magic c = MAGIC_NUMBER))).
  rewrite Hmem. rewrite lookup_write_eq, Hc. simpl.
  assert (Hal1 : aligned (write (ptr - CHUNK_SIZE) (set_isFree true) (mem st)))
    by (by apply aligned_write).
  destruct (decide (next c = NULL)).
  - simpl. by intros [= <-].
  - destruct (heapMergeChunks _ _ _) as [h2|] eqn:Hmerge; [|done].
    simpl. intros [= <-]. simpl.
    by eapply aligned_heapMergeChunks.
Qed.

Lemma aligned_reused (h : gmap Z heapChunk) chunk bytes c f l :
  (ALIGNMENT | CHUNK_SIZE) → aligned h → h !! chunk = Some c →
  aligned (reused h chunk (ALIGN bytes) c f l).
Proof.
  intros HCS Hal Hc. unfold reused.
  pose proof (Hal _ _ Hc) as Hsz. pose proof (divide_ALIGN bytes).
  destruct (_ <=? _).
  - apply aligned_insert; [|done]. apply aligned_insert; [done|]. simpl.
    by repeat apply divide_sub_sz.
  - by apply aligned_insert.
Qed.

Lemma aligned_myAlloc fuel st bytes f l p st' :
  0 < CHUNK_SIZE → (ALIGNMENT | CHUNK_SIZE) → aligned (mem st) →
  myAlloc fuel st bytes f l = Some (p, st') → aligned (mem st').
Proof.
  intros HCS Hdiv Hal Hrun.
  apply (myAlloc_cases _ _ _ _ _ _ _ HCS) in Hrun
    as [(_ & _ & ->)
       |[(_ & chunk & last & c & _ & _ & _ & Hc & _ & ->)
        |(_ & last & _ & [(_ & _ & ->)|(chunk & st1 & Hs & Hg & Hres)])]];
    [done | simpl; by apply aligned_reused | done | ].
  destruct (sbrk (os st) _) as [r a] eqn:Hsbrk. simpl in Hs. subst r.
  apply (grow_inv _ _ _ _ _ _ _ Hsbrk) in Hg as (Hfit & _ & ->).
  set (st1 := mkState _ _ _ _ _) in *.
  assert (Hal1 : aligned (mem st1)).
  { simpl.
      assert (aligned (<[chunk := fresh_chunk (mem st) chunk (ALIGN bytes)]>
                         (mem st)))
        by (apply aligned_insert; [done | apply divide_ALIGN]).
      destruct (decide (last = NULL)); [done|]. by apply aligned_write. }
  destruct Hres as (_ & ->).
  simpl. by apply aligned_write.
Qed.

Lemma aligned_step st c st' :
  0 < CHUNK_SIZE → (ALIGNMENT | CHUNK_SIZE) →
  aligned (mem st) → step st c st' → aligned (mem st').
Proof.
  intros HCS Hdiv Hal Hstep. destruct Hstep as [?????? st' _ Hrun|???? Hrun].
  - unfold allocWithStats in Hrun. by eapply aligned_myAlloc in Hrun.
  - by eapply aligned_heapFree.
Qed.

(** ** Sentinels stay in place *)

Lemma is_Some_insert (h : gmap Z heapChunk) a c p :
  is_Some (h !! p) → is_Some (<[a := c]> h !! p).
Proof. intros H. rewrite lookup_insert. by case_decide. Qed.

Lemma is_Some_write (h : gmap Z heapChunk) a f p :
  is_Some (h !! p) → is_Some (write a f h !! p).
Proof. apply is_Some_insert. Qed.

Lemma stamped_insert (h : gmap Z heapChunk) a c :
  stamped h → magic c = MAGIC_NUMBER → stamped (<[a := c]> h).
Proof.
  intros Hst Hc b cb. rewrite lookup_insert. case_decide.
  - by intros [= <-].
  - apply Hst.
Qed.

Lemma linked_insert (h : gmap Z heapChunk) a c :
  linked h → next c = NULL ∨ next c = a ∨ is_Some (h !! next c) →
  linked (<[a := c]> h).
Proof.
  intros Hl Hc b cb. rewrite lookup_insert. case_decide.
  - intros [= <-]. destruct Hc as [|[->|]]; [by left| |].
    + right. rewrite lookup_insert_eq. done.
    + right. by apply is_Some_insert.
  - intros Hb. destruct (Hl _ _ Hb); [by left|].
    right. by apply is_Some_insert.
Qed.

Lemma heapMergeChunks_sound fuel (h h' : gmap Z heapChunk) chunk :
  stamped h → linked h → heapMergeChunks fuel h chunk = Some h' →
  stamped h' ∧ linked h' ∧ ∀ p, is_Some (h !! p) → is_Some (h' !! p).
Proof.
  revert h. induction fuel as [|fuel IH]; intros h Hst Hl; [done|].
  intros Hrun.
  apply heapMergeChunks_cases in Hrun
    as [->|(c & n0 & m & n & Hc & Hn0 & Hn & Hrec)]; [done|].
  apply IH in Hrec as (Hst' & Hl' & Hdom).
  - split; [done|]. split; [done|]. intros p Hp. apply Hdom.
    by apply is_Some_insert.
  - apply stamped_insert; [done|]. simpl. by eapply Hst.
  - apply linked_insert; [done|]. simpl.
    destruct (Hl _ _ Hn); auto.
Qed.

Lemma closed_heapFree fuel st ptr st' :
  closed st → heapFree fuel st ptr = Some st' → closed st'.
Proof.
  intros (Hst & Hl & Hhead). unfold heapFree.
  destruct (decide (ptr = NULL)); [by intros [= <-]|].
  destruct (mem st !! (ptr - CHUNK_SIZE)) as [c|] eqn:Hc; [|done]. simpl.
  set (st1 := if decide (magic c = MAGIC_NUMBER) then st else _).
  assert (Hmem : mem st1 = mem st)
    by (unfold st1; by destruct (decide (magic c = MAGIC_NUMBER))).
  assert (Hhd : allChunks st1 = allChunks st)
    by (unfold st1; by destruct (decide (magic c = MAGIC_NUMBER))).
  rewrite Hmem. rewrite lookup_write_eq, Hc. simpl.
  rewrite (write_present _ _ _ c) by done.
  set (h1 := <[ptr - CHUNK_SIZE := set_isFree true c]> (mem st)).
  assert (Hst1 : stamped h1)
    by (apply stamped_insert; [done | simpl; by eapply Hst]).
  assert (Hl1 : linked h1).
  { apply linked_insert; [done|]. simpl. destruct (Hl _ _ Hc); auto. }
  assert (Hhead1 : allChunks st = NULL ∨ is_Some (h1 !! allChunks st)).
  { destruct Hhead; [by left|]. right. by apply is_Some_insert. }
  destruct (decide (next c = NULL)).
  - simpl. intros [= <-]. unfold closed. simpl. by rewrite Hhd.
  - destruct (heapMergeChunks _ _ _) as [h2|] eqn:Hmerge; [|done].
    simpl. intros [= <-]. unfold closed. simpl. rewrite Hhd.
    apply heapMergeChunks_sound in Hmerge as (? & ? & Hdom); try done.
    split; [done|]. split; [done|].
    destruct Hhead1; [by left|]. right. by apply Hdom.
Qed.

Lemma closed_reused (h : gmap Z heapChunk) chunk sz c f l :
  stamped h → linked h → h !! chunk = Some c →
  stamped (reused h chunk sz c f l) ∧ linked (reused h chunk sz c f l) ∧
  ∀ p, is_Some (h !! p) → is_Some (reused h chunk sz c f l !! p).
Proof.
  intros Hst Hl Hc. unfold reused.
  pose proof (Hst _ _ Hc) as Hm. pose proof (Hl _ _ Hc) as Hn.
  destruct (_ <=? _).
  - split; [|split].
    + by repeat apply stamped_insert.
    + apply linked_insert.
      * apply linked_insert; [done|]. simpl. destruct Hn; auto.
      * simpl. right. right. rewrite lookup_insert_eq. done.
    + intros p Hp. by repeat apply is_Some_insert.
  - split; [|split].
    + by apply stamped_insert.
    + apply linked_insert; [done|]. simpl. destruct Hn; auto.
    + intros p Hp. by apply is_Some_insert.
Qed.

Lemma closed_myAlloc fuel st bytes f l p st' :
  0 < CHUNK_SIZE → closed st →
  myAlloc fuel st bytes f l = Some (p, st') → closed st'.
Proof.
  intros HCS (Hst & Hl & Hhead) Hrun.
  apply (myAlloc_cases _ _ _ _ _ _ _ HCS) in Hrun
    as [(_ & _ & ->)
       |[(_ & chunk & last & c & _ & _ & _ & Hc & _ & ->)
        |(_ & last & Hmiss & [(_ & _ & ->)|(chunk & st1 & Hs & Hg & Hres)])]];
    [done | | done | ].
  { destruct (closed_reused _ _ (ALIGN bytes) _ f l Hst Hl Hc)
      as (? & ? & Hdom).
    unfold closed. simpl. split; [done|]. split; [done|].
    destruct Hhead; [by left|]. right. by apply Hdom. }
  destruct (sbrk (os st) _) as [r a] eqn:Hsbrk. simpl in Hs. subst r.
  apply (grow_inv _ _ _ _ _ _ _ Hsbrk) in Hg as (Hfit & _ & ->).
  set (st1 := mkState _ _ _ _ _) in *.
  set (h1 := <[chunk := fresh_chunk (mem st) chunk (ALIGN bytes)]> (mem st)).
  assert (Hst1 : stamped h1) by (by apply stamped_insert).
  assert (Hl1 : linked h1) by (apply linked_insert; [done | by left]).
  assert (Hchunk : is_Some (h1 !! chunk))
    by (unfold h1; by rewrite lookup_insert_eq).
  assert (Hclosed1 : closed st1).
  { unfold closed, st1. simpl. fold h1.
    destruct (decide (last = NULL)) as [->|Hlast].
    { split; [done|]. split; [done|]. by right. }
    assert (Hlast_in : is_Some (h1 !! last)).
    { destruct Hmiss as [[_ ?]|[Hnz Hfind]]; [done|].
      apply findFreeChunk_loop_last in Hfind as [->|[_ ?]].
      - destruct Hhead; [done|]. by apply is_Some_insert.
      - by apply is_Some_insert. }
    destruct Hlast_in as [cl Hcl]. rewrite (write_present _ _ _ cl) by done.
    split; [|split].
    - apply stamped_insert; [done|]. simpl. by eapply Hst1.
    - apply linked_insert; [done|]. simpl. auto.
    - destruct Hhead; [by left|]. right. by repeat apply is_Some_insert. }
  destruct Hres as (_ & ->).
  destruct Hclosed1 as (Hs1 & Hk1 & Hh1).
  assert (Hchunk1 : is_Some (mem st1 !! chunk)).
  { unfold st1. simpl. fold h1.
    destruct (decide (last = NULL)); [done|]. by apply is_Some_write. }
  destruct Hchunk1 as [cc Hcc].
  unfold closed. simpl mem. simpl allChunks.
  rewrite (write_present _ _ _ cc) by done.
  split; [|split].
  - apply stamped_insert; [done|]. simpl. by eapply Hs1.
  - apply linked_insert; [done|]. simpl. destruct (Hk1 _ _ Hcc); auto.
  - destruct Hh1; [by left|]. right. by apply is_Some_insert.
Qed.

Lemma closed_step st c st' :
  0 < CHUNK_SIZE → closed st → step st c st' → closed st'.
Proof.
  intros HCS Hcl Hstep. destruct Hstep as [?????? st' _ Hrun|???? Hrun].
  - unfold allocWithStats in Hrun. by eapply closed_myAlloc in Hrun.
  - by eapply closed_heapFree.
Qed.

Lemma closed_in_chain st a :
  closed st → in_chain st a → is_Some (mem st !! a).
Proof.
  intros (Hst & Hl & Hhead) Hin. induction Hin as [Hnz|a c _ _ Hc Hnz].
  - by destruct Hhead.
  - by destruct (Hl _ _ Hc).
Qed.

(** ** The request statistics *)

Lemma myAlloc_stats fuel st bytes f l p st' :
  myAlloc fuel st bytes f l = Some (p, st') →
  allocCalls (mem_stats st') = allocCalls (mem_stats st) ∧
  totalAllocated (mem_stats st') = totalAllocated (mem_stats st) ∧
  peakMemory (mem_stats st') = peakMemory (mem_stats st).
Proof.
  unfold myAlloc. destruct (bytes <=? 0); [by intros [= <- <-]|].
  destruct (reuse fuel st (ALIGN bytes)) as [[[chunk last] h1]|]; [|done].
  simpl. destruct (decide (chunk = NULL)).
  - unfold grow, sbrkWithStats. simpl.
    destruct (sbrk (os st) _) as [[r|] a]; simpl.
    + destruct (_ <=? _); [|done].
      destruct (decide (last = NULL)); by intros [= <- <-].
    + by intros [= <- <-].
  - by intros [= <- <-].
Qed.

Lemma heapFree_stats fuel st ptr st' :
  heapFree fuel st ptr = Some st' →
  allocCalls (mem_stats st') = allocCalls (mem_stats st) ∧
  totalAllocated (mem_stats st') = totalAllocated (mem_stats st) ∧
  peakMemory (mem_stats st') = peakMemory (mem_stats st) ∧
  sbrkCalls (mem_stats st') = sbrkCalls (mem_stats st).
Proof.
  unfold heapFree. destruct (decide (ptr = NULL)); [by intros [= <-]|].
  destruct (mem st !! (ptr - CHUNK_SIZE)) as [c|]; [|done]. simpl.
  destruct (_ !! _) as [c1|]; [|done]. simpl.
  destruct (if decide (next c1 = NULL) then _ else _) as [h2|]; [|done].
  simpl. intros [= <-]. simpl.
  by destruct (decide (magic c = MAGIC_NUMBER)).
Qed.

Lemma step_stats st c st' :
  step st c st' →
  match c with
  | Allocate bytes _ _ =>
      0 <= bytes ∧
      totalAllocated (mem_stats st')
        = add_sz (totalAllocated (mem_stats st)) bytes ∧
      peakMemory (mem_stats st')
        = Z.max (peakMemory (mem_stats st)) (totalAllocated (mem_stats st'))
  | Release _ =>
      totalAllocated (mem_stats st') = totalAllocated (mem_stats st) ∧
      peakMemory (mem_stats st') = peakMemory (mem_stats st)
  end.
Proof.
  intros [fuel st0 bytes f l p st1 Hb Hrun|fuel st0 ptr st1 Hrun].
  - unfold allocWithStats in Hrun.
    apply myAlloc_stats in Hrun as (_ & -> & ->). simpl.
    split; [apply Hb|]. split; [done|].
    destruct (Z.ltb_spec (peakMemory (mem_stats st0))
                (add_sz (totalAllocated (mem_stats st0)) bytes)); lia.
  - apply heapFree_stats in Hrun as (_ & -> & -> & _). done.
Qed.

Lemma requested_nonneg st calls st' : runs st calls st' → 0 <= requested calls.
Proof.
  induction 1 as [|st c st1 calls st2 Hstep _ IH]; simpl; [lia|].
  apply step_stats in Hstep. destruct c; lia.
Qed.

Lemma runs_stats st calls st' t :
  runs st calls st' →
  totalAllocated (mem_stats st) = wrap t →
  totalAllocated (mem_stats st) <= peakMemory (mem_stats st) →
  totalAllocated (mem_stats st') = wrap (t + requested calls) ∧
  totalAllocated (mem_stats st') <= peakMemory (mem_stats st') ∧
  (0 <= t → t + requested calls < SIZE_MOD →
   peakMemory (mem_stats st) = t →
   peakMemory (mem_stats st') = t + requested calls).
Proof.
  intros Hruns. revert t.
  induction Hruns as [|st c st1 calls st2 Hstep Hruns IH]; intros t Ht Hle.
  - simpl. rewrite Z.add_0_r. split; [done|]. split; [done|]. lia.
  - pose proof (requested_nonneg _ _ _ Hruns) as Hreq.
    apply step_stats in Hstep. destruct c as [bytes f l|ptr]; simpl.
    + destruct Hstep as (Hb & Htot & Hpeak).
      assert (Htot' : totalAllocated (mem_stats st1) = wrap (t + bytes)).
      { rewrite Htot, Ht. unfold add_sz, wrap, SIZE_MOD.
        by rewrite Zplus_mod_idemp_l. }
      destruct (IH (t + bytes)) as (H1 & H2 & H3); [done|lia|].
      rewrite <- Z.add_assoc in H1. split; [done|]. split; [done|].
      intros Ht0 Hsum Hp. rewrite Z.add_assoc. apply H3; [lia|lia|].
      rewrite Hpeak, Htot', Hp, wrap_small by (unfold in_size_t; lia). lia.
    + destruct Hstep as (Htot & Hpeak).
      destruct (IH t) as (H1 & H2 & H3); [congruence|lia|].
      split; [done|]. split; [done|]. intros. apply H3; congruence.
Qed.

(** C9, amended: the peak statistic follows the cumulative counter, which
    no release lowers.  After any run from the initial state the
    cumulative counter holds the bytes ever requested (modulo 2^64) and
    the peak statistic is at least as large; as long as the requests
    total less than 2^64, the peak statistic equals the bytes ever
    requested, whatever was released in between. *)
Theorem peakMemory_is_cumulative a calls st :
  runs (init_state a) calls st →
  totalAllocated (mem_stats st) = wrap (requested calls) ∧
  totalAllocated (mem_stats st) <= peakMemory (mem_stats st) ∧
  (requested calls < SIZE_MOD →
   peakMemory (mem_stats st) = requested calls ∧
   totalAllocated (mem_stats st) = requested calls).
Proof.
  intros Hruns.
  pose proof (requested_nonneg _ _ _ Hruns) as Hreq.
  destruct (runs_stats _ _ _ 0 Hruns) as (H1 & H2 & H3); [done|done|].
  simpl in H1, H3. split; [done|]. split; [done|].
  intros Hsum. split; [by apply H3|].
  rewrite H1. apply wrap_small. unfold in_size_t. lia.
Qed.

(** ** Laid-out chains *)

Lemma layout_ext (h h' : gmap Z heapChunk) l p lo hi :
  (∀ a, a ∈ l → h' !! a = h !! a) → layout h p lo hi l → layout h' p lo hi l.
Proof.
  revert p lo. induction l as [|a l IH]; intros p lo Hagree; simpl; [done|].
  intros (-> & Hlo & c & Hc & Hm & Hsz & Hhi & Hrest).
  split; [done|]. split; [done|]. exists c.
  rewrite Hagree by left. repeat split; try done.
  apply IH; [|done]. intros b Hb. apply Hagree. by right.
Qed.

Lemma layout_chain (h : gmap Z heapChunk) l p lo hi :
  0 < CHUNK_SIZE → 0 < lo → layout h p lo hi l → chain h p l.
Proof.
  intros HCS. revert p lo. induction l as [|a l IH]; intros p lo Hlo; [done|].
  intros (-> & Ha & c & Hc & Hm & Hsz & Hhi & Hrest).
  split; [done|]. split; [unfold NULL; lia|]. exists c. split; [done|].
  apply (IH _ (a + CHUNK_SIZE + size c)); [lia | done].
Qed.

Lemma layout_bounds (h : gmap Z heapChunk) l p lo hi a :
  0 < CHUNK_SIZE → layout h p lo hi l → a ∈ l →
  lo <= a ∧ ∃ c, h !! a = Some c ∧ magic c = MAGIC_NUMBER ∧
                 0 <= size c ∧ a + CHUNK_SIZE + size c <= hi.
Proof.
  intros HCS. revert p lo. induction l as [|b l IH]; intros p lo Hlay Hin.
  - by apply elem_of_nil in Hin.
  - destruct Hlay as (-> & Hlo & c & Hc & Hm & Hsz & Hhi & Hrest).
    apply elem_of_cons in Hin as [->|Hin].
    + split; [done|]. exists c. done.
    + destruct (IH _ _ Hrest Hin) as [Hlo' Hrest']. split; [lia | done].
Qed.

Lemma layout_app (h : gmap Z heapChunk) l1 c l2 p lo hi :
  0 < CHUNK_SIZE → 0 < lo → layout h p lo hi (l1 ++ c :: l2) →
  lseg h p c l1 ∧ (∀ a, a ∈ l1 → lo <= a < c) ∧ lo <= c ∧
  ∃ cc, h !! c = Some cc ∧ magic cc = MAGIC_NUMBER ∧ 0 <= size cc ∧
        c + CHUNK_SIZE + size cc <= hi ∧
        layout h (next cc) (c + CHUNK_SIZE + size cc) hi l2.
Proof.
  intros HCS. revert p lo.
  induction l1 as [|a l1 IH]; intros p lo Hpos; simpl.
  - intros (-> & Hlo & cc & Hrest). split; [done|].
    split; [intros a Ha; by apply elem_of_nil in Ha|]. split; [done|].
    by exists cc.
  - intros (-> & Hlo & ca & Hca & Hm & Hsz & Hhi & Hrest).
    destruct (IH _ (a + CHUNK_SIZE + size ca) ltac:(lia) Hrest)
      as (Hseg & Hlt & Hc & Hcc).
    split; [|split; [|split; [lia | done]]].
    + split; [done|]. split; [unfold NULL; lia|]. by exists ca.
    + intros b Hb. apply elem_of_cons in Hb as [->|Hb]; [lia|].
      specialize (Hlt _ Hb). lia.
Qed.


Lemma lseg_head_nonnull (h : gmap Z heapChunk) p c l :
  lseg h p c l → c ≠ NULL → p ≠ NULL.
Proof. destruct l; simpl; [by intros -> | by intros (-> & ? & _)]. Qed.

(** ** Release, then allocate again *)


Lemma unfit_weaken (h : gmap Z heapChunk) sn sk l :
  (∀ a c, a ∈ l → h !! a = Some c → isFree c = true →
          sk <= size c → sn <= size c) →
  Forall (unfit h sn) l → Forall (unfit h sk) l.
Proof.
  intros Hyp. rewrite !Forall_forall. intros Hun a Ha.
  destruct (Hun a Ha) as (c & Hc & Hno). exists c. split; [done|].
  unfold fits in *. destruct (isFree c) eqn:Hfree; [|done]. simpl in *.
  apply Z.leb_gt in Hno. apply Z.leb_gt.
  destruct (Z.le_gt_cases sk (size c)) as [Hle|]; [|lia].
  specialize (Hyp a c Ha Hc Hfree Hle). lia.
Qed.


Lemma myAlloc_miss fuel st bytes f l last :
  0 < bytes → missed fuel st (ALIGN bytes) last →
  myAlloc fuel st bytes f l =
  (g ← grow st last (ALIGN bytes);
   Some (match g with
         | (None, st1) => (NULL, st1)
         | (Some chunk, st1) =>
             (chunk + CHUNK_SIZE,
              set_mem (write chunk (set_origin f l) (mem st1)) st1)
         end)).
Proof.
  intros Hpos Hmiss. unfold myAlloc.
  destruct (Z.leb_spec bytes 0); [lia|].
  assert (Hreuse : reuse fuel st (ALIGN bytes) = Some (NULL, last, mem st)).
  { unfold reuse. destruct Hmiss as [[Hnull ->]|[Hhead Hfind]].
    - by rewrite decide_True.
    - rewrite decide_False by done. rewrite Hfind. done. }
  rewrite Hreuse. simpl.
  replace (set_mem (mem st) st) with st by (by destruct st).
  by destruct (grow st last (ALIGN bytes)) as [[[chunk|] st1]|].
Qed.

Lemma list_snoc_cases (l : list Z) : l = [] ∨ ∃ l' t, l = l' ++ [t].
Proof. induction l using rev_ind; [by left | right; eauto]. Qed.



(** ** Well-formed states are what runs produce *)

Lemma layout_hi (h : gmap Z heapChunk) l p lo hi hi' :
  hi <= hi' → layout h p lo hi l → layout h p lo hi' l.
Proof.
  intros Hhi. revert p lo. induction l as [|a l IH]; intros p lo; [done|].
  intros (-> & Hlo & c & Hc & Hm & Hsz & Hend & Hrest).
  split; [done|]. split; [done|]. exists c. repeat split; try done; [lia|].
  by apply IH.
Qed.

Lemma layout_lo (h : gmap Z heapChunk) l p lo lo' hi :
  lo' <= lo → layout h p lo hi l → layout h p lo' hi l.
Proof.
  intros Hlo. destruct l as [|a l]; [done|].
  intros (-> & Ha & Hrest). split; [done|]. split; [lia | done].
Qed.

Lemma layout_rebuild (h h' : gmap Z heapChunk) l1 c l2 l2' p lo hi :
  layout h p lo hi (l1 ++ c :: l2) →
  (∀ a, a ∈ l1 → h' !! a = h !! a) →
  (∀ lo', lo' <= c → layout h' c lo' hi (c :: l2')) →
  layout h' p lo hi (l1 ++ c :: l2').
Proof.
  revert p lo. induction l1 as [|a l1 IH]; intros p lo; simpl.
  - intros (-> & Hlo & _) _ Hc. by apply Hc.
  - intros (-> & Hlo & ca & Hca & Hm & Hsz & Hend & Hrest) Hagree Hc.
    split; [done|]. split; [done|]. exists ca.
    rewrite Hagree by left. repeat split; try done.
    apply IH; [done | | done]. intros b Hb. apply Hagree. by right.
Qed.

Lemma heapMergeChunks_layout_in fuel (h h' : gmap Z heapChunk) c l lo hi :
  0 < CHUNK_SIZE → 0 <= c → hi <= SIZE_MOD →
  layout h c lo hi (c :: l) → heapMergeChunks fuel h c = Some h' →
  (∀ a, a ≠ c → h' !! a = h !! a) ∧
  ∃ l', layout h' c lo hi (c :: l') ∧ ∀ x, x ∈ l' → x ∈ l.
Proof.
  intros HCS Hc0 Hhi. revert h l.
  induction fuel as [|fuel IH]; intros h l Hlay Hrun; [done|].
  pose proof Hlay as (_ & Hlo & cc & Hcc & Hm & Hsz & Hend & Hrest).
  destruct l as [|n l].
  { simpl in Hrest.
    rewrite (heapMergeChunks_stop _ _ _ cc) in Hrun by auto.
    injection Hrun as <-. split; [done|]. by exists []. }
  destruct Hrest as (Hn & Hnlo & cn & Hcn & Hmn & Hszn & Hendn & Hrest).
  destruct (isFree cn) eqn:Hfree.
  - rewrite (heapMergeChunks_absorb _ _ _ cc cn) in Hrun;
      [| done | unfold NULL; lia | lia | by rewrite Hn | done ].
    assert (H1 : add_sz CHUNK_SIZE (size cn) = CHUNK_SIZE + size cn).
    { apply wrap_small. unfold in_size_t. lia. }
    assert (H2 : add_sz (size cc) (CHUNK_SIZE + size cn)
                 = size cc + CHUNK_SIZE + size cn).
    { unfold add_sz. rewrite wrap_small; [lia|]. unfold in_size_t. lia. }
    rewrite H1, H2 in Hrun.
    set (c2 := set_next _ _) in Hrun. set (h2 := <[c := c2]> h) in Hrun.
    assert (Hlay2 : layout h2 c lo hi (c :: l)).
    { split; [done|]. split; [done|]. exists c2.
      split; [apply lookup_insert_eq|]. simpl.
      split; [done|]. split; [lia|]. split; [lia|].
      apply (layout_lo _ _ _ (n + CHUNK_SIZE + size cn)); [lia|].
      apply (layout_ext h); [|done].
      intros a Ha. unfold h2. apply lookup_insert_ne.
      destruct (layout_bounds _ _ _ _ _ _ HCS Hrest Ha). lia. }
    destruct (IH _ _ Hlay2 Hrun) as (Hframe & l' & Hl' & Hsub).
    split.
    2:{ exists l'. split; [done|]. intros x Hx. right. by apply Hsub. }
    intros a Ha. rewrite Hframe by done. unfold h2.
    by apply lookup_insert_ne.
  - rewrite (heapMergeChunks_stop _ _ _ cc) in Hrun;
      [| done | right; exists cn; by rewrite Hn].
    injection Hrun as <-. split; [done|]. by exists (n :: l).
Qed.

Lemma heapMergeChunks_layout fuel (h h' : gmap Z heapChunk) c l lo hi :
  0 < CHUNK_SIZE → 0 <= c → hi <= SIZE_MOD →
  layout h c lo hi (c :: l) → heapMergeChunks fuel h c = Some h' →
  (∀ a, a ≠ c → h' !! a = h !! a) ∧
  ∃ l', layout h' c lo hi (c :: l').
Proof.
  intros HCS Hc0 Hhi Hlay Hrun.
  destruct (heapMergeChunks_layout_in _ _ _ _ _ _ _ HCS Hc0 Hhi Hlay Hrun)
    as (Hframe & l' & Hl' & _).
  split; [done|]. by exists l'.
Qed.

Lemma heapMergeChunks_frame fuel (h h' : gmap Z heapChunk) chunk :
  heapMergeChunks fuel h chunk = Some h' →
  ∀ a, a ≠ chunk → h' !! a = h !! a.
Proof.
  revert h. induction fuel as [|fuel IH]; intros h Hrun a Ha; [done|].
  apply heapMergeChunks_cases in Hrun
    as [->|(c & n0 & m & n & Hc & Hn0 & Hn & Hrec)]; [done|].
  rewrite (IH _ Hrec) by done. by apply lookup_insert_ne.
Qed.

Lemma well_formed_heapFree_in fuel st ptr st' l :
  0 < CHUNK_SIZE → well_formed st l → heapFree fuel st ptr = Some st' →
  ∃ l', well_formed st' l' ∧ ∀ x, x ∈ l' → x ∈ l.
Proof.
  intros HCS (Hmin & Hcur & Hcm & Hmax & Hlay). unfold heapFree.
  destruct (decide (ptr = NULL)).
  { intros [= <-]. by exists l. }
  set (chunk := ptr - CHUNK_SIZE).
  destruct (mem st !! chunk) as [c|] eqn:Hc; [|done]. simpl.
  set (st1 := if decide (magic c = MAGIC_NUMBER) then st else _).
  assert (Hmem : mem st1 = mem st)
    by (unfold st1; by destruct (decide (magic c = MAGIC_NUMBER))).
  assert (Hhd : allChunks st1 = allChunks st)
    by (unfold st1; by destruct (decide (magic c = MAGIC_NUMBER))).
  assert (Hos : os st1 = os st)
    by (unfold st1; by destruct (decide (magic c = MAGIC_NUMBER))).
  rewrite Hmem. rewrite lookup_write_eq, Hc. simpl.
  rewrite (write_present _ _ _ c) by done.
  set (h1 := <[chunk := set_isFree true c]> (mem st)).
  intros Hrun.
  assert (Hres : ∃ h2, st' = set_mem h2 st1 ∧
                       (h2 = h1 ∨ heapMergeChunks fuel h1 chunk = Some h2)).
  { destruct (decide (next c = NULL)).
    - injection Hrun as <-. eauto.
    - destruct (heapMergeChunks fuel h1 chunk) as [h2|]; [|done].
      injection Hrun as <-. eauto. }
  destruct Hres as (h2 & -> & Hh2).
  unfold well_formed. simpl. rewrite Hhd, Hos.
  destruct (decide (chunk ∈ l)) as [Hin|Hout].
  - apply list_elem_of_split in Hin as (l1 & l2 & ->).
    destruct (layout_app _ _ _ _ _ _ _ HCS Hmin Hlay)
      as (Hseg & Hlt & Hclo & cc & Hcc & Hm & Hsz & Hend & Hrest).
    rewrite Hc in Hcc. injection Hcc as <-.
    assert (Hl2 : ∀ a, a ∈ l2 → a ≠ chunk).
    { intros a Ha.
      destruct (layout_bounds _ _ _ _ _ _ HCS Hrest Ha). lia. }
    assert (Hlay1 : ∀ lo', lo' <= chunk →
              layout h1 chunk lo' (brk_cur (os st)) (chunk :: l2)).
    { intros lo' Hlo'. split; [done|]. split; [done|].
      exists (set_isFree true c). split; [apply lookup_insert_eq|].
      simpl. repeat split; try done.
      apply (layout_ext (mem st)); [|done].
      intros a Ha. unfold h1. apply lookup_insert_ne.
      specialize (Hl2 _ Ha). done. }
    assert (Hframe1 : ∀ a, a ∈ l1 → h1 !! a = mem st !! a).
    { intros a Ha. unfold h1. apply lookup_insert_ne.
      specialize (Hlt _ Ha). lia. }
    destruct Hh2 as [->|Hmerge].
    + exists (l1 ++ chunk :: l2). split; [|done]. repeat split; try done.
      by apply (layout_rebuild (mem st) _ _ _ l2).
    + assert (Hc0 : 0 <= chunk) by lia.
      assert (Hhi : brk_cur (os st) <= SIZE_MOD) by lia.
      destruct (heapMergeChunks_layout_in _ _ _ _ _ chunk (brk_cur (os st))
                  HCS Hc0 Hhi (Hlay1 chunk (Z.le_refl _)) Hmerge)
        as (Hframe & l2' & Hl2' & Hsub).
      exists (l1 ++ chunk :: l2'). split.
      2:{ intros x Hx. apply elem_of_app in Hx as [Hx|Hx];
            apply elem_of_app; [by left|right].
          apply elem_of_cons in Hx as [->|Hx]; [left|right; auto]. }
      repeat split; try done.
      apply (layout_rebuild (mem st) _ _ _ l2); [done | |].
      * intros a Ha. rewrite Hframe; [by apply Hframe1|].
        specialize (Hlt _ Ha). lia.
      * intros lo' Hlo'. destruct Hl2' as (_ & _ & Hrest').
        split; [done|]. split; done.
  - exists l. split; [|done]. repeat split; try done.
    apply (layout_ext (mem st)); [|done].
    intros a Ha. assert (a ≠ chunk) by (by intros ->).
    destruct Hh2 as [->|Hmerge].
    + unfold h1. by apply lookup_insert_ne.
    + rewrite (heapMergeChunks_frame _ _ _ _ Hmerge) by done.
      unfold h1. by apply lookup_insert_ne.
Qed.

Lemma well_formed_heapFree fuel st ptr st' l :
  0 < CHUNK_SIZE → well_formed st l → heapFree fuel st ptr = Some st' →
  ∃ l', well_formed st' l'.
Proof.
  intros HCS Hwf Hrun.
  destruct (well_formed_heapFree_in _ _ _ _ _ HCS Hwf Hrun) as (l' & ? & _).
  by exists l'.
Qed.

Lemma findFreeChunk_loop_member fuel (h : gmap Z heapChunk) p last sz c last' l :
  findFreeChunk_loop fuel h p last sz = Some (c, last') →
  c ≠ NULL → chain h p l → c ∈ l.
Proof.
  revert p last l. induction fuel as [|fuel IH]; intros p last l; [done|].
  simpl. destruct (decide (p = NULL)) as [->|Hp].
  { intros [= <- _]. done. }
  destruct (h !! p) as [cp|] eqn:Hcp; [|done]. simpl.
  intros Hrun Hc Hch. destruct l as [|a l].
  { unfold chain in Hch. simpl in Hch. done. }
  destruct Hch as (-> & _ & ca & Hca & Hrest).
  rewrite Hcp in Hca. injection Hca as <-.
  destruct (fits cp sz).
  - injection Hrun as <- _. left.
  - right. by eapply IH.
Qed.

Lemma findFreeChunk_loop_tail fuel (h : gmap Z heapChunk) p last sz last' l :
  findFreeChunk_loop fuel h p last sz = Some (NULL, last') →
  chain h p l → last' = List.last l last.
Proof.
  revert p last l. induction fuel as [|fuel IH]; intros p last l; [done|].
  simpl. destruct (decide (p = NULL)) as [->|Hp].
  { intros [= <-] Hch. destruct l as [|a l]; [done|].
    by destruct Hch as (<- & ? & _). }
  destruct (h !! p) as [cp|] eqn:Hcp; [|done]. simpl.
  intros Hrun Hch. destruct l as [|a l].
  { unfold chain in Hch. simpl in Hch. done. }
  destruct Hch as (-> & _ & ca & Hca & Hrest).
  rewrite Hcp in Hca. injection Hca as <-.
  rewrite last_cons_default.
  destruct (fits cp sz).
  - by injection Hrun as ->.
  - by eapply IH.
Qed.

(** A call of [sbrk] after which a header fits between the address it
    returned and the break has moved the break up, by the increment. *)
Lemma sbrk_success_arena a inc chunk a' :
  0 < CHUNK_SIZE →
  sbrk a inc = (Some chunk, a') → chunk + CHUNK_SIZE <= brk_cur a' →
  chunk = brk_cur a ∧ brk_min a' = brk_min a ∧ brk_max a' = brk_max a ∧
  brk_cur a' = brk_cur a + to_intptr inc ∧
  brk_min a <= brk_cur a' <= brk_max a.
Proof.
  intros HCS. unfold sbrk.
  destruct (Z.ltb_spec 0 (to_intptr inc)).
  - destruct (Z.leb_spec (brk_min a) (brk_cur a + to_intptr inc)); [|done].
    destruct (Z.leb_spec (brk_cur a + to_intptr inc) (brk_max a)); [|done].
    simpl. intros [= <- <-]. simpl. repeat split; lia.
  - destruct (Z.eqb_spec (to_intptr inc) 0).
    { intros [= <- <-]. lia. }
    destruct (Z.ltb_spec (brk_cur a + to_intptr inc) 0); [done|].
    destruct (Z.ltb_spec (brk_cur a + to_intptr inc) (brk_min a));
      intros [= <- <-]; simpl; lia.
Qed.

Lemma fit_increment s :
  0 < CHUNK_SIZE → CHUNK_SIZE < SIZE_MOD → in_size_t s →
  CHUNK_SIZE <= to_intptr (add_sz s CHUNK_SIZE) →
  to_intptr (add_sz s CHUNK_SIZE) = s + CHUNK_SIZE.
Proof.
  intros HCS Hsmall Hs. unfold in_size_t in Hs.
  assert (Hhalf : 0 < 2 ^ 63 ∧ 2 ^ 63 + 2 ^ 63 = SIZE_MOD)
    by (split; reflexivity).
  unfold to_intptr, add_sz. rewrite !(wrap_small (wrap (s + CHUNK_SIZE)))
    by apply wrap_range.
  destruct (Z_lt_ge_dec (s + CHUNK_SIZE) SIZE_MOD) as [Hno|Hwrap].
  - rewrite !(wrap_small (s + CHUNK_SIZE)) by (unfold in_size_t; lia).
    destruct (Z.ltb_spec (s + CHUNK_SIZE) (2 ^ 63)); lia.
  - assert (Hw : wrap (s + CHUNK_SIZE) = s + CHUNK_SIZE - SIZE_MOD).
    { unfold wrap. symmetry.
      apply (Z.mod_unique (s + CHUNK_SIZE) SIZE_MOD 1); [left | ]; lia. }
    rewrite !Hw.
    destruct (Z.ltb_spec (s + CHUNK_SIZE - SIZE_MOD) (2 ^ 63)); lia.
Qed.

Lemma well_formed_reused_in st l chunk bytes c f ln :
  0 < CHUNK_SIZE → CHUNK_SIZE + ALIGNMENT < SIZE_MOD →
  well_formed st l → chunk ∈ l → mem st !! chunk = Some c →
  fits c (ALIGN bytes) = true →
  ∃ l', well_formed (set_mem (reused (mem st) chunk (ALIGN bytes) c f ln) st)
          l' ∧
        ∀ x, x ∈ l → x ∈ l'.
Proof.
  intros HCS Hsmall (Hmin & Hcur & Hcm & Hmax & Hlay) Hin Hc Hfit.
  apply list_elem_of_split in Hin as (l1 & l2 & ->).
  destruct (layout_app _ _ _ _ _ _ _ HCS Hmin Hlay)
    as (Hseg & Hlt & Hclo & cc & Hcc & Hm & Hsz & Hend & Hrest).
  rewrite Hc in Hcc. injection Hcc as <-.
  pose proof (ALIGN_range bytes) as Hs. set (s := ALIGN bytes) in *.
  unfold fits in Hfit. apply andb_prop in Hfit as [_ Hle].
  apply Z.leb_le in Hle.
  assert (Hl2 : ∀ a, a ∈ l2 → chunk + CHUNK_SIZE + size c <= a).
  { intros a Ha. by destruct (layout_bounds _ _ _ _ _ _ HCS Hrest Ha). }
  assert (Hthr : add_sz CHUNK_SIZE ALIGNMENT = CHUNK_SIZE + ALIGNMENT).
  { apply wrap_small. unfold in_size_t, ALIGNMENT in *. lia. }
  assert (Hexc : sub_sz (size c) s = size c - s).
  { apply wrap_small. unfold in_size_t in *. lia. }
  unfold well_formed, reused, remainder. simpl.
  rewrite Hthr, Hexc. unfold ALIGNMENT in *.
  destruct (Z.leb_spec (CHUNK_SIZE + 8) (size c - s)) as [Hsplit|Hno].
  - assert (Hrem : sub_sz (size c - s) CHUNK_SIZE = size c - s - CHUNK_SIZE).
    { apply wrap_small. unfold in_size_t in *. lia. }
    rewrite Hrem.
    set (nc := chunk + s + CHUNK_SIZE).
    set (r := mkChunk MAGIC_NUMBER (size c - s - CHUNK_SIZE) true (next c)
                _ _).
    set (ca := mkChunk (magic c) s false nc f ln).
    exists (l1 ++ chunk :: nc :: l2). split.
    2:{ intros x Hx. apply elem_of_app in Hx as [Hx|Hx];
          apply elem_of_app; [by left|right].
        apply elem_of_cons in Hx as [->|Hx]; [left|do 2 right]; done. }
    repeat split; try done.
    apply (layout_rebuild (mem st) _ _ _ l2); [done | |].
    + intros a Ha. specialize (Hlt _ Ha).
      rewrite !lookup_insert_ne;
        [done | unfold nc, in_size_t in *; lia | lia].
    + intros lo' Hlo'. split; [done|]. split; [done|]. exists ca.
      split; [apply lookup_insert_eq|]. simpl.
      split; [done|]. split; [unfold in_size_t in *; lia|].
      split; [lia|]. split; [done|].
      split; [unfold nc; lia|]. exists r. split.
      { rewrite lookup_insert_ne by (unfold nc, in_size_t in *; lia).
        apply lookup_insert_eq. }
      simpl. split; [done|]. split; [lia|]. split; [unfold nc; lia|].
      apply (layout_lo _ _ _ (chunk + CHUNK_SIZE + size c));
        [unfold nc; lia|].
      apply (layout_ext (mem st)); [|done].
      intros a Ha. specialize (Hl2 _ Ha).
      rewrite !lookup_insert_ne;
        [done | unfold nc, in_size_t in *; lia | lia].
  - exists (l1 ++ chunk :: l2). split; [|done]. repeat split; try done.
    apply (layout_rebuild (mem st) _ _ _ l2); [done | |].
    + intros a Ha. specialize (Hlt _ Ha).
      rewrite lookup_insert_ne; [done | lia].
    + intros lo' Hlo'. split; [done|]. split; [done|].
      exists (set_origin f ln (set_isFree false c)).
      split; [apply lookup_insert_eq|]. simpl. repeat split; try done.
      apply (layout_ext (mem st)); [|done].
      intros a Ha. specialize (Hl2 _ Ha).
      rewrite lookup_insert_ne; [done | lia].
Qed.

Lemma well_formed_reused st l chunk bytes c f ln :
  0 < CHUNK_SIZE → CHUNK_SIZE + ALIGNMENT < SIZE_MOD →
  well_formed st l → chunk ∈ l → mem st !! chunk = Some c →
  fits c (ALIGN bytes) = true →
  ∃ l', well_formed (set_mem (reused (mem st) chunk (ALIGN bytes) c f ln) st)
          l'.
Proof.
  intros HCS Hsmall Hwf Hin Hc Hfit.
  destruct (well_formed_reused_in st l chunk bytes c f ln
              HCS Hsmall Hwf Hin Hc Hfit) as (l' & Hwf' & _).
  by exists l'.
Qed.

Lemma half_SIZE_MOD : 0 < 2 ^ 63 ∧ 2 ^ 63 + 2 ^ 63 = SIZE_MOD.
Proof. split; reflexivity. Qed.

Lemma well_formed_grown_in st l bytes f ln last b a' :
  0 < CHUNK_SIZE → CHUNK_SIZE < SIZE_MOD →
  well_formed st l →
  (allChunks st = NULL ∧ last = NULL ∨
   allChunks st ≠ NULL ∧ last = List.last l (allChunks st)) →
  sbrk (os st) (add_sz (ALIGN bytes) CHUNK_SIZE) = (Some b, a') →
  b + CHUNK_SIZE <= brk_cur a' →
  let st1 :=
    mkState (if decide (last = NULL) then b else allChunks st)
      (if decide (last = NULL)
       then <[b := fresh_chunk (mem st) b (ALIGN bytes)]> (mem st)
       else write last (set_next b)
              (<[b := fresh_chunk (mem st) b (ALIGN bytes)]> (mem st)))
      (incr_sbrkCalls (mem_stats st)) a' (diag st) in
  well_formed (set_mem (write b (set_origin f ln) (mem st1)) st1) (l ++ [b]).
Proof.
  intros HCS Hsmall (Hmin & Hcur & Hcm & Hmax & Hlay) Hlast Hsbrk Hfit.
  cbv zeta.
  pose proof half_SIZE_MOD as [Hhalf0 Hhalf].
  pose proof (ALIGN_range bytes) as Hs1. unfold in_size_t in Hs1.
  set (s := ALIGN bytes) in *.
  destruct (sbrk_success_arena _ _ _ _ HCS Hsbrk Hfit)
    as (-> & Hmin' & Hmax' & Hcur' & Hrange).
  assert (Hinc : to_intptr (add_sz s CHUNK_SIZE) = s + CHUNK_SIZE).
  { apply fit_increment; try done. lia. }
  rewrite Hinc in Hcur'. rewrite Hcur' in Hrange.
  set (b := brk_cur (os st)) in *.
  set (hi' := b + (s + CHUNK_SIZE)) in *.
  assert (Hlt : ∀ a, a ∈ l → 0 < a < b).
  { intros a Ha.
    destruct (layout_bounds _ _ _ _ _ _ HCS Hlay Ha) as (? & c & _ & _ & ? & ?).
    unfold b. lia. }
  set (fr := fresh_chunk (mem st) b s).
  set (cb := set_origin f ln fr).
  pose proof (layout_chain _ _ _ _ _ HCS Hmin Hlay) as Hch.
  assert (Hb : ∀ (h : gmap Z heapChunk) lo', lo' <= b →
            layout (<[b := cb]> h) b lo' hi' [b]).
  { intros h lo' Hlo'. split; [done|]. split; [done|]. exists cb.
    split; [apply lookup_insert_eq|]. simpl.
    repeat split; try done; unfold hi'; lia. }
  destruct Hlast as [[Hnull ->]|[Hhead ->]].
  - (* the chain was empty *)
    assert (l = []) as ->.
    { destruct l as [|a l]; [done|]. destruct Hlay as (Ha & ? & _).
      unfold NULL in *. lia. }
    rewrite !decide_True by done. simpl mem.
    assert (Hmem : write b (set_origin f ln) (<[b := fr]> (mem st))
                   = <[b := cb]> (mem st)).
    { unfold write. rewrite lookup_insert_eq. simpl.
      by rewrite insert_insert_eq. }
    unfold well_formed. simpl mem. simpl os. simpl allChunks.
    rewrite Hmem, Hmin', Hmax', Hcur'. simpl app.
    split; [lia|]. split; [lia|]. split; [lia|]. split; [lia|].
    apply Hb. lia.
  - (* the chain had a last chunk *)
    destruct (list_snoc_cases l) as [->|(l0 & t & ->)].
    { unfold chain in Hch. simpl in Hch. done. }
    rewrite last_last.
    assert (Ht : 0 < t < b) by (apply Hlt, elem_of_app; right; left).
    rewrite !decide_False by (unfold NULL; lia).
    destruct (layout_app _ _ _ _ _ _ _ HCS Hmin Hlay)
      as (_ & Hlt0 & _ & ct & Hct & Hmt & Hszt & Hendt & _).
    simpl mem.
    assert (Hmem : write b (set_origin f ln)
                     (write t (set_next b) (<[b := fr]> (mem st)))
                   = <[b := cb]> (<[t := set_next b ct]> (mem st))).
    { unfold write.
      rewrite (lookup_insert_ne _ b t) by lia. rewrite Hct. simpl.
      rewrite lookup_insert_ne, lookup_insert_eq by lia. simpl.
      rewrite (insert_insert_ne _ t b) by lia.
      by rewrite insert_insert_eq. }
    rewrite <- app_assoc. simpl app.
    unfold well_formed. simpl mem. simpl os.
    simpl allChunks. rewrite Hmem, Hmin', Hmax', Hcur'.
    split; [lia|]. split; [lia|]. split; [lia|]. split; [lia|].
    apply (layout_rebuild (mem st) _ _ _ []).
    + apply (layout_hi _ _ _ _ b); [unfold hi'; lia | done].
    + intros a Ha. specialize (Hlt0 _ Ha).
      rewrite !lookup_insert_ne; [done | lia | lia].
    + intros lo' Hlo'. split; [done|]. split; [done|].
      exists (set_next b ct). split.
      { rewrite lookup_insert_ne by lia. apply lookup_insert_eq. }
      simpl. split; [done|]. split; [done|].
      split; [unfold hi'; lia|]. apply Hb. unfold b. lia.
Qed.

Lemma well_formed_grown st l bytes f ln last b a' :
  0 < CHUNK_SIZE → CHUNK_SIZE < SIZE_MOD →
  well_formed st l →
  (allChunks st = NULL ∧ last = NULL ∨
   allChunks st ≠ NULL ∧ last = List.last l (allChunks st)) →
  sbrk (os st) (add_sz (ALIGN bytes) CHUNK_SIZE) = (Some b, a') →
  b + CHUNK_SIZE <= brk_cur a' →
  let st1 :=
    mkState (if decide (last = NULL) then b else allChunks st)
      (if decide (last = NULL)
       then <[b := fresh_chunk (mem st) b (ALIGN bytes)]> (mem st)
       else write last (set_next b)
              (<[b := fresh_chunk (mem st) b (ALIGN bytes)]> (mem st)))
      (incr_sbrkCalls (mem_stats st)) a' (diag st) in
  ∃ l', well_formed
          (set_mem (write b (set_origin f ln) (mem st1)) st1) l'.
Proof.
  intros HCS Hsmall Hwf Hlast Hsbrk Hfit. cbv zeta. exists (l ++ [b]).
  by apply (well_formed_grown_in st l bytes f ln last b a').
Qed.

Lemma well_formed_myAlloc fuel st bytes f ln p st' l :
  0 < CHUNK_SIZE → CHUNK_SIZE + ALIGNMENT < SIZE_MOD →
  well_formed st l → myAlloc fuel st bytes f ln = Some (p, st') →
  ∃ l', well_formed st' l'.
Proof.
  intros HCS Hsmall Hwf Hrun.
  pose proof Hwf as (Hmin & Hcur & Hcm & Hmax & Hlay).
  pose proof (layout_chain _ _ _ _ _ HCS Hmin Hlay) as Hch.
  pose proof half_SIZE_MOD as [Hhalf0 Hhalf].
  apply (myAlloc_cases _ _ _ _ _ _ _ HCS) in Hrun
    as [(_ & _ & ->)
       |[(Hpos & chunk & last & c & Hhead & Hfind & Hnz & Hc & _ & ->)
        |(Hpos & last & Hmiss &
          [(_ & _ & ->)|(chunk & st1 & Hs & Hg & _ & ->)])]].
  - by exists l.
  - apply (well_formed_reused _ l); try done.
    + by eapply findFreeChunk_loop_member.
    + by eapply findFreeChunk_loop_fits.
  - by exists l.
  - destruct (sbrk (os st) _) as [r a'] eqn:Hsbrk. simpl in Hs. subst r.
    apply (grow_inv _ _ _ _ _ _ _ Hsbrk) in Hg as (Hfit & _ & ->).
    apply (well_formed_grown st l bytes f ln last chunk a'); try done.
    + unfold ALIGNMENT in *. lia.
    + destruct Hmiss as [?|[Hhead Hfind]]; [by left|]. right.
      split; [done|]. by eapply findFreeChunk_loop_tail.
Qed.

Lemma well_formed_step st c st' l :
  0 < CHUNK_SIZE → CHUNK_SIZE + ALIGNMENT < SIZE_MOD →
  well_formed st l → step st c st' →
  ∃ l', well_formed st' l'.
Proof.
  intros HCS Hsmall Hwf Hstep.
  destruct Hstep as [fuel st bytes f ln p st' _ Hrun|fuel st ptr st' Hrun].
  - unfold allocWithStats in Hrun.
    by apply (well_formed_myAlloc _ _ _ _ _ _ _ l HCS Hsmall) in Hrun.
  - by eapply well_formed_heapFree.
Qed.

(** Every run from a fresh allocator ends in a well-formed state. *)
Lemma well_formed_runs a calls st :
  0 < CHUNK_SIZE → CHUNK_SIZE + ALIGNMENT < SIZE_MOD →
  0 < brk_min a → brk_min a <= brk_cur a → brk_cur a <= brk_max a →
  brk_max a <= SIZE_MOD →
  runs (init_state a) calls st →
  ∃ l, well_formed st l.
Proof.
  intros HCS Hsmall Hmin Hcur Hcm Hmax Hruns.
  assert (Hinit : ∃ l, well_formed (init_state a) l)
    by (exists []; by repeat split).
  induction Hruns as [|s0 c s1 calls s2 Hstep _ IH]; [done|].
  destruct Hinit as [l Hwf]. apply IH.
  by eapply well_formed_step.
Qed.

(** * Beyond the claims: the rest of the interface *)

(** ** [extractFilename] *)

Lemma has_separator_cons c s :
  has_separator (String c s) ↔ is_separator c = true ∨ has_separator s.
Proof.
  unfold has_separator. simpl. split.
  - intros (x & [<-|Hin] & Hx); [by left | right; by exists x].
  - intros [Hc|(x & Hin & Hx)]; [exists c | exists x]; auto.
Qed.

Lemma has_separator_empty : ¬ has_separator EmptyString.
Proof. by intros (x & [] & _). Qed.

Lemma extractFilename_loop_plain name f :
  ¬ has_separator name → extractFilename_loop name f = f.
Proof.
  induction name as [|c name IH]; intros Hno; simpl; [done|].
  destruct (is_separator c) eqn:Hc.
  - exfalso. apply Hno, has_separator_cons. by left.
  - apply IH. intros H. apply Hno, has_separator_cons. by right.
Qed.

Lemma extractFilename_loop_last dir sep name f :
  is_separator sep = true → ¬ has_separator name →
  extractFilename_loop (dir ++ String sep name)%string f = name.
Proof.
  intros Hsep Hno. revert f.
  induction dir as [|c dir IH]; intros f; simpl.
  - rewrite Hsep. by apply extractFilename_loop_plain.
  - destruct (is_separator c); apply IH.
Qed.

(** Every path is free of separators or splits at its last one. *)
Lemma last_separator path :
  ¬ has_separator path ∨
  ∃ dir sep name,
    path = (dir ++ String sep name)%string ∧
    is_separator sep = true ∧ ¬ has_separator name.
Proof.
  induction path as [|c path IH]; [left; apply has_separator_empty|].
  destruct IH as [Hno|(dir & sep & name & -> & Hsep & Hname)].
  - destruct (is_separator c) eqn:Hc.
    + right. by exists EmptyString, c, path.
    + left. intros [H|H]%has_separator_cons; congruence.
  - right. by exists (String c dir), sep, name.
Qed.

Lemma extractFilename_no_separator path :
  ¬ has_separator (extractFilename path).
Proof.
  unfold extractFilename.
  destruct (last_separator path) as [Hno|(dir & sep & name & -> & Hsep & Hno)].
  - by rewrite extractFilename_loop_plain.
  - by rewrite extractFilename_loop_last.
Qed.

(** X1: [extractFilename] returns what follows the last [/] or [\] of the
    path; a path that holds neither is returned whole. *)
Theorem extractFilename_strips_directories dir sep name :
  is_separator sep = true → ¬ has_separator name →
  extractFilename (dir ++ String sep name)%string = name ∧
  extractFilename name = name.
Proof.
  intros Hsep Hno. split.
  - by apply extractFilename_loop_last.
  - by apply extractFilename_loop_plain.
Qed.

(** ** The leak audit and the chunk dump *)

Lemma add_unfreedChunks_0 s : add_unfreedChunks 0 s = s.
Proof. destruct s. unfold add_unfreedChunks. simpl. f_equal. lia. Qed.

Lemma checkForUnfreedChunks_loop_chain fuel (h : gmap Z heapChunk) p l s out :
  chain h p l → (length l < fuel)%nat →
  checkForUnfreedChunks_loop fuel h p s out =
  Some (add_unfreedChunks (Z.of_nat (length (leaks_of h l))) s,
        out ++ leaks_of h l).
Proof.
  revert p s out fuel.
  induction l as [|a l IH]; intros p s out fuel Hch Hfuel;
    (destruct fuel as [|fuel]; [simpl in Hfuel; lia|]).
  - unfold chain in Hch. simpl in Hch. subst p. simpl.
    by rewrite add_unfreedChunks_0, app_nil_r.
  - destruct Hch as (-> & Hanz & c & Hc & Hrest).
    simpl checkForUnfreedChunks_loop. rewrite decide_False by done.
    simpl leaks_of. rewrite Hc. simpl.
    destruct (isFree c).
    + apply IH; [done | simpl in Hfuel; lia].
    + rewrite (IH (next c)) by (done || simpl in Hfuel; lia).
      rewrite <- app_assoc. simpl. f_equal. f_equal.
      destruct s. unfold add_unfreedChunks, incr_unfreedChunks. simpl.
      f_equal. lia.
Qed.

Lemma leaks_of_spec (h : gmap Z heapChunk) l x :
  x ∈ leaks_of h l ↔
  ∃ a c, a ∈ l ∧ h !! a = Some c ∧ isFree c = false ∧
         x = mkLeak a (file c) (line c).
Proof.
  induction l as [|b l IH]; simpl.
  - split; [by intros ?%elem_of_nil|].
    by intros (a & c & ?%elem_of_nil & _).
  - destruct (h !! b) as [cb|] eqn:Hb; [destruct (isFree cb) eqn:Hfree|].
    + rewrite IH. split.
      * intros (a & c & Ha & H). exists a, c. split; [by right | done].
      * intros (a & c & [->|Ha]%elem_of_cons & Hc & Hocc & ->).
        -- congruence.
        -- by exists a, c.
    + rewrite elem_of_cons, IH. split.
      * intros [->|(a & c & Ha & H)].
        -- exists b, cb. split; [left | done].
        -- exists a, c. split; [by right | done].
      * intros (a & c & [->|Ha]%elem_of_cons & Hc & Hocc & ->).
        -- left. congruence.
        -- right. by exists a, c.
    + rewrite IH. split.
      * intros (a & c & Ha & H). exists a, c. split; [by right | done].
      * intros (a & c & [->|Ha]%elem_of_cons & Hc & Hocc & ->).
        -- congruence.
        -- by exists a, c.
Qed.



Lemma printAll_loop_chain fuel (h : gmap Z heapChunk) p l out :
  chain h p l → (length l < fuel)%nat →
  printAll_loop fuel h p out = Some (out ++ dumps_of h l).
Proof.
  revert p out fuel.
  induction l as [|a l IH]; intros p out fuel Hch Hfuel;
    (destruct fuel as [|fuel]; [simpl in Hfuel; lia|]).
  - unfold chain in Hch. simpl in Hch. subst p. simpl.
    by rewrite app_nil_r.
  - destruct Hch as (-> & Hanz & c & Hc & Hrest).
    simpl printAll_loop. rewrite decide_False by done.
    simpl dumps_of. rewrite Hc. simpl.
    rewrite (IH (next c)) by (done || simpl in Hfuel; lia).
    by rewrite <- app_assoc.
Qed.

Lemma dumps_of_chain (h : gmap Z heapChunk) p l :
  chain h p l →
  dump_chunk <$> dumps_of h l = l ∧
  dump_leaks (dumps_of h l) = leaks_of h l ∧
  ∀ e, e ∈ dumps_of h l →
       ∃ c, h !! dump_chunk e = Some c ∧
            e = mkDump (dump_chunk e) (size c) (line c) (file c) (isFree c).
Proof.
  revert p. induction l as [|a l IH]; intros p Hch; simpl.
  - split; [done|]. split; [done|]. by intros e ?%elem_of_nil.
  - destruct Hch as (-> & Hanz & c & Hc & Hrest). rewrite Hc.
    destruct (IH _ Hrest) as (H1 & H2 & H3). split; [|split].
    + rewrite fmap_cons, H1. done.
    + unfold dump_leaks in *. rewrite filter_cons. simpl dump_free.
      destruct (isFree c) eqn:Hfree.
      * rewrite decide_False by done. done.
      * rewrite decide_True by done. rewrite fmap_cons, H2. done.
    + intros e [->|He]%elem_of_cons.
      * exists c. done.
      * by apply H3.
Qed.

(** ** Counters and the program break along runs *)

Lemma myAlloc_quiet fuel st bytes f l p st' :
  myAlloc fuel st bytes f l = Some (p, st') →
  corruptedChunks (mem_stats st') = corruptedChunks (mem_stats st) ∧
  unfreedChunks (mem_stats st') = unfreedChunks (mem_stats st) ∧
  diag st' = diag st.
Proof.
  unfold myAlloc. destruct (bytes <=? 0); [by intros [= <- <-]|].
  destruct (reuse fuel st (ALIGN bytes)) as [[[chunk last] h1]|]; [|done].
  simpl. destruct (decide (chunk = NULL)).
  - unfold grow, sbrkWithStats. simpl.
    destruct (sbrk (os st) _) as [[r|] a]; simpl.
    + destruct (_ <=? _); [|done].
      destruct (decide (last = NULL)); by intros [= <- <-].
    + by intros [= <- <-].
  - by intros [= <- <-].
Qed.

Lemma heapFree_quiet fuel st ptr st' :
  stamped (mem st) → heapFree fuel st ptr = Some st' →
  mem_stats st' = mem_stats st ∧ diag st' = diag st.
Proof.
  intros Hst. unfold heapFree.
  destruct (decide (ptr = NULL)); [by intros [= <-]|].
  destruct (mem st !! (ptr - CHUNK_SIZE)) as [c|] eqn:Hc; [|done]. simpl.
  rewrite decide_True by (by eapply Hst).
  rewrite lookup_write_eq, Hc. simpl.
  destruct (decide (next c = NULL)); simpl; [by intros [= <-]|].
  destruct (heapMergeChunks _ _ _) as [h2|]; [|done].
  simpl. by intros [= <-].
Qed.

Lemma heapFree_os fuel st ptr st' :
  heapFree fuel st ptr = Some st' → os st' = os st.
Proof.
  unfold heapFree. destruct (decide (ptr = NULL)); [by intros [= <-]|].
  destruct (mem st !! (ptr - CHUNK_SIZE)) as [c|]; [|done]. simpl.
  destruct (_ !! _) as [c1|]; [|done]. simpl.
  destruct (if decide (next c1 = NULL) then _ else _) as [h2|]; [|done].
  simpl. intros [= <-]. simpl.
  by destruct (decide (magic c = MAGIC_NUMBER)).
Qed.

Lemma closed_runs st calls st' :
  0 < CHUNK_SIZE → closed st → runs st calls st' → closed st'.
Proof.
  intros HCS Hcl Hruns.
  induction Hruns as [|s0 c s1 calls s2 Hstep _ IH]; [done|].
  apply IH. by eapply closed_step.
Qed.

Lemma closed_init a : closed (init_state a).
Proof. split; [intros ?? [=]|]. split; [intros ?? [=] | by left]. Qed.

Lemma modest_increment bytes :
  0 < CHUNK_SIZE → 0 < bytes → bytes + ALIGNMENT + CHUNK_SIZE <= 2 ^ 63 →
  to_intptr (add_sz (ALIGN bytes) CHUNK_SIZE) = ALIGN bytes + CHUNK_SIZE ∧
  bytes <= ALIGN bytes < bytes + 8.
Proof.
  intros HCS Hpos Hmodest. unfold ALIGNMENT in *.
  pose proof half_SIZE_MOD as [Hhalf0 Hhalf].
  assert (Hb0 : 0 <= bytes <= SIZE_MOD - 8) by lia.
  destruct (ALIGN_round_up bytes Hb0) as [Hs1 Hs2]. split; [|done].
  unfold add_sz, to_intptr.
  rewrite !(wrap_small (ALIGN bytes + CHUNK_SIZE)) by (unfold in_size_t; lia).
  destruct (Z.ltb_spec (ALIGN bytes + CHUNK_SIZE) (2 ^ 63)); lia.
Qed.

Lemma myAlloc_os fuel st bytes f l p st' :
  0 < CHUNK_SIZE → bytes + ALIGNMENT + CHUNK_SIZE <= 2 ^ 63 →
  myAlloc fuel st bytes f l = Some (p, st') →
  brk_min (os st') = brk_min (os st) ∧ brk_max (os st') = brk_max (os st) ∧
  brk_cur (os st) <= brk_cur (os st') ∧
  (brk_cur (os st) <= brk_max (os st) →
   brk_cur (os st') <= brk_max (os st)).
Proof.
  intros HCS Hmodest Hrun.
  apply (myAlloc_cases _ _ _ _ _ _ _ HCS) in Hrun
    as [(_ & _ & ->)
       |[(_ & chunk & last & c & _ & _ & _ & _ & _ & ->)
        |(Hpos & last & _ &
          [(_ & _ & ->)|(chunk & st1 & Hs & Hg & _ & ->)])]];
    [repeat split; lia | simpl; repeat split; lia
    | simpl; repeat split; lia | ].
  destruct (sbrk (os st) _) as [r a'] eqn:Hsbrk. simpl in Hs. subst r.
  apply (grow_inv _ _ _ _ _ _ _ Hsbrk) in Hg as (Hfit & _ & ->).
  simpl.
  destruct (sbrk_success_arena _ _ _ _ HCS Hsbrk Hfit)
    as (_ & Hmin & Hmax & Hcur & Hrange).
  destruct (modest_increment bytes HCS Hpos Hmodest) as [Hinc Hal].
  rewrite Hinc in Hcur. repeat split; lia.
Qed.

Lemma step_os st c st' :
  0 < CHUNK_SIZE → modest c → step st c st' →
  brk_min (os st') = brk_min (os st) ∧ brk_max (os st') = brk_max (os st) ∧
  brk_cur (os st) <= brk_cur (os st') ∧
  (brk_cur (os st) <= brk_max (os st) →
   brk_cur (os st') <= brk_max (os st)).
Proof.
  intros HCS Hmodest Hstep.
  destruct Hstep as [fuel st bytes f l p st' _ Hrun|fuel st ptr st' Hrun].
  - unfold allocWithStats in Hrun.
    by apply (myAlloc_os _ _ _ _ _ _ _ HCS Hmodest) in Hrun.
  - apply heapFree_os in Hrun as ->. repeat split; lia.
Qed.

(** X7: the arena only ever grows.  Along a run of modest requests the
    two bounds of the program break stay as they were, the break never
    moves down and never passes its upper bound; and no release, of any
    pointer, moves the break at all. *)
Theorem arena_never_shrinks st calls st' :
  0 < CHUNK_SIZE → Forall modest calls → runs st calls st' →
  (brk_min (os st') = brk_min (os st) ∧ brk_max (os st') = brk_max (os st) ∧
   brk_cur (os st) <= brk_cur (os st') ∧
   (brk_cur (os st) <= brk_max (os st) →
    brk_cur (os st') <= brk_max (os st))) ∧
  (∀ fuel s ptr s', heapFree fuel s ptr = Some s' → os s' = os s).
Proof.
  intros HCS Hmodest Hruns. split; [|apply heapFree_os].
  induction Hruns as [|s0 c s1 calls s2 Hstep _ IH]; [repeat split; lia|].
  apply Forall_cons in Hmodest as [Hc Hmodest].
  destruct (step_os _ _ _ HCS Hc Hstep) as (H1 & H2 & H3 & H4).
  destruct (IH Hmodest) as (H5 & H6 & H7 & H8).
  repeat split; lia.
Qed.

(** ** What a successful allocation hands out *)

Lemma grown_lookup (h : gmap Z heapChunk) chunk last fr f ln :
  ∃ c,
    write chunk (set_origin f ln)
      (if decide (last = NULL) then <[chunk := fr]> h
       else write last (set_next chunk) (<[chunk := fr]> h)) !! chunk
    = Some c ∧
    size c = size fr ∧ isFree c = isFree fr ∧ magic c = magic fr ∧
    file c = f ∧ line c = ln.
Proof.
  rewrite lookup_write_eq. eexists. split; [done|].
  destruct (decide (last = NULL)).
  - by rewrite lookup_insert_eq.
  - destruct (decide (last = chunk)) as [->|Hne].
    + by rewrite lookup_write_eq, lookup_insert_eq.
    + by rewrite lookup_write_ne, lookup_insert_eq.
Qed.

Lemma myAlloc_block fuel st bytes f ln p st' :
  0 < CHUNK_SIZE → bytes <= SIZE_MOD - 8 →
  myAlloc fuel st bytes f ln = Some (p, st') → p ≠ NULL →
  0 < bytes ∧
  ∃ c, mem st' !! (p - CHUNK_SIZE) = Some c ∧ isFree c = false ∧
       bytes <= ALIGN bytes ∧ ALIGN bytes <= size c ∧
       file c = f ∧ line c = ln.
Proof.
  intros HCS Hmax Hrun Hp.
  apply (myAlloc_cases _ _ _ _ _ _ _ HCS) in Hrun
    as [(_ & -> & _)
       |[(Hpos & chunk & last & c & _ & Hfind & Hnz & Hc & -> & ->)
        |(Hpos & last & _ &
          [(_ & -> & _)|(chunk & st1 & Hs & Hg & -> & ->)])]];
    [done | | done | ]; (split; [done|]);
    destruct (ALIGN_round_up bytes ltac:(lia)) as [Hal _];
    replace (chunk + CHUNK_SIZE - CHUNK_SIZE) with chunk by lia.
  - pose proof (findFreeChunk_loop_fits _ _ _ _ _ _ _ _ Hfind Hnz Hc) as Hfit.
    unfold fits in Hfit. apply andb_prop in Hfit as [_ Hle].
    apply Z.leb_le in Hle. simpl. unfold reused.
    destruct (_ <=? _); rewrite lookup_insert_eq; eexists; (split; [done|]);
      simpl; repeat split; (done || lia).
  - destruct (sbrk (os st) _) as [r a'] eqn:Hsbrk. simpl in Hs. subst r.
    apply (grow_inv _ _ _ _ _ _ _ Hsbrk) in Hg as (Hfit & _ & ->).
    simpl mem.
    destruct (grown_lookup (mem st) chunk last
                (fresh_chunk (mem st) chunk (ALIGN bytes)) f ln)
      as (c & -> & Hsz & Hfr & _ & Hf & Hl).
    exists c. simpl in Hsz, Hfr. repeat split; (done || lia).
Qed.

(** X8: a non-null pointer returned by [heapAlloc] for a request of at
    most 2^64 - 8 bytes has, one header below it, a chunk that is marked
    occupied, holds at least the aligned request (itself at least the
    bytes asked for), and is labelled with the line of the call and with
    the file name of the call stripped of its directories. *)
Theorem heapAlloc_returns_fitting_block fuel st path ln bytes p st' :
  0 < CHUNK_SIZE → bytes <= SIZE_MOD - 8 →
  heapAlloc fuel st path ln bytes = Some (p, st') → p ≠ NULL →
  ∃ c, mem st' !! (p - CHUNK_SIZE) = Some c ∧ isFree c = false ∧
       bytes <= ALIGN bytes ∧ ALIGN bytes <= size c ∧
       line c = ln ∧ file c = extractFilename path ∧
       ¬ has_separator (file c).
Proof.
  intros HCS Hmax Hrun Hp. unfold heapAlloc, allocWithStats in Hrun.
  destruct (myAlloc_block _ _ _ _ _ _ _ HCS Hmax Hrun Hp)
    as (_ & c & Hc & Hocc & H1 & H2 & Hf & Hl).
  exists c. repeat split; try done.
  rewrite Hf. apply extractFilename_no_separator.
Qed.

Lemma myAlloc_inside_arena fuel st l bytes f ln p st' :
  0 < CHUNK_SIZE → bytes + ALIGNMENT + CHUNK_SIZE <= 2 ^ 63 →
  well_formed st l →
  myAlloc fuel st bytes f ln = Some (p, st') → p ≠ NULL →
  ∃ c, mem st' !! (p - CHUNK_SIZE) = Some c ∧
       brk_min (os st') <= p - CHUNK_SIZE ∧
       0 <= size c ∧ p + size c <= brk_cur (os st').
Proof.
  intros HCS Hmodest (Hmin & Hcur & Hcm & Hmax & Hlay) Hrun Hp.
  pose proof (layout_chain _ _ _ _ _ HCS Hmin Hlay) as Hch.
  pose proof half_SIZE_MOD as [Hhalf0 Hhalf]. unfold ALIGNMENT in *.
  apply (myAlloc_cases _ _ _ _ _ _ _ HCS) in Hrun
    as [(_ & -> & _)
       |[(Hpos & chunk & last & c & _ & Hfind & Hnz & Hc & -> & ->)
        |(Hpos & last & _ &
          [(_ & -> & _)|(chunk & st1 & Hs & Hg & -> & ->)])]];
    [done | | done | ];
    replace (chunk + CHUNK_SIZE - CHUNK_SIZE) with chunk by lia.
  - pose proof (findFreeChunk_loop_fits _ _ _ _ _ _ _ _ Hfind Hnz Hc) as Hfit.
    unfold fits in Hfit. apply andb_prop in Hfit as [_ Hle].
    apply Z.leb_le in Hle.
    pose proof (findFreeChunk_loop_member _ _ _ _ _ _ _ l Hfind Hnz Hch)
      as Hin.
    destruct (layout_bounds _ _ _ _ _ _ HCS Hlay Hin)
      as (Hlo & c' & Hc' & _ & Hsz & Hend).
    simpl in Hc, Hc'. rewrite Hc in Hc'. injection Hc' as <-.
    pose proof (ALIGN_range bytes) as Hs.
    simpl. unfold reused.
    destruct (_ <=? _); rewrite lookup_insert_eq; eexists; (split; [done|]);
      simpl; unfold in_size_t in *; repeat split; lia.
  - destruct (sbrk (os st) _) as [r a'] eqn:Hsbrk. simpl in Hs. subst r.
    apply (grow_inv _ _ _ _ _ _ _ Hsbrk) in Hg as (Hfit & _ & ->).
    destruct (sbrk_success_arena _ _ _ _ HCS Hsbrk Hfit)
      as (-> & Hmin' & Hmax' & Hcur' & Hrange).
    destruct (modest_increment bytes HCS Hpos) as [Hinc Hal];
      [unfold ALIGNMENT; lia|].
    rewrite Hinc in Hcur'. simpl mem. simpl os.
    destruct (grown_lookup (mem st) (brk_cur (os st)) last
                (fresh_chunk (mem st) (brk_cur (os st)) (ALIGN bytes)) f ln)
      as (c & -> & Hsz & _).
    exists c. simpl in Hsz. repeat split; (done || lia).
Qed.

(** X9: in a well-formed state, a non-null pointer returned for a modest
    request addresses a block that lies inside the arena: its header
    starts at or above the lower bound of the break and its payload ends
    at or below the break as the call leaves it. *)
Theorem allocWithStats_block_inside_arena fuel st l bytes f ln p st' :
  0 < CHUNK_SIZE → bytes + ALIGNMENT + CHUNK_SIZE <= 2 ^ 63 →
  well_formed st l →
  allocWithStats fuel st bytes f ln = Some (p, st') → p ≠ NULL →
  ∃ c, mem st' !! (p - CHUNK_SIZE) = Some c ∧
       brk_min (os st') <= p - CHUNK_SIZE ∧
       0 <= size c ∧ p + size c <= brk_cur (os st').
Proof.
  intros HCS Hmodest Hwf Hrun Hp. unfold allocWithStats in Hrun.
  by apply (myAlloc_inside_arena _ _ l _ _ _ _ _ HCS Hmodest) in Hrun.
Qed.

(** Two chunks of a laid-out chain do not overlap. *)
Lemma layout_apart (h : gmap Z heapChunk) l p lo hi a b ca cb :
  0 < CHUNK_SIZE → 0 < lo → layout h p lo hi l →
  a ∈ l → b ∈ l → a ≠ b → h !! a = Some ca → h !! b = Some cb →
  a + CHUNK_SIZE + size ca <= b ∨ b + CHUNK_SIZE + size cb <= a.
Proof.
  intros HCS Hlo Hlay Ha Hb Hne Hca Hcb.
  apply list_elem_of_split in Ha as (l1 & l2 & ->).
  destruct (layout_app _ _ _ _ _ _ _ HCS Hlo Hlay)
    as (_ & Hlt & _ & ca' & Hca' & _ & _ & _ & Hrest).
  rewrite Hca in Hca'. injection Hca' as <-.
  apply elem_of_app in Hb as [Hb|[->|Hb]%elem_of_cons]; [|done|].
  - right. apply list_elem_of_split in Hb as (l3 & l4 & ->).
    rewrite <- app_assoc in Hlay. simpl in Hlay.
    destruct (layout_app _ _ _ _ _ _ _ HCS Hlo Hlay)
      as (_ & _ & _ & cb' & Hcb' & _ & _ & _ & Hrest').
    rewrite Hcb in Hcb'. injection Hcb' as <-.
    assert (Hin : a ∈ l4 ++ a :: l2) by (apply elem_of_app; right; left).
    by destruct (layout_bounds _ _ _ _ _ _ HCS Hrest' Hin).
  - left. by destruct (layout_bounds _ _ _ _ _ _ HCS Hrest Hb).
Qed.

Lemma myAlloc_spares_occupied fuel st l bytes f ln p st' a ca :
  0 < CHUNK_SIZE → CHUNK_SIZE + ALIGNMENT < SIZE_MOD →
  well_formed st l →
  a ∈ l → mem st !! a = Some ca → isFree ca = false →
  myAlloc fuel st bytes f ln = Some (p, st') →
  p ≠ a + CHUNK_SIZE ∧
  ∃ ca', mem st' !! a = Some ca' ∧ isFree ca' = false ∧
         size ca' = size ca ∧ magic ca' = magic ca ∧
         file ca' = file ca ∧ line ca' = line ca.
Proof.
  intros HCS Hsmall (Hmin & Hcur & Hcm & Hmax & Hlay) Ha Hca Hocc Hrun.
  destruct (layout_bounds _ _ _ _ _ _ HCS Hlay Ha)
    as (Hlo & ca0 & Hca0 & _ & Hsza & Henda).
  rewrite Hca in Hca0. injection Hca0 as <-.
  pose proof (layout_chain _ _ _ _ _ HCS Hmin Hlay) as Hch.
  apply (myAlloc_cases _ _ _ _ _ _ _ HCS) in Hrun
    as [(_ & -> & ->)
       |[(Hpos & chunk & last & c & _ & Hfind & Hnz & Hc & -> & ->)
        |(Hpos & last & _ &
          [(_ & -> & ->)|(chunk & st1 & Hs & Hg & -> & ->)])]].
  - split; [unfold NULL; lia|]. by exists ca.
  - pose proof (findFreeChunk_loop_fits _ _ _ _ _ _ _ _ Hfind Hnz Hc) as Hfit.
    unfold fits in Hfit. apply andb_prop in Hfit as [Hfree Hle].
    apply Z.leb_le in Hle.
    assert (Hne : a ≠ chunk) by (intros ->; simpl in Hc; congruence).
    split; [lia|].
    pose proof (findFreeChunk_loop_member _ _ _ _ _ _ _ l Hfind Hnz Hch)
      as Hin.
    destruct (layout_bounds _ _ _ _ _ _ HCS Hlay Hin)
      as (Hclo & c' & Hc' & _ & Hsz & Hend).
    simpl in Hc, Hc'. rewrite Hc in Hc'. injection Hc' as <-.
    destruct (layout_apart _ _ _ _ _ a chunk ca c HCS Hmin Hlay Ha Hin Hne
                Hca Hc) as [Hbefore|Hafter].
    + exists ca. split; [|done]. simpl. unfold reused.
      pose proof (ALIGN_range bytes) as Hs. unfold in_size_t in Hs.
      destruct (_ <=? _); rewrite !lookup_insert_ne by lia; done.
    + exists ca. split; [|done]. simpl. unfold reused.
      pose proof (ALIGN_range bytes) as Hs. unfold in_size_t in Hs.
      assert (Hthr : add_sz CHUNK_SIZE ALIGNMENT = CHUNK_SIZE + ALIGNMENT).
      { apply wrap_small. unfold in_size_t, ALIGNMENT in *. lia. }
      assert (Hexc : sub_sz (size c) (ALIGN bytes) = size c - ALIGN bytes).
      { apply wrap_small. unfold in_size_t in *. lia. }
      rewrite Hthr, Hexc. unfold ALIGNMENT.
      destruct (Z.leb_spec (CHUNK_SIZE + 8) (size c - ALIGN bytes));
        rewrite !lookup_insert_ne by lia; done.
  - split; [unfold NULL; lia|]. by exists ca.
  - destruct (sbrk (os st) _) as [r a'] eqn:Hsbrk. simpl in Hs. subst r.
    apply (grow_inv _ _ _ _ _ _ _ Hsbrk) in Hg as (Hfit & _ & ->).
    destruct (sbrk_success_arena _ _ _ _ HCS Hsbrk Hfit) as (-> & _).
    simpl mem. split; [lia|].
    rewrite lookup_write_ne by lia.
    destruct (decide (last = NULL)).
    + exists ca. by rewrite lookup_insert_ne by lia.
    + destruct (decide (last = a)) as [->|Hne].
      * rewrite lookup_write_eq, lookup_insert_ne, Hca by lia.
        eexists. split; [done|]. done.
      * exists ca. by rewrite lookup_write_ne, lookup_insert_ne by lia.
Qed.

(** X10: in a well-formed state an allocation never hands out a chunk
    that is occupied: the pointer it returns differs from the payload
    pointer of every chunk of the chain that is not free, and each such
    chunk is still occupied after the call, with its size, sentinel and
    label as before. *)
Theorem allocWithStats_spares_occupied_chunks fuel st l bytes f ln p st' a ca :
  0 < CHUNK_SIZE → CHUNK_SIZE + ALIGNMENT < SIZE_MOD →
  well_formed st l →
  a ∈ l → mem st !! a = Some ca → isFree ca = false →
  allocWithStats fuel st bytes f ln = Some (p, st') →
  p ≠ a + CHUNK_SIZE ∧
  ∃ ca', mem st' !! a = Some ca' ∧ isFree ca' = false ∧
         size ca' = size ca ∧ magic ca' = magic ca ∧
         file ca' = file ca ∧ line ca' = line ca.
Proof.
  intros HCS Hsmall Hwf Ha Hca Hocc Hrun. unfold allocWithStats in Hrun.
  by apply (myAlloc_spares_occupied _ _ l _ _ _ _ _ a ca HCS Hsmall) in Hrun.
Qed.

(** ** Every call returns *)

Lemma absorb_stops (h : gmap Z heapChunk) sz p l :
  lseg h p NULL l →
  (absorb h sz l).2 = NULL ∨
  (absorb h sz l).2 ∈ l ∧
  ∃ n, h !! (absorb h sz l).2 = Some n ∧ isFree n = false.
Proof.
  revert sz p. induction l as [|n l IH]; intros sz p; simpl; [by left|].
  intros (-> & Hnz & cn & Hcn & Hrest). rewrite Hcn.
  destruct (isFree cn) eqn:Hfree.
  - destruct (IH (add_sz sz (add_sz CHUNK_SIZE (size cn))) _ Hrest)
      as [?|(Hin & Hocc)]; [by left|].
    right. split; [by right | done].
  - right. simpl. split; [left | by exists cn].
Qed.

(** X12: releasing the payload pointer of any chunk of the chain, with
    fuel for the chain's length, returns; afterwards the chunk is free,
    its successor is absent or not free (the merge has absorbed every
    free chunk that followed), the chain head is the same and no other
    header has changed. *)
Theorem heapFree_leaves_no_free_successor fuel st l a :
  chain (mem st) (allChunks st) l → a ∈ l → a + CHUNK_SIZE ≠ NULL →
  (length l < fuel)%nat →
  ∃ st' c',
    heapFree fuel st (a + CHUNK_SIZE) = Some st' ∧
    mem st' !! a = Some c' ∧ isFree c' = true ∧
    (next c' = NULL ∨ ∃ n, mem st' !! next c' = Some n ∧ isFree n = false) ∧
    allChunks st' = allChunks st ∧
    ∀ b, b ≠ a → mem st' !! b = mem st !! b.
Proof.
  intros Hch Hin Hp Hfuel.
  apply list_elem_of_split in Hin as (l1 & l2 & ->).
  apply lseg_app in Hch as (r & _ & Hcha).
  assert (r = a) as -> by (by destruct Hcha).
  pose proof (chain_head_fresh _ _ _ Hcha) as Hfresh.
  pose proof Hcha as (_ & Hanz & c & Hc & Hrest).
  rewrite length_app in Hfuel. simpl in Hfuel.
  set (c1 := set_isFree true c).
  set (h1 := <[a := c1]> (mem st)).
  assert (Hrest1 : lseg h1 (next c) NULL l2).
  { apply (lseg_ext (mem st)); [|done].
    intros b Hb. unfold h1. apply lookup_insert_ne. congruence. }
  assert (Hch1 : chain h1 a (a :: l2)).
  { split; [done|]. split; [done|]. exists c1.
    split; [apply lookup_insert_eq | done]. }
  pose proof (heapMergeChunks_chain fuel h1 a c1 l2 Hch1
                (lookup_insert_eq _ _ _) ltac:(lia)) as Hmerge.
  change (size c1) with (size c) in Hmerge.
  set (sz := (absorb h1 (size c) l2).1) in *.
  set (nx := (absorb h1 (size c) l2).2) in *.
  set (c2 := set_next nx (set_size sz c1)) in *.
  assert (Hmem :
    ∃ h2 c',
      (if decide (next c = NULL) then Some h1
       else heapMergeChunks fuel h1 a) = Some h2 ∧
      h2 !! a = Some c' ∧ isFree c' = true ∧
      (next c' = NULL ∨ ∃ n, h2 !! next c' = Some n ∧ isFree n = false) ∧
      ∀ b, b ≠ a → h2 !! b = mem st !! b).
  { destruct (decide (next c = NULL)) as [Hnull|Hnn].
    - exists h1, c1. split; [done|]. split; [apply lookup_insert_eq|].
      split; [done|]. split; [by left|].
      intros b Hb. unfold h1. by apply lookup_insert_ne.
    - exists (<[a := c2]> h1), c2. split; [done|].
      split; [apply lookup_insert_eq|]. split; [done|]. split.
      + destruct (absorb_stops h1 (size c) _ _ Hrest1)
          as [Hn|(Hn & n & Hlook & Hocc)]; [by left|].
        right. exists n. fold nx in Hn, Hlook. simpl.
        rewrite lookup_insert_ne by congruence. done.
      + intros b Hb. unfold h1. by rewrite !lookup_insert_ne. }
  destruct Hmem as (h2 & c' & Hh2 & Hlook & Hfree & Hnext & Hframe).
  replace (a + CHUNK_SIZE - CHUNK_SIZE) with a in * by lia.
  destruct (decide (magic c = MAGIC_NUMBER)) as [Hm|Hm].
  - exists (set_mem h2 st), c'.
    rewrite (heapFree_valid _ _ _ c);
      replace (a + CHUNK_SIZE - CHUNK_SIZE) with a by lia; try done.
    fold c1 h1. rewrite Hh2. done.
  - eexists _, c'.
    rewrite (heapFree_corrupted _ _ _ c);
      replace (a + CHUNK_SIZE - CHUNK_SIZE) with a by lia; try done.
    fold c1 h1. rewrite Hh2. simpl. done.
Qed.

(** ** Requests near the top of [size_t] *)

Lemma wrap_once z : SIZE_MOD <= z < 2 * SIZE_MOD → wrap z = z - SIZE_MOD.
Proof.
  intros Hz. unfold wrap. symmetry.
  apply (Z.mod_unique z SIZE_MOD 1); [left | ]; lia.
Qed.

Lemma ALIGN_0 : ALIGN 0 = 0.
Proof. reflexivity. Qed.

Lemma myAlloc_grows_at_break fuel st bytes f ln last inc :
  0 < CHUNK_SIZE →
  0 < bytes → missed fuel st (ALIGN bytes) last →
  to_intptr (add_sz (ALIGN bytes) CHUNK_SIZE) = inc → CHUNK_SIZE <= inc →
  brk_min (os st) <= brk_cur (os st) + inc <= brk_max (os st) →
  ∃ st' c,
    myAlloc fuel st bytes f ln = Some (brk_cur (os st) + CHUNK_SIZE, st') ∧
    mem st' !! brk_cur (os st) = Some c ∧ size c = ALIGN bytes ∧
    isFree c = false ∧
    brk_cur (os st') = brk_cur (os st) + inc.
Proof.
  intros HCS Hpos Hmiss Hinc Hfit Hroom.
  rewrite (myAlloc_miss _ _ _ _ _ _ Hpos Hmiss).
  assert (Hsbrk :
    sbrk (os st) (add_sz (ALIGN bytes) CHUNK_SIZE)
    = (Some (brk_cur (os st)),
       mkArena (brk_min (os st)) (brk_cur (os st) + inc) (brk_max (os st)))).
  { rewrite sbrk_up by lia. rewrite Hinc.
    destruct (Z.leb_spec (brk_min (os st)) (brk_cur (os st) + inc)); [|lia].
    destruct (Z.leb_spec (brk_cur (os st) + inc) (brk_max (os st))); [|lia].
    done. }
  rewrite (grow_success _ _ _ _ _ Hsbrk) by (simpl; lia). simpl.
  destruct (grown_lookup (mem st) (brk_cur (os st)) last
              (fresh_chunk (mem st) (brk_cur (os st)) (ALIGN bytes)) f ln)
    as (c & Hc & Hsz & Hfr & _).
  eexists _, c. split; [done|]. simpl. rewrite Hc. done.
Qed.

(** X14: [ALIGN] adds 7 modulo 2^64.  A request above 2^64 - 8 is
    aligned to 0: when the search finds nothing to reuse and the arena
    has room for one header, the call returns a block whose chunk has
    size 0, and the arena grows by the header alone. *)
Theorem allocWithStats_aligns_huge_request_to_zero fuel st bytes f ln last :
  0 < CHUNK_SIZE → CHUNK_SIZE < 2 ^ 63 →
  SIZE_MOD - 8 < bytes < SIZE_MOD →
  ALIGN bytes = 0 ∧
  (missed fuel st 0 last →
   brk_min (os st) <= brk_cur (os st) + CHUNK_SIZE <= brk_max (os st) →
   ∃ st' c,
     allocWithStats fuel st bytes f ln
       = Some (brk_cur (os st) + CHUNK_SIZE, st') ∧
     mem st' !! brk_cur (os st) = Some c ∧ size c = 0 ∧ isFree c = false ∧
     brk_cur (os st') = brk_cur (os st) + CHUNK_SIZE).
Proof.
  intros HCS Hhalf Hb.
  pose proof half_SIZE_MOD as [Hhalf0 Hhalf1].
  assert (Hal : ALIGN bytes = 0).
  { rewrite ALIGN_div, wrap_once by lia.
    rewrite Z.div_small by lia. lia. }
  split; [done|]. intros Hmiss Hroom.
  assert (Hinc : to_intptr (add_sz (ALIGN bytes) CHUNK_SIZE) = CHUNK_SIZE).
  { rewrite Hal. unfold add_sz, to_intptr. rewrite Z.add_0_l.
    rewrite !(wrap_small CHUNK_SIZE) by (unfold in_size_t; lia).
    destruct (Z.ltb_spec CHUNK_SIZE (2 ^ 63)); lia. }
  unfold allocWithStats. rewrite <- Hal in Hmiss.
  destruct (myAlloc_grows_at_break fuel
              (set_stats (count_request bytes (mem_stats st)) st)
              bytes f ln last _ HCS ltac:(lia) Hmiss Hinc (Z.le_refl _)
              Hroom)
    as (st' & c & Hrun & Hc & Hsz & Hocc & Hbrk).
  exists st', c. simpl in Hrun, Hc, Hbrk. rewrite Hal in Hsz. done.
Qed.

(** ** The chain stays laid out *)

(** ** Allocation, release and the audit *)

Lemma well_formed_myAlloc_in fuel st bytes f ln p st' l :
  0 < CHUNK_SIZE → CHUNK_SIZE + ALIGNMENT < SIZE_MOD →
  well_formed st l → myAlloc fuel st bytes f ln = Some (p, st') →
  ∃ l', well_formed st' l' ∧ (∀ x, x ∈ l → x ∈ l') ∧
        (p ≠ NULL → p - CHUNK_SIZE ∈ l').
Proof.
  intros HCS Hsmall Hwf Hrun.
  pose proof Hwf as (Hmin & Hcur & Hcm & Hmax & Hlay).
  pose proof (layout_chain _ _ _ _ _ HCS Hmin Hlay) as Hch.
  pose proof half_SIZE_MOD as [Hhalf0 Hhalf].
  apply (myAlloc_cases _ _ _ _ _ _ _ HCS) in Hrun
    as [(_ & -> & ->)
       |[(Hpos & chunk & last & c & Hhead & Hfind & Hnz & Hc & -> & ->)
        |(Hpos & last & Hmiss &
          [(_ & -> & ->)|(chunk & st1 & Hs & Hg & -> & ->)])]].
  - by exists l.
  - assert (Hin : chunk ∈ l) by (by eapply findFreeChunk_loop_member).
    destruct (well_formed_reused_in st l chunk bytes c f ln) as (l' & ? & ?);
      try done.
    + by eapply findFreeChunk_loop_fits.
    + exists l'. split; [done|]. split; [done|]. intros _.
      replace (chunk + CHUNK_SIZE - CHUNK_SIZE) with chunk by lia. auto.
  - by exists l.
  - destruct (sbrk (os st) _) as [r a'] eqn:Hsbrk. simpl in Hs. subst r.
    apply (grow_inv _ _ _ _ _ _ _ Hsbrk) in Hg as (Hfit & _ & ->).
    exists (l ++ [chunk]). split; [|split].
    + apply (well_formed_grown_in st l bytes f ln last chunk a'); try done.
      * unfold ALIGNMENT in *. lia.
      * destruct Hmiss as [?|[Hhead Hfind]]; [by left|]. right.
        split; [done|]. by eapply findFreeChunk_loop_tail.
    + intros x Hx. apply elem_of_app. by left.
    + intros _.
      replace (chunk + CHUNK_SIZE - CHUNK_SIZE) with chunk by lia.
      apply elem_of_app. right. left.
Qed.

Lemma heapMergeChunks_keeps_flag fuel (h h' : gmap Z heapChunk) chunk c :
  heapMergeChunks fuel h chunk = Some h' → h !! chunk = Some c →
  ∃ c', h' !! chunk = Some c' ∧ isFree c' = isFree c.
Proof.
  revert h c. induction fuel as [|fuel IH]; intros h c Hrun Hc; [done|].
  apply heapMergeChunks_cases in Hrun
    as [->|(c0 & n0 & m & n & Hc0 & Hn0 & Hn & Hrec)]; [by exists c|].
  rewrite Hc in Hc0. injection Hc0 as <-.
  destruct (IH _ _ Hrec (lookup_insert_eq _ _ _)) as (c' & Hc' & Hflag).
  by exists c'.
Qed.

Lemma heapFree_mem fuel st ptr st' :
  heapFree fuel st ptr = Some st' → ptr ≠ NULL →
  (∃ c', mem st' !! (ptr - CHUNK_SIZE) = Some c' ∧ isFree c' = true) ∧
  ∀ a, a ≠ ptr - CHUNK_SIZE → mem st' !! a = mem st !! a.
Proof.
  unfold heapFree. destruct (decide (ptr = NULL)); [done|].
  set (chunk := ptr - CHUNK_SIZE).
  destruct (mem st !! chunk) as [c|] eqn:Hc; [|done]. simpl.
  set (st1 := if decide (magic c = MAGIC_NUMBER) then st else _).
  assert (Hmem : mem st1 = mem st)
    by (unfold st1; by destruct (decide (magic c = MAGIC_NUMBER))).
  rewrite Hmem. rewrite lookup_write_eq, Hc. simpl.
  rewrite (write_present _ _ _ c) by done.
  set (h1 := <[chunk := set_isFree true c]> (mem st)).
  intros Hrun _.
  assert (Hres : ∃ h2, st' = set_mem h2 st1 ∧
                       (h2 = h1 ∨ heapMergeChunks fuel h1 chunk = Some h2)).
  { destruct (decide (next c = NULL)).
    - injection Hrun as <-. eauto.
    - destruct (heapMergeChunks fuel h1 chunk) as [h2|]; [|done].
      injection Hrun as <-. eauto. }
  destruct Hres as (h2 & -> & [->|Hmerge]); simpl.
  - split.
    + exists (set_isFree true c). split; [apply lookup_insert_eq | done].
    + intros a Ha. unfold h1. by apply lookup_insert_ne.
  - split.
    + destruct (heapMergeChunks_keeps_flag _ _ _ _ (set_isFree true c) Hmerge
                  (lookup_insert_eq _ _ _)) as (c' & Hc' & Hflag).
      by exists c'.
    + intros a Ha. rewrite (heapMergeChunks_frame _ _ _ _ Hmerge) by done.
      unfold h1. by apply lookup_insert_ne.
Qed.

Lemma checkForUnfreedChunks_loop_fuel fuel (h : gmap Z heapChunk) p l s out r :
  chain h p l → checkForUnfreedChunks_loop fuel h p s out = Some r →
  (length l < fuel)%nat.
Proof.
  revert p s out fuel.
  induction l as [|a l IH]; intros p s out fuel Hch Hrun;
    (destruct fuel as [|fuel]; [done|]); [simpl; lia|].
  destruct Hch as (-> & Hanz & c & Hc & Hrest).
  simpl in Hrun. rewrite decide_False in Hrun by done.
  rewrite Hc in Hrun. simpl in Hrun.
  destruct (isFree c); apply (IH _ _ _ _ Hrest) in Hrun; simpl; lia.
Qed.

Lemma checkForUnfreedChunks_returned fuel st l st' out :
  chain (mem st) (allChunks st) l →
  checkForUnfreedChunks fuel st = Some (st', out) →
  out = leaks_of (mem st) l.
Proof.
  intros Hch. unfold checkForUnfreedChunks.
  destruct (checkForUnfreedChunks_loop _ _ _ _ _) as [[s o]|] eqn:Hloop;
    [|done].
  pose proof (checkForUnfreedChunks_loop_fuel _ _ _ _ _ _ _ Hch Hloop).
  rewrite (checkForUnfreedChunks_loop_chain _ _ _ l) in Hloop by done.
  simpl. injection Hloop as <- <-. by intros [= <- <-].
Qed.

(** X16: in a well-formed state, a modest [heapAlloc] that returns a
    block leaves a chain on which the audit returns, for every fuel
    above the chain's length; the audit then lists the new block's chunk
    under the base name of the calling file and its line, together with
    every line that an audit of the state before the call printed. *)
Theorem heapAlloc_block_is_audited fuel st l path ln bytes p st' :
  0 < CHUNK_SIZE → bytes + ALIGNMENT + CHUNK_SIZE <= 2 ^ 63 →
  well_formed st l →
  heapAlloc fuel st path ln bytes = Some (p, st') → p ≠ NULL →
  ∃ l',
    chain (mem st') (allChunks st') l' ∧
    ∀ fuel', (length l' < fuel')%nat →
      ∃ st'' out,
        checkForUnfreedChunks fuel' st' = Some (st'', out) ∧
        mkLeak (p - CHUNK_SIZE) (extractFilename path) ln ∈ out ∧
        ∀ fuel0 s0 out0,
          checkForUnfreedChunks fuel0 st = Some (s0, out0) →
          ∀ x, x ∈ out0 → x ∈ out.
Proof.
  intros HCS Hmodest Hwf Hrun Hp. unfold heapAlloc, allocWithStats in Hrun.
  set (st0 := set_stats (count_request bytes (mem_stats st)) st) in *.
  assert (Hwf0 : well_formed st0 l) by done.
  pose proof half_SIZE_MOD as [Hhalf0 Hhalf].
  assert (Hb : bytes <= SIZE_MOD - 8) by (unfold ALIGNMENT in *; lia).
  destruct (myAlloc_block _ _ _ _ _ _ _ HCS Hb Hrun Hp)
    as (Hpos & c & Hc & Hocc & _ & _ & Hf & Hl).
  assert (Hsmall : CHUNK_SIZE + ALIGNMENT < SIZE_MOD)
    by (unfold ALIGNMENT in *; lia).
  destruct (well_formed_myAlloc_in _ _ _ _ _ _ _ _ HCS Hsmall Hwf0 Hrun)
    as (l' & Hwf' & Hsub & Hin).
  pose proof Hwf as (Hmin & _ & _ & _ & Hlay).
  pose proof Hwf' as (Hmin' & _ & _ & _ & Hlay').
  pose proof (layout_chain _ _ _ _ _ HCS Hmin Hlay) as Hch.
  pose proof (layout_chain _ _ _ _ _ HCS Hmin' Hlay') as Hch'.
  exists l'. split; [done|]. intros fuel' Hfuel'.
  eexists _, (leaks_of (mem st') l'). split; [|split].
  - unfold checkForUnfreedChunks.
    by rewrite (checkForUnfreedChunks_loop_chain _ _ _ l').
  - apply leaks_of_spec.
    exists (p - CHUNK_SIZE), c. rewrite Hf, Hl. auto.
  - intros fuel0 s0 out0 Hold x Hx.
    rewrite (checkForUnfreedChunks_returned _ _ _ _ _ Hch Hold) in Hx.
    apply leaks_of_spec in Hx as (a & ca & Ha & Hca & Hocc0 & ->).
    destruct (myAlloc_spares_occupied _ _ l _ _ _ _ _ a ca HCS
                Hsmall Hwf0 Ha Hca Hocc0 Hrun)
      as (_ & ca' & Hca' & Hocc' & _ & _ & Hf' & Hl').
    apply leaks_of_spec. exists a, ca'. rewrite Hf', Hl'. auto.
Qed.

(** ** The chain tiles the arena *)

Lemma tiling_le (h : gmap Z heapChunk) l p lo hi :
  0 < CHUNK_SIZE → tiling h p lo hi l → lo <= hi.
Proof.
  intros HCS. revert p lo. induction l as [|a l IH]; intros p lo; simpl.
  - intros [_ ->]. lia.
  - intros (_ & <- & c & Hc & Hm & Hsz & Hrest). apply IH in Hrest. lia.
Qed.

Lemma tiling_cast (h : gmap Z heapChunk) l p lo lo' hi :
  lo = lo' → tiling h p lo hi l → tiling h p lo' hi l.
Proof. by intros ->. Qed.

Lemma tiling_layout (h : gmap Z heapChunk) l p lo hi :
  0 < CHUNK_SIZE → tiling h p lo hi l → layout h p lo hi l.
Proof.
  intros HCS. revert p lo. induction l as [|a l IH]; intros p lo; simpl.
  - by intros [-> _].
  - intros (-> & Ha & c & Hc & Hm & Hsz & Hrest).
    pose proof (tiling_le _ _ _ _ _ HCS Hrest).
    split; [done|]. split; [lia|]. exists c. repeat split; try done.
    by apply IH.
Qed.

Lemma tiling_ext (h h' : gmap Z heapChunk) l p lo hi :
  (∀ a, a ∈ l → h' !! a = h !! a) → tiling h p lo hi l → tiling h' p lo hi l.
Proof.
  revert p lo. induction l as [|a l IH]; intros p lo Hagree; simpl; [done|].
  intros (-> & Hlo & c & Hc & Hm & Hsz & Hrest).
  split; [done|]. split; [done|]. exists c.
  rewrite Hagree by left. repeat split; try done.
  apply IH; [|done]. intros b Hb. apply Hagree. by right.
Qed.

Lemma tiling_app (h : gmap Z heapChunk) l1 c l2 p lo hi :
  tiling h p lo hi (l1 ++ c :: l2) →
  ∃ cc, h !! c = Some cc ∧ magic cc = MAGIC_NUMBER ∧ 0 <= size cc ∧
        tiling h (next cc) (c + CHUNK_SIZE + size cc) hi l2.
Proof.
  revert p lo. induction l1 as [|a l1 IH]; intros p lo; simpl.
  - intros (_ & _ & cc & Hrest). by exists cc.
  - intros (_ & _ & ca & _ & _ & _ & Hrest). by eapply IH.
Qed.

Lemma tiling_rebuild (h h' : gmap Z heapChunk) l1 c l2 l2' p lo hi hi' :
  tiling h p lo hi (l1 ++ c :: l2) →
  (∀ a, a ∈ l1 → h' !! a = h !! a) →
  tiling h' c c hi' (c :: l2') →
  tiling h' p lo hi' (l1 ++ c :: l2').
Proof.
  revert p lo. induction l1 as [|a l1 IH]; intros p lo; simpl.
  - intros (-> & <- & _) _ Hc. done.
  - intros (-> & Hlo & ca & Hca & Hm & Hsz & Hrest) Hagree Hc.
    split; [done|]. split; [done|]. exists ca.
    rewrite Hagree by left. repeat split; try done.
    apply IH; [done | | done]. intros b Hb. apply Hagree. by right.
Qed.

Lemma tiling_hd (h : gmap Z heapChunk) l p lo hi :
  tiling h p lo hi l → hd hi l = lo ∧ hd NULL l = p.
Proof.
  destruct l as [|a l]; simpl; [by intros [-> ->]|].
  by intros (-> & -> & _).
Qed.

Lemma tiling_footprint (h : gmap Z heapChunk) l p lo hi :
  tiling h p lo hi l → footprint h l = hi - lo.
Proof.
  revert p lo. induction l as [|a l IH]; intros p lo; simpl.
  - intros [_ ->]. lia.
  - intros (_ & <- & c & Hc & _ & _ & Hrest). rewrite Hc.
    rewrite (IH _ _ Hrest). lia.
Qed.

Lemma packed_well_formed base st l :
  0 < CHUNK_SIZE → packed base st l → well_formed st l.
Proof.
  intros HCS (Hmin & Hbase & Hcm & Hmax & Htil).
  pose proof (tiling_le _ _ _ _ _ HCS Htil).
  split; [done|]. split; [lia|]. split; [done|]. split; [done|].
  apply (layout_lo _ _ _ base); [done|]. by apply tiling_layout.
Qed.

Lemma heapMergeChunks_tiling fuel (h h' : gmap Z heapChunk) c l hi :
  0 < CHUNK_SIZE → 0 < c → hi <= SIZE_MOD →
  tiling h c c hi (c :: l) → heapMergeChunks fuel h c = Some h' →
  ∃ l', tiling h' c c hi (c :: l').
Proof.
  intros HCS Hc0 Hhi. revert h l.
  induction fuel as [|fuel IH]; intros h l Htil Hrun; [done|].
  pose proof Htil as (_ & _ & cc & Hcc & Hm & Hsz & Hrest).
  destruct l as [|n l].
  { destruct Hrest as [Hnx Hend].
    rewrite (heapMergeChunks_stop _ _ _ cc) in Hrun by auto.
    injection Hrun as <-. by exists []. }
  destruct Hrest as (Hn & Hnlo & cn & Hcn & Hmn & Hszn & Hrest).
  pose proof (tiling_le _ _ _ _ _ HCS Hrest) as Hle.
  destruct (isFree cn) eqn:Hfree.
  - rewrite (heapMergeChunks_absorb _ _ _ cc cn) in Hrun;
      [| done | unfold NULL; lia | lia | by rewrite Hn | done ].
    assert (H1 : add_sz CHUNK_SIZE (size cn) = CHUNK_SIZE + size cn).
    { apply wrap_small. unfold in_size_t. lia. }
    assert (H2 : add_sz (size cc) (CHUNK_SIZE + size cn)
                 = size cc + CHUNK_SIZE + size cn).
    { unfold add_sz. rewrite wrap_small; [lia|]. unfold in_size_t. lia. }
    rewrite H1, H2 in Hrun.
    set (c2 := set_next _ _) in Hrun. set (h2 := <[c := c2]> h) in Hrun.
    assert (Htil2 : tiling h2 c c hi (c :: l)).
    { split; [done|]. split; [done|]. exists c2.
      split; [apply lookup_insert_eq|]. simpl.
      split; [done|]. split; [lia|].
      apply (tiling_cast _ _ _ (n + CHUNK_SIZE + size cn)); [lia|].
      apply (tiling_ext h); [|done].
      intros a Ha. unfold h2. apply lookup_insert_ne.
      destruct (layout_bounds _ _ _ _ _ _ HCS
                  (tiling_layout _ _ _ _ _ HCS Hrest) Ha). lia. }
    apply (IH _ _ Htil2 Hrun).
  - rewrite (heapMergeChunks_stop _ _ _ cc) in Hrun;
      [| done | right; exists cn; by rewrite Hn].
    injection Hrun as <-. by exists (n :: l).
Qed.

Lemma packed_heapFree fuel base st ptr st' l :
  0 < CHUNK_SIZE → packed base st l → heapFree fuel st ptr = Some st' →
  ∃ l', packed base st' l'.
Proof.
  intros HCS Hpk.
  pose proof (packed_well_formed _ _ _ HCS Hpk)
    as (Hmin & Hcur & Hcm & Hmax & Hlay).
  destruct Hpk as (_ & Hbase & _ & _ & Htil).
  unfold heapFree. destruct (decide (ptr = NULL)).
  { intros [= <-]. by exists l. }
  set (chunk := ptr - CHUNK_SIZE).
  destruct (mem st !! chunk) as [c|] eqn:Hc; [|done]. simpl.
  set (st1 := if decide (magic c = MAGIC_NUMBER) then st else _).
  assert (Hmem : mem st1 = mem st)
    by (unfold st1; by destruct (decide (magic c = MAGIC_NUMBER))).
  assert (Hhd : allChunks st1 = allChunks st)
    by (unfold st1; by destruct (decide (magic c = MAGIC_NUMBER))).
  assert (Hos : os st1 = os st)
    by (unfold st1; by destruct (decide (magic c = MAGIC_NUMBER))).
  rewrite Hmem. rewrite lookup_write_eq, Hc. simpl.
  rewrite (write_present _ _ _ c) by done.
  set (h1 := <[chunk := set_isFree true c]> (mem st)).
  intros Hrun.
  assert (Hres : ∃ h2, st' = set_mem h2 st1 ∧
                       (h2 = h1 ∨ heapMergeChunks fuel h1 chunk = Some h2)).
  { destruct (decide (next c = NULL)).
    - injection Hrun as <-. eauto.
    - destruct (heapMergeChunks fuel h1 chunk) as [h2|]; [|done].
      injection Hrun as <-. eauto. }
  destruct Hres as (h2 & -> & Hh2).
  unfold packed. simpl. rewrite Hhd, Hos.
  destruct (decide (chunk ∈ l)) as [Hin|Hout].
  - apply list_elem_of_split in Hin as (l1 & l2 & ->).
    destruct (layout_app _ _ _ _ _ _ _ HCS Hmin Hlay)
      as (Hseg & Hlt & Hclo & cc & Hcc & Hm & Hsz & Hend & Hrest).
    rewrite Hc in Hcc. injection Hcc as <-.
    destruct (tiling_app _ _ _ _ _ _ _ Htil) as (cc & Hcc & _ & _ & Htrest).
    rewrite Hc in Hcc. injection Hcc as <-.
    assert (Hl2 : ∀ a, a ∈ l2 → a ≠ chunk).
    { intros a Ha.
      destruct (layout_bounds _ _ _ _ _ _ HCS Hrest Ha). lia. }
    assert (Htil1 : tiling h1 chunk chunk (brk_cur (os st)) (chunk :: l2)).
    { split; [done|]. split; [done|].
      exists (set_isFree true c). split; [apply lookup_insert_eq|].
      simpl. repeat split; try done.
      apply (tiling_ext (mem st)); [|done].
      intros a Ha. unfold h1. apply lookup_insert_ne.
      specialize (Hl2 _ Ha). done. }
    assert (Hframe1 : ∀ a, a ∈ l1 → h1 !! a = mem st !! a).
    { intros a Ha. unfold h1. apply lookup_insert_ne.
      specialize (Hlt _ Ha). lia. }
    destruct Hh2 as [->|Hmerge].
    + exists (l1 ++ chunk :: l2). repeat split; try done.
      by apply (tiling_rebuild (mem st) _ _ _ l2 _ _ _ (brk_cur (os st))).
    + assert (Hc0 : 0 < chunk) by lia.
      assert (Hhi : brk_cur (os st) <= SIZE_MOD) by lia.
      destruct (heapMergeChunks_tiling _ _ _ _ _ _
                  HCS Hc0 Hhi Htil1 Hmerge) as (l2' & Hl2').
      exists (l1 ++ chunk :: l2'). repeat split; try done.
      apply (tiling_rebuild (mem st) _ _ _ l2 _ _ _ (brk_cur (os st)));
        [done | | done].
      intros a Ha.
      rewrite (heapMergeChunks_frame _ _ _ _ Hmerge); [by apply Hframe1|].
      specialize (Hlt _ Ha). lia.
  - exists l. repeat split; try done.
    apply (tiling_ext (mem st)); [|done].
    intros a Ha. assert (a ≠ chunk) by (by intros ->).
    destruct Hh2 as [->|Hmerge].
    + unfold h1. by apply lookup_insert_ne.
    + rewrite (heapMergeChunks_frame _ _ _ _ Hmerge) by done.
      unfold h1. by apply lookup_insert_ne.
Qed.

Lemma packed_reused base st l chunk bytes c f ln :
  0 < CHUNK_SIZE → CHUNK_SIZE + ALIGNMENT < SIZE_MOD →
  packed base st l → chunk ∈ l → mem st !! chunk = Some c →
  fits c (ALIGN bytes) = true →
  ∃ l', packed base
          (set_mem (reused (mem st) chunk (ALIGN bytes) c f ln) st) l'.
Proof.
  intros HCS Hsmall Hpk Hin Hc Hfit.
  pose proof (packed_well_formed _ _ _ HCS Hpk)
    as (Hmin & Hcur & Hcm & Hmax & Hlay).
  destruct Hpk as (_ & Hbase & _ & _ & Htil).
  apply list_elem_of_split in Hin as (l1 & l2 & ->).
  destruct (layout_app _ _ _ _ _ _ _ HCS Hmin Hlay)
    as (Hseg & Hlt & Hclo & cc & Hcc & Hm & Hsz & Hend & Hrest).
  rewrite Hc in Hcc. injection Hcc as <-.
  destruct (tiling_app _ _ _ _ _ _ _ Htil) as (cc & Hcc & _ & _ & Htrest).
  rewrite Hc in Hcc. injection Hcc as <-.
  pose proof (ALIGN_range bytes) as Hs. set (s := ALIGN bytes) in *.
  unfold fits in Hfit. apply andb_prop in Hfit as [_ Hle].
  apply Z.leb_le in Hle.
  assert (Hl2 : ∀ a, a ∈ l2 → chunk + CHUNK_SIZE + size c <= a).
  { intros a Ha. by destruct (layout_bounds _ _ _ _ _ _ HCS Hrest Ha). }
  assert (Hthr : add_sz CHUNK_SIZE ALIGNMENT = CHUNK_SIZE + ALIGNMENT).
  { apply wrap_small. unfold in_size_t, ALIGNMENT in *. lia. }
  assert (Hexc : sub_sz (size c) s = size c - s).
  { apply wrap_small. unfold in_size_t in *. lia. }
  unfold packed, reused, remainder. simpl.
  rewrite Hthr, Hexc. unfold ALIGNMENT in *.
  destruct (Z.leb_spec (CHUNK_SIZE + 8) (size c - s)) as [Hsplit|Hno].
  - assert (Hrem : sub_sz (size c - s) CHUNK_SIZE = size c - s - CHUNK_SIZE).
    { apply wrap_small. unfold in_size_t in *. lia. }
    rewrite Hrem.
    set (nc := chunk + s + CHUNK_SIZE).
    set (r := mkChunk MAGIC_NUMBER (size c - s - CHUNK_SIZE) true (next c)
                _ _).
    set (ca := mkChunk (magic c) s false nc f ln).
    exists (l1 ++ chunk :: nc :: l2). repeat split; try done.
    apply (tiling_rebuild (mem st) _ _ _ l2 _ _ _ (brk_cur (os st)));
      [done | |].
    + intros a Ha. specialize (Hlt _ Ha).
      rewrite !lookup_insert_ne;
        [done | unfold nc, in_size_t in *; lia | lia].
    + split; [done|]. split; [done|]. exists ca.
      split; [apply lookup_insert_eq|]. simpl.
      split; [done|]. split; [unfold in_size_t in *; lia|].
      split; [done|]. split; [unfold nc; lia|]. exists r. split.
      { rewrite lookup_insert_ne by (unfold nc, in_size_t in *; lia).
        apply lookup_insert_eq. }
      simpl. split; [done|]. split; [lia|].
      apply (tiling_cast _ _ _ (chunk + CHUNK_SIZE + size c));
        [unfold nc; lia|].
      apply (tiling_ext (mem st)); [|done].
      intros a Ha. specialize (Hl2 _ Ha).
      rewrite !lookup_insert_ne;
        [done | unfold nc, in_size_t in *; lia | lia].
  - exists (l1 ++ chunk :: l2). repeat split; try done.
    apply (tiling_rebuild (mem st) _ _ _ l2 _ _ _ (brk_cur (os st)));
      [done | |].
    + intros a Ha. specialize (Hlt _ Ha).
      rewrite lookup_insert_ne; [done | lia].
    + split; [done|]. split; [done|].
      exists (set_origin f ln (set_isFree false c)).
      split; [apply lookup_insert_eq|]. simpl. repeat split; try done.
      apply (tiling_ext (mem st)); [|done].
      intros a Ha. specialize (Hl2 _ Ha).
      rewrite lookup_insert_ne; [done | lia].
Qed.

Lemma packed_grown base st l bytes f ln last b a' :
  0 < CHUNK_SIZE → CHUNK_SIZE < SIZE_MOD →
  packed base st l →
  (allChunks st = NULL ∧ last = NULL ∨
   allChunks st ≠ NULL ∧ last = List.last l (allChunks st)) →
  sbrk (os st) (add_sz (ALIGN bytes) CHUNK_SIZE) = (Some b, a') →
  b + CHUNK_SIZE <= brk_cur a' →
  let st1 :=
    mkState (if decide (last = NULL) then b else allChunks st)
      (if decide (last = NULL)
       then <[b := fresh_chunk (mem st) b (ALIGN bytes)]> (mem st)
       else write last (set_next b)
              (<[b := fresh_chunk (mem st) b (ALIGN bytes)]> (mem st)))
      (incr_sbrkCalls (mem_stats st)) a' (diag st) in
  packed base (set_mem (write b (set_origin f ln) (mem st1)) st1) (l ++ [b]).
Proof.
  intros HCS Hsmall Hpk Hlast Hsbrk Hfit.
  pose proof (packed_well_formed _ _ _ HCS Hpk)
    as (Hmin & Hcur & Hcm & Hmax & Hlay).
  destruct Hpk as (_ & Hbase & _ & _ & Htil).
  cbv zeta.
  pose proof half_SIZE_MOD as [Hhalf0 Hhalf].
  pose proof (ALIGN_range bytes) as Hs1. unfold in_size_t in Hs1.
  set (s := ALIGN bytes) in *.
  destruct (sbrk_success_arena _ _ _ _ HCS Hsbrk Hfit)
    as (-> & Hmin' & Hmax' & Hcur' & Hrange).
  assert (Hinc : to_intptr (add_sz s CHUNK_SIZE) = s + CHUNK_SIZE).
  { apply fit_increment; try done. lia. }
  rewrite Hinc in Hcur'. rewrite Hcur' in Hrange.
  set (b := brk_cur (os st)) in *.
  set (hi' := b + (s + CHUNK_SIZE)) in *.
  assert (Hlt : ∀ a, a ∈ l → 0 < a < b).
  { intros a Ha.
    destruct (layout_bounds _ _ _ _ _ _ HCS Hlay Ha) as (? & c & _ & _ & ? & ?).
    unfold b. lia. }
  set (fr := fresh_chunk (mem st) b s).
  set (cb := set_origin f ln fr).
  pose proof (layout_chain _ _ _ _ _ HCS Hmin Hlay) as Hch.
  assert (Hb : ∀ (h : gmap Z heapChunk),
            tiling (<[b := cb]> h) b b hi' [b]).
  { intros h. split; [done|]. split; [done|]. exists cb.
    split; [apply lookup_insert_eq|]. simpl.
    repeat split; try done; unfold hi'; lia. }
  destruct Hlast as [[Hnull ->]|[Hhead ->]].
  - (* the chain was empty *)
    assert (l = []) as ->.
    { destruct l as [|a l]; [done|]. destruct Hlay as (Ha & ? & _).
      unfold NULL in *. lia. }
    destruct Htil as [_ Hbase_eq].
    rewrite !decide_True by done. simpl mem.
    assert (Hmem : write b (set_origin f ln) (<[b := fr]> (mem st))
                   = <[b := cb]> (mem st)).
    { unfold write. rewrite lookup_insert_eq. simpl.
      by rewrite insert_insert_eq. }
    unfold packed. simpl mem. simpl os. simpl allChunks.
    rewrite Hmem, Hmin', Hmax', Hcur'. simpl app.
    split; [lia|]. split; [lia|]. split; [lia|]. split; [lia|].
    apply (tiling_cast _ _ _ b); [lia|]. apply Hb.
  - (* the chain had a last chunk *)
    destruct (list_snoc_cases l) as [->|(l0 & t & ->)].
    { unfold chain in Hch. simpl in Hch. done. }
    rewrite last_last.
    assert (Ht : 0 < t < b) by (apply Hlt, elem_of_app; right; left).
    rewrite !decide_False by (unfold NULL; lia).
    destruct (layout_app _ _ _ _ _ _ _ HCS Hmin Hlay)
      as (_ & Hlt0 & _ & ct & Hct & Hmt & Hszt & Hendt & _).
    destruct (tiling_app _ _ _ _ _ _ _ Htil)
      as (ct' & Hct' & _ & _ & Hnx & Htend).
    rewrite Hct in Hct'. injection Hct' as <-.
    simpl mem.
    assert (Hmem : write b (set_origin f ln)
                     (write t (set_next b) (<[b := fr]> (mem st)))
                   = <[b := cb]> (<[t := set_next b ct]> (mem st))).
    { unfold write.
      rewrite (lookup_insert_ne _ b t) by lia. rewrite Hct. simpl.
      rewrite lookup_insert_ne, lookup_insert_eq by lia. simpl.
      rewrite (insert_insert_ne _ t b) by lia.
      by rewrite insert_insert_eq. }
    rewrite <- app_assoc. simpl app.
    unfold packed. simpl mem. simpl os.
    simpl allChunks. rewrite Hmem, Hmin', Hmax', Hcur'.
    split; [lia|]. split; [lia|]. split; [lia|]. split; [lia|].
    apply (tiling_rebuild (mem st) _ _ _ [] _ _ _ b); [done | |].
    + intros a Ha. specialize (Hlt0 _ Ha).
      rewrite !lookup_insert_ne; [done | lia | lia].
    + split; [done|]. split; [done|].
      exists (set_next b ct). split.
      { rewrite lookup_insert_ne by lia. apply lookup_insert_eq. }
      simpl. split; [done|]. split; [done|].
      apply (tiling_cast _ [b] _ b); [lia|]. apply Hb.
Qed.

Lemma packed_myAlloc fuel base st bytes f ln p st' l :
  0 < CHUNK_SIZE → CHUNK_SIZE + ALIGNMENT < SIZE_MOD →
  packed base st l → myAlloc fuel st bytes f ln = Some (p, st') →
  ∃ l', packed base st' l'.
Proof.
  intros HCS Hsmall Hpk Hrun.
  pose proof (packed_well_formed _ _ _ HCS Hpk)
    as (Hmin & Hcur & Hcm & Hmax & Hlay).
  pose proof (layout_chain _ _ _ _ _ HCS Hmin Hlay) as Hch.
  pose proof half_SIZE_MOD as [Hhalf0 Hhalf].
  apply (myAlloc_cases _ _ _ _ _ _ _ HCS) in Hrun
    as [(_ & _ & ->)
       |[(Hpos & chunk & last & c & Hhead & Hfind & Hnz & Hc & _ & ->)
        |(Hpos & last & Hmiss &
          [(_ & _ & ->)|(chunk & st1 & Hs & Hg & _ & ->)])]].
  - by exists l.
  - apply (packed_reused _ _ l); try done.
    + by eapply findFreeChunk_loop_member.
    + by eapply findFreeChunk_loop_fits.
  - by exists l.
  - destruct (sbrk (os st) _) as [r a'] eqn:Hsbrk. simpl in Hs. subst r.
    apply (grow_inv _ _ _ _ _ _ _ Hsbrk) in Hg as (Hfit & _ & ->).
    exists (l ++ [chunk]).
    apply (packed_grown base st l bytes f ln last chunk a'); try done.
    + unfold ALIGNMENT in *. lia.
    + destruct Hmiss as [?|[Hhead Hfind]]; [by left|]. right.
      split; [done|]. by eapply findFreeChunk_loop_tail.
Qed.

Lemma packed_step base st c st' l :
  0 < CHUNK_SIZE → CHUNK_SIZE + ALIGNMENT < SIZE_MOD →
  packed base st l → step st c st' →
  ∃ l', packed base st' l'.
Proof.
  intros HCS Hsmall Hpk Hstep.
  destruct Hstep as [fuel st bytes f ln p st' _ Hrun|fuel st ptr st' Hrun].
  - unfold allocWithStats in Hrun.
    by apply (packed_myAlloc _ base _ _ _ _ _ _ l HCS Hsmall) in Hrun.
  - by eapply packed_heapFree.
Qed.

Lemma packed_runs base st calls st' l :
  0 < CHUNK_SIZE → CHUNK_SIZE + ALIGNMENT < SIZE_MOD →
  packed base st l →
  runs st calls st' → ∃ l', packed base st' l'.
Proof.
  intros HCS Hsmall Hpk Hruns. revert l Hpk.
  induction Hruns as [|s0 c s1 calls s2 Hstep _ IH]; intros l Hpk;
    [by exists l|].
  destruct (packed_step _ _ _ _ _ HCS Hsmall Hpk Hstep) as (l1 & Hpk1).
  by apply (IH l1).
Qed.

(** * The claims on heaps the allocator laid out *)

(** ** The search, in terms of the fields *)

Lemma fits_true (c : heapChunk) sz :
  fits c sz = true ↔ isFree c = true ∧ sz <= size c.
Proof.
  unfold fits. rewrite andb_true_iff, Z.leb_le. done.
Qed.

Lemma fits_false (c : heapChunk) sz :
  fits c sz = false ↔ isFree c = false ∨ size c < sz.
Proof.
  unfold fits. rewrite andb_false_iff, Z.leb_gt. done.
Qed.

Lemma unfit_fields (h : gmap Z heapChunk) sz l :
  (∀ a, a ∈ l →
        ∃ c, h !! a = Some c ∧ (isFree c = false ∨ size c < sz)) ↔
  Forall (unfit h sz) l.
Proof.
  rewrite Forall_forall. unfold unfit.
  split; intros H a Ha; destruct (H a Ha) as (c & Hc & Hf);
    exists c; split; try done; by apply fits_false.
Qed.

(** C2: on a chain, [findFreeChunk] returns the first chunk in chain
    order whose [isFree] flag is set and whose [size] is at least the
    request, with [*last] at the chunk visited before it; when every
    chunk of the chain is occupied or smaller than the request it returns
    [NULL] with [*last] at the last chunk of the chain.  One of the two
    cases applies to every chain. *)
Theorem findFreeChunk_first_fit fuel st last sz l :
  chain (mem st) (allChunks st) l → (length l < fuel)%nat →
  (∀ l1 c l2 cc,
     l = l1 ++ c :: l2 →
     (∀ a, a ∈ l1 →
           ∃ ca, mem st !! a = Some ca ∧
                 (isFree ca = false ∨ size ca < sz)) →
     mem st !! c = Some cc → isFree cc = true → sz <= size cc →
     findFreeChunk fuel st last sz = Some (c, List.last l1 last)) ∧
  ((∀ a, a ∈ l →
         ∃ ca, mem st !! a = Some ca ∧
               (isFree ca = false ∨ size ca < sz)) →
   findFreeChunk fuel st last sz = Some (NULL, List.last l last)) ∧
  ((∃ l1 c l2 cc,
      l = l1 ++ c :: l2 ∧
      (∀ a, a ∈ l1 →
            ∃ ca, mem st !! a = Some ca ∧
                  (isFree ca = false ∨ size ca < sz)) ∧
      mem st !! c = Some cc ∧ isFree cc = true ∧ sz <= size cc) ∨
   (∀ a, a ∈ l →
         ∃ ca, mem st !! a = Some ca ∧
               (isFree ca = false ∨ size ca < sz))).
Proof.
  intros Hch Hfuel. split; [|split].
  - intros l1 c l2 cc -> Hskip Hc Hfree Hsz.
    apply lseg_app in Hch as (r & Hl1 & Hc2).
    destruct Hc2 as (-> & Hnn & _).
    apply (findFreeChunk_loop_hit _ _ _ _ cc); try done.
    + by apply unfit_fields.
    + by apply fits_true.
    + rewrite length_app in Hfuel. simpl in Hfuel. lia.
  - intros Hskip. apply findFreeChunk_loop_miss; try done.
    by apply unfit_fields.
  - destruct (chain_first_fit _ _ _ sz Hch)
      as [Hall|(l1 & c & l2 & cc & -> & Hl1 & _ & _ & Hc & Hf & _)].
    + right. by apply unfit_fields.
    + left. exists l1, c, l2, cc. apply fits_true in Hf as [Hfree Hsz].
      split_and!; try done. by apply unfit_fields.
Qed.

(** ** Arena failure *)

(** C6: when no chunk of the chain is both free and large enough (an
    empty chain included) and [sbrk] refuses the request, the call
    returns [NULL].  The chain head, every header, the break and the
    diagnostics are as before; [sbrkCalls] has gone up by one and the
    other counters hold what the update at the head of [allocWithStats]
    gave them. *)
Theorem allocWithStats_arena_failure fuel st l bytes f ln :
  0 < bytes →
  chain (mem st) (allChunks st) l → (length l < fuel)%nat →
  (∀ a, a ∈ l →
        ∃ c, mem st !! a = Some c ∧
             (isFree c = false ∨ size c < ALIGN bytes)) →
  (sbrk (os st) (add_sz (ALIGN bytes) CHUNK_SIZE)).1 = None →
  ∃ st',
    allocWithStats fuel st bytes f ln = Some (NULL, st') ∧
    allChunks st' = allChunks st ∧ mem st' = mem st ∧
    os st' = os st ∧ diag st' = diag st ∧
    sbrkCalls (mem_stats st') = wrap (sbrkCalls (mem_stats st) + 1) ∧
    allocCalls (mem_stats st') = to_int (allocCalls (mem_stats st) + 1) ∧
    totalAllocated (mem_stats st')
      = wrap (totalAllocated (mem_stats st) + bytes) ∧
    peakMemory (mem_stats st')
      = Z.max (peakMemory (mem_stats st))
              (wrap (totalAllocated (mem_stats st) + bytes)) ∧
    corruptedChunks (mem_stats st') = corruptedChunks (mem_stats st) ∧
    unfreedChunks (mem_stats st') = unfreedChunks (mem_stats st).
Proof.
  intros Hb Hch Hfuel Hskip Hsbrk.
  set (st0 := set_stats (count_request bytes (mem_stats st)) st).
  assert (Hmiss : missed fuel st0 (ALIGN bytes)
                    (List.last l (allChunks st))).
  { destruct l as [|a l'].
    - left. by split.
    - right. split; [destruct Hch as (Ha & Hnn & _); simpl; congruence|].
      apply findFreeChunk_loop_miss; try done. by apply unfit_fields. }
  unfold allocWithStats. fold st0.
  rewrite (myAlloc_miss _ _ _ _ _ _ Hb Hmiss).
  rewrite (grow_failure st0 _ _ Hsbrk). simpl.
  eexists. split; [done|]. simpl.
  unfold add_sz. split_and!; try done.
  destruct (Z.ltb_spec (peakMemory (mem_stats st))
              (wrap (totalAllocated (mem_stats st) + bytes))); lia.
Qed.

(** ** Release of a chunk of the chain *)

Lemma layout_head (h : gmap Z heapChunk) l p lo hi :
  layout h p lo hi l → p = hd NULL l.
Proof. destruct l; simpl; [done|]. by intros (-> & _). Qed.

(** On a laid-out chain the loop of [heapMergeChunks] absorbs the free
    chunks [run] that follow the chunk and stops at the first occupied
    one: no sum wraps. *)
Lemma absorb_run (h : gmap Z heapChunk) c sz p lo hi run rest :
  0 < CHUNK_SIZE → 0 <= c → 0 <= sz → c + CHUNK_SIZE + sz <= lo →
  hi <= SIZE_MOD → layout h p lo hi (run ++ rest) →
  (∀ x, x ∈ run → ∃ cx, h !! x = Some cx ∧ isFree cx = true) →
  (∀ r cr, head rest = Some r → h !! r = Some cr → isFree cr = false) →
  absorb h sz (run ++ rest) = (sz + footprint h run, hd NULL rest).
Proof.
  intros HCS Hc. revert sz p lo.
  induction run as [|x run IH]; intros sz p lo Hsz Hlo Hhi Hlay Hfree Hocc.
  - simpl. rewrite Z.add_0_r. destruct rest as [|r rest']; [done|].
    simpl in Hlay. destruct Hlay as (_ & _ & cr & Hr & _).
    simpl. rewrite Hr. by rewrite (Hocc r cr eq_refl Hr).
  - simpl in Hlay. destruct Hlay as (-> & Hx & cx & Hcx & _ & Hsx & Hend & Hl).
    destruct (Hfree x) as (cx' & Hcx' & Hfx); [by left|].
    assert (cx' = cx) as -> by congruence.
    simpl. rewrite Hcx, Hfx.
    assert (Hw : add_sz sz (add_sz CHUNK_SIZE (size cx))
                 = sz + CHUNK_SIZE + size cx).
    { unfold add_sz. rewrite (wrap_small (CHUNK_SIZE + size cx))
        by (unfold in_size_t; lia).
      rewrite wrap_small by (unfold in_size_t; lia). lia. }
    rewrite Hw.
    rewrite (IH _ (next cx) (x + CHUNK_SIZE + size cx)); try done; try lia.
    + f_equal. lia.
    + intros y Hy. apply Hfree. by right.
Qed.

(** Past a run of chunks the rest of the chain is laid out after the
    bytes the run takes. *)
Lemma layout_drop (h : gmap Z heapChunk) run rest p lo hi :
  0 < CHUNK_SIZE → lo <= hi → layout h p lo hi (run ++ rest) →
  lo + footprint h run <= hi ∧
  layout h (hd NULL rest) (lo + footprint h run) hi rest.
Proof.
  intros HCS. revert p lo.
  induction run as [|x run IH]; intros p lo Hle Hlay.
  - simpl in *. rewrite Z.add_0_r. split; [done|].
    by rewrite <- (layout_head _ _ _ _ _ Hlay).
  - simpl in Hlay. destruct Hlay as (-> & Hx & cx & Hcx & _ & Hsx & Hend & Hl).
    simpl. rewrite Hcx.
    destruct (IH _ _ Hend Hl) as [Hb Hr]. split; [lia|].
    eapply layout_lo; [|exact Hr]. lia.
Qed.

(** Release of the block of a chunk of a laid-out chain, when the
    chunks [run] that follow it are free and the one after them, if
    any, is occupied: the header of the chunk after the call, and the
    chain. *)
Lemma heapFree_in_chain fuel st l1 a run rest c :
  0 < CHUNK_SIZE →
  well_formed st (l1 ++ a :: run ++ rest) → mem st !! a = Some c →
  (∀ x, x ∈ run → ∃ cx, mem st !! x = Some cx ∧ isFree cx = true) →
  (∀ r cr, head rest = Some r → mem st !! r = Some cr → isFree cr = false) →
  (length (l1 ++ a :: run ++ rest) < fuel)%nat →
  let c' := mkChunk MAGIC_NUMBER (size c + footprint (mem st) run) true
              (hd NULL rest) (file c) (line c) in
  heapFree fuel st (a + CHUNK_SIZE)
    = Some (set_mem (<[a := c']> (mem st)) st) ∧
  well_formed (set_mem (<[a := c']> (mem st)) st) (l1 ++ a :: rest).
Proof.
  intros HCS (Hmin & Hle & Hmax & Htop & Hlay) Hc Hfree Hocc Hfuel c'.
  destruct (layout_app _ _ _ _ _ _ _ HCS Hmin Hlay)
    as (Hseg & Hlt & Ha & cc & Hcc & Hmagic & Hsz & Hend & Hl).
  assert (cc = c) as -> by congruence.
  assert (Hne : ∀ x, x ∈ run ++ rest → x ≠ a).
  { intros x Hx.
    destruct (layout_bounds _ _ _ _ _ x HCS Hl Hx) as [? _]. lia. }
  assert (Habs : absorb (<[a := set_isFree true c]> (mem st)) (size c)
                   (run ++ rest)
                 = (size c + footprint (mem st) run, hd NULL rest)).
  { rewrite (absorb_ext (mem st)).
    - apply (absorb_run _ a _ (next c) (a + CHUNK_SIZE + size c)
               (brk_cur (os st))); try done; lia.
    - intros x Hx. apply lookup_insert_ne. specialize (Hne x Hx). done. }
  split.
  - rewrite (heapFree_valid _ _ _ c);
      [|unfold NULL; lia|by rewrite Z.add_simpl_r|done].
    rewrite Z.add_simpl_r.
    destruct (decide (next c = NULL)) as [Hn|Hn].
    + assert (run ++ rest = []) as Hnil.
      { destruct (run ++ rest) as [|x t] eqn:E; [done|]. exfalso.
        simpl in Hl. destruct Hl as (Hp & Hx & _). unfold NULL in Hn. lia. }
      apply app_eq_nil in Hnil as [-> ->]. simpl.
      do 3 f_equal. unfold c'. simpl. rewrite Z.add_0_r.
      destruct c; simpl in *; by subst.
    + simpl.
      rewrite (heapMergeChunks_chain _ _ _ (set_isFree true c) (run ++ rest)).
      * simpl. rewrite Habs. simpl. rewrite insert_insert_eq.
        do 3 f_equal. unfold c', set_next, set_size. simpl.
        by rewrite Hmagic.
      * split; [done|]. split; [unfold NULL; lia|].
        exists (set_isFree true c). split; [apply lookup_insert_eq|].
        assert (Hpos : 0 < a + CHUNK_SIZE + size c) by lia.
        simpl. eapply lseg_ext; [|exact (layout_chain _ _ _ _ _ HCS Hpos Hl)].
        intros x Hx. apply lookup_insert_ne. specialize (Hne x Hx). done.
      * apply lookup_insert_eq.
      * rewrite length_app in Hfuel. simpl in Hfuel. lia.
  - unfold well_formed. simpl. split_and!; try done.
    apply (layout_rebuild (mem st) _ l1 a (run ++ rest)); [done| |].
    + intros x Hx. apply lookup_insert_ne. specialize (Hlt x Hx). lia.
    + intros lo' Hlo'.
      destruct (layout_drop _ _ _ _ _ _ HCS Hend Hl) as [Hb Hr].
      simpl. split; [done|]. split; [done|].
      exists c'. rewrite lookup_insert_eq. unfold c'. simpl.
      assert (0 <= footprint (mem st) run).
      { clear -HCS Hl. revert Hl. generalize (next c).
        generalize (a + CHUNK_SIZE + size c).
        induction run as [|x run IH]; intros lo p Hl; [done|].
        simpl in Hl. destruct Hl as (_ & _ & cx & Hcx & _ & ? & _ & Hl).
        simpl. rewrite Hcx. specialize (IH _ _ Hl). lia. }
      split_and!; try done; try lia.
      eapply layout_ext; [|eapply layout_lo; [|exact Hr]]; [|lia].
      intros x Hx. apply lookup_insert_ne.
      assert (x ≠ a) by (apply Hne, elem_of_app; by right). done.
Qed.

Lemma footprint_ext (h h' : gmap Z heapChunk) l :
  (∀ a, a ∈ l → h' !! a = h !! a) → footprint h' l = footprint h l.
Proof.
  induction l as [|x l IH]; intros Hl; [done|].
  simpl. rewrite (Hl x) by by left.
  rewrite IH; [done|]. intros y Hy. apply Hl. by right.
Qed.


(** C4: two chunks [a] and [b], one after the other in the chain and
    both occupied; [run] are the free chunks that follow [b] (none, when
    the chunk after [b] is occupied or [b] is the last).
    Later first: releasing [b] makes it absorb [run]; releasing [a] then
    absorbs [b], and [a] is one free chunk whose size is the two sizes
    and one header (and what [b] had absorbed), linked to what followed.
    Earlier first: releasing [a] leaves its size and its link to [b] as
    they were, since [b] is occupied; releasing [b] afterwards changes
    [b] alone: [a], free and right before it, keeps its size and still
    links to [b].  Merging never reaches backwards. *)
Theorem coalescing_is_forward_only fuel st l1 a b run rest ca cb :
  0 < CHUNK_SIZE →
  well_formed st (l1 ++ a :: b :: run ++ rest) →
  mem st !! a = Some ca → mem st !! b = Some cb →
  isFree ca = false → isFree cb = false →
  (∀ x, x ∈ run → ∃ cx, mem st !! x = Some cx ∧ isFree cx = true) →
  (∀ r cr, head rest = Some r → mem st !! r = Some cr → isFree cr = false) →
  (length (l1 ++ a :: b :: run ++ rest) < fuel)%nat →
  (∃ st1 st2,
     heapFree fuel st (b + CHUNK_SIZE) = Some st1 ∧
     mem st1 !! b
       = Some (mkChunk MAGIC_NUMBER (size cb + footprint (mem st) run) true
                 (hd NULL rest) (file cb) (line cb)) ∧
     mem st1 !! a = Some ca ∧
     chain (mem st1) (allChunks st1) (l1 ++ a :: b :: rest) ∧
     heapFree fuel st1 (a + CHUNK_SIZE) = Some st2 ∧
     mem st2 !! a
       = Some (mkChunk MAGIC_NUMBER
                 (size ca + CHUNK_SIZE + size cb + footprint (mem st) run)
                 true (hd NULL rest) (file ca) (line ca)) ∧
     chain (mem st2) (allChunks st2) (l1 ++ a :: rest)) ∧
  (∃ st1 st2,
     heapFree fuel st (a + CHUNK_SIZE) = Some st1 ∧
     mem st1 !! a
       = Some (mkChunk MAGIC_NUMBER (size ca) true b (file ca) (line ca)) ∧
     mem st1 !! b = Some cb ∧
     chain (mem st1) (allChunks st1) (l1 ++ a :: b :: run ++ rest) ∧
     heapFree fuel st1 (b + CHUNK_SIZE) = Some st2 ∧
     mem st2 !! b
       = Some (mkChunk MAGIC_NUMBER (size cb + footprint (mem st) run) true
                 (hd NULL rest) (file cb) (line cb)) ∧
     mem st2 !! a
       = Some (mkChunk MAGIC_NUMBER (size ca) true b (file ca) (line ca)) ∧
     chain (mem st2) (allChunks st2) (l1 ++ a :: b :: rest)).
Proof.
  intros HCS Hwf Ha Hb Hfa Hfb Hfree Hocc Hfuel.
  assert (Hnd : NoDup (l1 ++ a :: b :: run ++ rest)).
  { destruct Hwf as (Hmin & _ & _ & _ & Hlay).
    exact (chain_NoDup _ _ _ (layout_chain _ _ _ _ _ HCS Hmin Hlay)). }
  apply NoDup_app in Hnd as (_ & _ & Hnd).
  apply NoDup_cons in Hnd as [Hab Hnd].
  apply NoDup_cons in Hnd as [Hbr _].
  assert (Hne : a ≠ b) by (intros ->; apply Hab; by left).
  assert (Hrun : ∀ x, x ∈ run → x ≠ a ∧ x ≠ b).
  { intros x Hx. split; intros ->.
    - apply Hab. right. apply elem_of_app. by left.
    - apply Hbr. apply elem_of_app. by left. }
  assert (Hrest : ∀ r, head rest = Some r → r ≠ a ∧ r ≠ b).
  { intros r Hr. destruct rest as [|r' rest']; [done|]. injection Hr as ->.
    split; intros ->.
    - apply Hab. right. apply elem_of_app. right. by left.
    - apply Hbr. apply elem_of_app. right. by left. }
  assert (Hchain : ∀ st' l, well_formed st' l →
                            chain (mem st') (allChunks st') l).
  { intros st' l (Hmin & _ & _ & _ & Hlay).
    exact (layout_chain _ _ _ _ _ HCS Hmin Hlay). }
  split.
  - (* later first *)
    assert (Hwf1 := Hwf).
    rewrite (cons_middle a l1) in Hwf1. rewrite app_assoc in Hwf1.
    assert (Hfuel1 := Hfuel).
    rewrite (cons_middle a l1), app_assoc in Hfuel1.
    destruct (heapFree_in_chain _ _ _ _ _ _ _ HCS Hwf1 Hb Hfree Hocc Hfuel1)
      as [Hfr1 Hwf1'].
    rewrite <- app_assoc in Hwf1'. simpl in Hwf1'.
    set (cb' := mkChunk MAGIC_NUMBER (size cb + footprint (mem st) run) true
                  (hd NULL rest) (file cb) (line cb)) in *.
    set (st1 := set_mem (<[b := cb']> (mem st)) st) in *.
    assert (Ha1 : mem st1 !! a = Some ca).
    { simpl. by rewrite lookup_insert_ne. }
    destruct (heapFree_in_chain fuel st1 l1 a [b] rest ca HCS Hwf1' Ha1)
      as [Hfr2 Hwf2].
    { intros x Hx. apply list_elem_of_singleton in Hx as ->.
      exists cb'. split; [apply lookup_insert_eq|done]. }
    { intros r cr Hr Hcr. destruct (Hrest r Hr) as [_ Hrb].
      simpl in Hcr. rewrite lookup_insert_ne in Hcr by done.
      by apply (Hocc r cr). }
    { revert Hfuel. rewrite !length_app. simpl. rewrite length_app. lia. }
    exists st1. eexists. split; [exact Hfr1|].
    split; [apply lookup_insert_eq|]. split; [done|].
    split; [by apply Hchain|]. split; [exact Hfr2|]. split.
    + simpl. rewrite lookup_insert_eq. simpl. rewrite lookup_insert_eq.
      simpl. do 2 f_equal. lia.
    + by apply Hchain in Hwf2.
  - (* earlier first *)
    destruct (heapFree_in_chain fuel st l1 a [] (b :: run ++ rest) ca HCS Hwf Ha)
      as [Hfr1 Hwf1]; [by intros x Hx%elem_of_nil| |done|].
    { intros r cr [= <-] Hcr. congruence. }
    simpl in Hfr1, Hwf1. rewrite Z.add_0_r in Hfr1, Hwf1.
    set (ca' := mkChunk MAGIC_NUMBER (size ca) true b (file ca) (line ca))
      in *.
    set (st1 := set_mem (<[a := ca']> (mem st)) st) in *.
    assert (Hb1 : mem st1 !! b = Some cb).
    { simpl. by rewrite lookup_insert_ne. }
    assert (Hwf1' := Hwf1).
    rewrite (cons_middle a l1), app_assoc in Hwf1'.
    destruct (heapFree_in_chain fuel st1 (l1 ++ [a]) b run rest cb HCS Hwf1' Hb1)
      as [Hfr2 Hwf2].
    { intros x Hx. destruct (Hfree x Hx) as (cx & Hcx & Hfx).
      exists cx. split; [|done]. simpl. rewrite lookup_insert_ne; [done|].
      destruct (Hrun x Hx). done. }
    { intros r cr Hr Hcr. destruct (Hrest r Hr) as [Hra _].
      simpl in Hcr. rewrite lookup_insert_ne in Hcr by done.
      by apply (Hocc r cr). }
    { revert Hfuel. rewrite !length_app. simpl. rewrite !length_app.
      simpl. lia. }
    assert (Hfp : footprint (mem st1) run = footprint (mem st) run).
    { apply footprint_ext. intros x Hx. simpl. apply lookup_insert_ne.
      destruct (Hrun x Hx). done. }
    rewrite Hfp in Hfr2, Hwf2.
    rewrite <- app_assoc in Hwf2. simpl in Hwf2.
    exists st1. eexists. split; [exact Hfr1|].
    split; [apply lookup_insert_eq|]. split; [done|].
    split; [by apply Hchain|]. split; [exact Hfr2|]. split.
    + simpl. apply lookup_insert_eq.
    + split; [|by apply Hchain in Hwf2].
      simpl. rewrite lookup_insert_ne by done. apply lookup_insert_eq.
Qed.

(** ** The round trip, and when it does not come back *)






(** * Orderly runs *)

Lemma orderly_runs st calls st' : orderly st calls st' → runs st calls st'.
Proof.
  induction 1 as [|st c st1 calls st2 _ Hstep _ IH]; [constructor|].
  by econstructor.
Qed.

(** C7, amended: in every state reached from a fresh allocator by
    requests that fit the arena and releases of the null pointer or of
    blocks of chunks of the chain, every chunk reachable from the chain
    head is a header whose sentinel is the magic value. *)
Theorem reachable_chunks_carry_sentinel a calls st :
  0 < CHUNK_SIZE → CHUNK_SIZE + ALIGNMENT < SIZE_MOD →
  0 < brk_min a → brk_min a <= brk_cur a → brk_cur a <= brk_max a →
  brk_max a <= SIZE_MOD →
  orderly (init_state a) calls st →
  ∀ x, in_chain st x →
       ∃ c, mem st !! x = Some c ∧ magic c = MAGIC_NUMBER.
Proof.
  intros HCS _ _ _ _ _ Hruns%orderly_runs x Hin.
  pose proof (closed_runs _ _ _ HCS (closed_init a) Hruns) as Hcl.
  destruct (closed_in_chain _ _ Hcl Hin) as [c Hc].
  exists c. split; [done|]. destruct Hcl as (Hst & _). by eapply Hst.
Qed.

(** C8, amended: with a header size that is a positive multiple of 8,
    the size a request is aligned to is a multiple of 8, and in every
    state reached from a fresh allocator by requests that fit the arena
    and releases of the null pointer or of blocks of chunks of the
    chain, every chunk reachable from the chain head has a size that is
    a multiple of 8. *)
Theorem sizes_are_multiples_of_8 a calls st :
  0 < CHUNK_SIZE → CHUNK_SIZE + ALIGNMENT < SIZE_MOD → (8 | CHUNK_SIZE) →
  0 < brk_min a → brk_min a <= brk_cur a → brk_cur a <= brk_max a →
  brk_max a <= SIZE_MOD →
  orderly (init_state a) calls st →
  (∀ bytes, (8 | ALIGN bytes)) ∧
  (∀ x c, in_chain st x → mem st !! x = Some c → (8 | size c)).
Proof.
  intros HCS _ Hdiv _ _ _ _ Hruns%orderly_runs.
  split; [apply divide_ALIGN|].
  assert (Hal : aligned (mem st)).
  { assert (Hinit : aligned (mem (init_state a))) by (intros ?? [=]).
    induction Hruns as [|s0 c s1 calls s2 Hstep _ IH]; [done|].
    apply IH. by eapply aligned_step. }
  intros x c _. apply Hal.
Qed.

(** X6: along such a run no corruption is counted or reported, and
    [unfreedChunks] is still zero. *)
Theorem orderly_runs_count_no_corruption a calls st :
  0 < CHUNK_SIZE → CHUNK_SIZE + ALIGNMENT < SIZE_MOD →
  0 < brk_min a → brk_min a <= brk_cur a → brk_cur a <= brk_max a →
  brk_max a <= SIZE_MOD →
  orderly (init_state a) calls st →
  corruptedChunks (mem_stats st) = 0 ∧ diag st = [] ∧
  unfreedChunks (mem_stats st) = 0.
Proof.
  intros HCS _ _ _ _ _ Hruns%orderly_runs.
  assert (Hinit : corruptedChunks (mem_stats (init_state a)) = 0 ∧
                  diag (init_state a) = [] ∧
                  unfreedChunks (mem_stats (init_state a)) = 0) by done.
  pose proof (closed_init a) as Hcl.
  induction Hruns as [|s0 c s1 calls s2 Hstep _ IH]; [done|].
  apply IH; [|by eapply closed_step].
  destruct Hinit as (H1 & H2 & H3).
  destruct Hstep as [fuel s0 bytes f l p s1 _ Hrun|fuel s0 ptr s1 Hrun].
  - unfold allocWithStats in Hrun.
    apply myAlloc_quiet in Hrun as (-> & -> & ->). done.
  - destruct Hcl as (Hst & _).
    apply (heapFree_quiet _ _ _ _ Hst) in Hrun as (-> & ->). done.
Qed.

(** X15: along such a run the chunks reachable from the head form a
    finite chain without repetition, every one of them carries the
    sentinel and lies inside the arena, and each ends (header and
    payload) before any later chunk of the chain begins. *)
Theorem chain_stays_laid_out a calls st :
  0 < CHUNK_SIZE → CHUNK_SIZE + ALIGNMENT < SIZE_MOD →
  0 < brk_min a → brk_min a <= brk_cur a → brk_cur a <= brk_max a →
  brk_max a <= SIZE_MOD →
  orderly (init_state a) calls st →
  ∃ l,
    chain (mem st) (allChunks st) l ∧ NoDup l ∧
    (∀ x, x ∈ l →
          ∃ c, mem st !! x = Some c ∧ magic c = MAGIC_NUMBER ∧
               brk_min (os st) <= x ∧ 0 <= size c ∧
               x + CHUNK_SIZE + size c <= brk_cur (os st)) ∧
    (∀ l1 x l2 c y,
       l = l1 ++ x :: l2 → mem st !! x = Some c → y ∈ l2 →
       x + CHUNK_SIZE + size c <= y).
Proof.
  intros HCS Hsmall Hmin Hcur Hcm Hmax Hruns%orderly_runs.
  destruct (well_formed_runs _ _ _ HCS Hsmall Hmin Hcur Hcm Hmax Hruns)
    as (l & Hmin' & _ & _ & _ & Hlay).
  pose proof (layout_chain _ _ _ _ _ HCS Hmin' Hlay) as Hch.
  exists l. split; [done|]. split; [by eapply chain_NoDup|]. split.
  - intros x Hx.
    destruct (layout_bounds _ _ _ _ _ _ HCS Hlay Hx)
      as (Hlo & c & Hc & Hm & Hsz & Hend).
    exists c. done.
  - intros l1 x l2 c y -> Hc Hy.
    destruct (layout_app _ _ _ _ _ _ _ HCS Hmin' Hlay)
      as (_ & _ & _ & c' & Hc' & _ & _ & _ & Hrest).
    rewrite Hc in Hc'. injection Hc' as <-.
    by destruct (layout_bounds _ _ _ _ _ _ HCS Hrest Hy).
Qed.

(** X18: along such a run the chain tiles the part of the arena
    obtained since the start: its first chunk sits at the initial break,
    every chunk is followed at once, at the end of its payload, by its
    successor in the chain, the last one ends at the current break, and
    the headers and payloads of the chain add up to the distance the
    break has moved. *)
Theorem chain_tiles_the_arena a calls st :
  0 < CHUNK_SIZE → CHUNK_SIZE + ALIGNMENT < SIZE_MOD →
  0 < brk_min a → brk_min a <= brk_cur a → brk_cur a <= brk_max a →
  brk_max a <= SIZE_MOD →
  orderly (init_state a) calls st →
  ∃ l,
    chain (mem st) (allChunks st) l ∧
    hd (brk_cur (os st)) l = brk_cur a ∧
    (∀ l1 x l2 c,
       l = l1 ++ x :: l2 → mem st !! x = Some c →
       x + CHUNK_SIZE + size c = hd (brk_cur (os st)) l2 ∧
       next c = hd NULL l2) ∧
    footprint (mem st) l = brk_cur (os st) - brk_cur a.
Proof.
  intros HCS Hsmall Hmin Hcur Hcm Hmax Hruns%orderly_runs.
  assert (Hinit : packed (brk_cur a) (init_state a) [])
    by (by repeat split).
  destruct (packed_runs _ _ _ _ _ HCS Hsmall Hinit Hruns) as (l & Hpk).
  pose proof (packed_well_formed _ _ _ HCS Hpk) as (Hmin' & _ & _ & _ & Hlay).
  destruct Hpk as (_ & _ & _ & _ & Htil).
  exists l. split; [by eapply layout_chain|].
  split; [by destruct (tiling_hd _ _ _ _ _ Htil)|]. split.
  - intros l1 x l2 c -> Hc.
    destruct (tiling_app _ _ _ _ _ _ _ Htil) as (c' & Hc' & _ & _ & Hrest).
    rewrite Hc in Hc'. injection Hc' as <-.
    by destruct (tiling_hd _ _ _ _ _ Hrest) as [-> ->].
  - apply (tiling_footprint _ _ _ _ _ Htil).
Qed.

(** ** Every proper call returns *)

Lemma in_chain_elem st l x :
  chain (mem st) (allChunks st) l → in_chain st x → x ∈ l.
Proof.
  intros Hch Hin. induction Hin as [Hnz|a c _ IH Hc Hnz].
  - destruct l as [|y t]; [done|]. destruct Hch as (-> & _). by left.
  - apply list_elem_of_split in IH as (l1 & l2 & ->).
    apply lseg_app in Hch as (r & _ & Hr).
    destruct Hr as (-> & _ & c' & Hc' & Hrest).
    assert (c' = c) as -> by congruence.
    destruct l2 as [|y t]; [done|]. destruct Hrest as (-> & _).
    apply elem_of_app. right. right. by left.
Qed.

Lemma in_chain_hd st x : allChunks st = x → x ≠ NULL → in_chain st x.
Proof. intros <- Hx. by apply in_chain_head. Qed.

Lemma in_chain_step st a c x :
  in_chain st a → mem st !! a = Some c → next c = x → x ≠ NULL →
  in_chain st x.
Proof. intros Ha Hc <- Hx. by apply (in_chain_next _ a c). Qed.

Lemma elem_in_chain st l x :
  chain (mem st) (allChunks st) l → x ∈ l → in_chain st x.
Proof.
  intros Hch Hx. apply list_elem_of_split in Hx as (l1 & l2 & ->).
  revert x l2 Hch. induction l1 as [|y l1 IH] using rev_ind;
    intros x l2 Hch.
  - destruct Hch as (Hp & Hnz & _). simpl in Hp. rewrite <- Hp.
    apply in_chain_head. by rewrite Hp.
  - rewrite <- app_assoc in Hch. simpl in Hch.
    pose proof (IH _ _ Hch) as Hy.
    apply lseg_app in Hch as (r & _ & Hr).
    destruct Hr as (-> & _ & cy & Hcy & Hx).
    destruct Hx as (Hn & Hnz & _). rewrite <- Hn.
    apply (in_chain_next _ _ cy Hy Hcy). by rewrite Hn.
Qed.

(** The chunks after a chunk: those that are free, up to the first that
    is not. *)
Lemma free_run_split (h : gmap Z heapChunk) tail :
  ∃ run rest,
    tail = run ++ rest ∧
    (∀ x, x ∈ run → ∃ cx, h !! x = Some cx ∧ isFree cx = true) ∧
    (∀ r cr, head rest = Some r → h !! r = Some cr → isFree cr = false).
Proof.
  induction tail as [|x tail (run & rest & -> & Hrun & Hrest)].
  - exists [], []. split; [done|]. split; [by intros x Hx%elem_of_nil|done].
  - destruct (h !! x) as [cx|] eqn:Hcx.
    + destruct (isFree cx) eqn:Hfx.
      * exists (x :: run), rest. split; [done|]. split; [|done].
        intros y [->|Hy]%elem_of_cons; [by exists cx|by apply Hrun].
      * exists [], (x :: run ++ rest). split; [done|].
        split; [by intros y Hy%elem_of_nil|].
        intros r cr [= <-] Hcr. congruence.
    + exists [], (x :: run ++ rest). split; [done|].
      split; [by intros y Hy%elem_of_nil|].
      intros r cr [= <-] Hcr. congruence.
Qed.

Lemma heapFree_chain_returns fuel st l ptr :
  0 < CHUNK_SIZE → well_formed st l → releasable st ptr →
  (length l < fuel)%nat →
  ∃ st', heapFree fuel st ptr = Some st'.
Proof.
  intros HCS Hwf [->|Hin] Hfuel.
  { exists st. unfold heapFree. by destruct (decide (NULL = NULL)). }
  pose proof Hwf as (Hmin & _ & _ & _ & Hlay).
  pose proof (layout_chain _ _ _ _ _ HCS Hmin Hlay) as Hch.
  pose proof (in_chain_elem _ _ _ Hch Hin) as Hx.
  destruct (layout_bounds _ _ _ _ _ _ HCS Hlay Hx) as (_ & c & Hc & _).
  apply list_elem_of_split in Hx as (l1 & tail & ->).
  destruct (free_run_split (mem st) tail) as (run & rest & -> & Hrun & Hrest).
  destruct (heapFree_in_chain _ _ _ _ _ _ _ HCS Hwf Hc Hrun Hrest Hfuel)
    as [Hfr _].
  rewrite Z.sub_simpl_r in Hfr. eauto.
Qed.

Lemma sbrk_fits a s b a' :
  0 < CHUNK_SIZE → 0 <= s → brk_cur a + CHUNK_SIZE + s < SIZE_MOD →
  0 <= brk_cur a →
  sbrk a (add_sz s CHUNK_SIZE) = (Some b, a') →
  b + CHUNK_SIZE <= brk_cur a'.
Proof.
  intros HCS Hs Hfit Hcur Hsbrk.
  pose proof half_SIZE_MOD as [Hh0 Hh1].
  assert (Hw : wrap (s + CHUNK_SIZE) = s + CHUNK_SIZE)
    by (apply wrap_small; unfold in_size_t; lia).
  assert (Hww : wrap (wrap (s + CHUNK_SIZE)) = s + CHUNK_SIZE)
    by (by rewrite !Hw).
  unfold sbrk, add_sz, to_intptr in Hsbrk. rewrite Hww in Hsbrk.
  destruct (Z.ltb_spec (s + CHUNK_SIZE) (2 ^ 63)).
  - destruct (Z.ltb_spec 0 (s + CHUNK_SIZE)); [|lia].
    destruct (_ && _); [|done]. injection Hsbrk as <- <-. simpl. lia.
  - destruct (Z.ltb_spec 0 (s + CHUNK_SIZE - SIZE_MOD)); [lia|].
    destruct (Z.eqb_spec (s + CHUNK_SIZE - SIZE_MOD) 0); [lia|].
    destruct (Z.ltb_spec (brk_cur a + (s + CHUNK_SIZE - SIZE_MOD)) 0);
      [done|lia].
Qed.

(** X11: in a laid-out heap, with fuel for the length of the chain, an
    allocate call whose request fits the arena returns: with [NULL], or
    with a pointer and the state it leaves. *)
Theorem allocWithStats_returns fuel st l bytes f ln :
  0 < CHUNK_SIZE →
  well_formed st l → fits_arena st bytes → (length l < fuel)%nat →
  ∃ p st', allocWithStats fuel st bytes f ln = Some (p, st').
Proof.
  intros HCS Hwf Hfits Hfuel. unfold allocWithStats.
  set (st0 := set_stats (count_request bytes (mem_stats st)) st).
  destruct Hwf as (Hmin & Hcur & Hcm & Hmax & Hlay).
  pose proof (layout_chain _ _ _ _ _ HCS Hmin Hlay) as Hch.
  destruct (Z.leb_spec bytes 0) as [Hle|Hpos].
  { unfold myAlloc. destruct (Z.leb_spec bytes 0); [eauto | lia]. }
  destruct (chain_first_fit _ _ _ (ALIGN bytes) Hch)
    as [Hall|(l1 & c & l2 & cc & -> & Hun & Hseg & Hcnz & Hcc & Hfit & _)].
  - assert (Hmiss : missed fuel st0 (ALIGN bytes) (List.last l NULL)).
    { unfold missed. destruct (list_snoc_cases l) as [->|(l' & t & Hl)].
      - left. done.
      - right. assert (Hhead : allChunks st0 ≠ NULL).
        { rewrite Hl in Hch. destruct l'; by destruct Hch as (<- & ? & _). }
        split; [done|]. unfold findFreeChunk.
        rewrite (findFreeChunk_loop_miss _ _ _ l) by done.
        rewrite Hl, !last_last. done. }
    rewrite (myAlloc_miss _ _ _ _ _ _ Hpos Hmiss).
    destruct (sbrk (os st0) (add_sz (ALIGN bytes) CHUNK_SIZE))
      as [[b|] a'] eqn:Hsbrk.
    + pose proof (ALIGN_range bytes) as [Hs _].
      assert (Hb : b + CHUNK_SIZE <= brk_cur a').
      { apply (sbrk_fits (os st0) (ALIGN bytes)); try done;
          unfold fits_arena in Hfits; simpl; lia. }
      rewrite (grow_success _ _ _ _ _ Hsbrk Hb). simpl. eauto.
    + rewrite grow_failure by (by rewrite Hsbrk). simpl. eauto.
  - assert (Hhead : allChunks st0 ≠ NULL) by (by eapply lseg_head_nonnull).
    assert (Hfind :
      findFreeChunk fuel st0 (allChunks st0) (ALIGN bytes)
      = Some (c, List.last l1 (allChunks st0))).
    { unfold findFreeChunk.
      apply (findFreeChunk_loop_hit _ _ _ _ cc); try done.
      rewrite length_app in Hfuel. simpl in Hfuel. lia. }
    rewrite (myAlloc_hit _ _ _ _ _ _ _ cc HCS Hpos Hhead Hfind Hcnz Hcc).
    eauto.
Qed.

(** X17: in a laid-out heap, with fuel for the length of the chain, the
    release of the block of a chunk of the chain returns; afterwards the
    audit returns for every fuel above the chain's length, it prints no
    line for the chunk released, and every line it prints was printed by
    an audit of the state before the release. *)
Theorem heapFree_block_leaves_audit fuel st l ptr :
  0 < CHUNK_SIZE → well_formed st l →
  in_chain st (ptr - CHUNK_SIZE) → (length l < fuel)%nat →
  ∃ st' l',
    heapFree fuel st ptr = Some st' ∧
    chain (mem st') (allChunks st') l' ∧
    ∀ fuel', (length l' < fuel')%nat →
      ∃ st'' out,
        checkForUnfreedChunks fuel' st' = Some (st'', out) ∧
        (∀ x, x ∈ out → leak_chunk x ≠ ptr - CHUNK_SIZE) ∧
        ∀ fuel0 s0 out0,
          checkForUnfreedChunks fuel0 st = Some (s0, out0) →
          ∀ x, x ∈ out → x ∈ out0.
Proof.
  intros HCS Hwf Hin Hfuel.
  destruct (heapFree_chain_returns fuel st l ptr HCS Hwf (or_intror Hin)
              Hfuel) as (st' & Hrun).
  pose proof Hwf as (Hmin & _ & _ & _ & Hlay).
  pose proof (layout_chain _ _ _ _ _ HCS Hmin Hlay) as Hch.
  assert (Hp : ptr ≠ NULL).
  { pose proof (in_chain_elem _ _ _ Hch Hin) as Hx.
    destruct (layout_bounds _ _ _ _ _ _ HCS Hlay Hx) as (? & _).
    unfold NULL. lia. }
  destruct (well_formed_heapFree_in _ _ _ _ _ HCS Hwf Hrun)
    as (l' & Hwf' & Hsub).
  destruct (heapFree_mem _ _ _ _ Hrun Hp) as ((c' & Hc' & Hfree) & Hframe).
  pose proof Hwf' as (Hmin' & _ & _ & _ & Hlay').
  pose proof (layout_chain _ _ _ _ _ HCS Hmin' Hlay') as Hch'.
  exists st', l'. split; [done|]. split; [done|]. intros fuel' Hfuel'.
  assert (Hout : ∀ x, x ∈ leaks_of (mem st') l' →
            leak_chunk x ≠ ptr - CHUNK_SIZE ∧ x ∈ leaks_of (mem st) l).
  { intros x Hx. apply leaks_of_spec in Hx as (a & ca & Ha & Hca & Hocc & ->).
    simpl. assert (Hne : a ≠ ptr - CHUNK_SIZE).
    { intros ->. rewrite Hc' in Hca. injection Hca as <-. congruence. }
    split; [done|]. apply leaks_of_spec. exists a, ca.
    rewrite <- (Hframe a Hne). auto. }
  eexists _, (leaks_of (mem st') l'). split; [|split].
  - unfold checkForUnfreedChunks.
    by rewrite (checkForUnfreedChunks_loop_chain _ _ _ l').
  - intros x Hx. by apply Hout.
  - intros fuel0 s0 out0 Hold x Hx.
    rewrite (checkForUnfreedChunks_returned _ _ _ _ _ Hch Hold).
    by apply Hout.
Qed.

(** ** The call counter is an [int] *)

Lemma to_int_small z : - 2 ^ 31 <= z < 2 ^ 31 → to_int z = z.
Proof. intros H. unfold to_int. rewrite Z.mod_small; lia. Qed.

Lemma to_int_range z : - 2 ^ 31 <= to_int z < 2 ^ 31.
Proof.
  unfold to_int.
  pose proof (Z.mod_pos_bound (z + 2 ^ 31) (2 ^ 32) ltac:(lia)). lia.
Qed.

Lemma to_int_add a b : to_int (to_int a + b) = to_int (a + b).
Proof.
  unfold to_int. f_equal.
  replace ((a + 2 ^ 31) mod 2 ^ 32 - 2 ^ 31 + b + 2 ^ 31)
    with ((a + 2 ^ 31) mod 2 ^ 32 + b) by lia.
  rewrite Zplus_mod_idemp_l. f_equal. lia.
Qed.

Lemma allocations_nonneg calls : 0 <= allocations calls.
Proof.
  induction calls as [|[bytes f l|ptr] calls IH]; simpl; lia.
Qed.

(** X5: [allocCalls] is an [int].  Along any run it moves by the number
    of allocate calls made, whatever their size and whether or not they
    returned a block, counted in 32-bit two's complement; releases do
    not count.  While the total stays below 2^31 it is the exact
    number. *)
Theorem allocCalls_counts_every_request st calls st' :
  - 2 ^ 31 <= allocCalls (mem_stats st) < 2 ^ 31 →
  runs st calls st' →
  allocCalls (mem_stats st')
    = to_int (allocCalls (mem_stats st) + allocations calls) ∧
  (allocCalls (mem_stats st) + allocations calls < 2 ^ 31 →
   allocCalls (mem_stats st')
     = allocCalls (mem_stats st) + allocations calls).
Proof.
  intros Hrange Hruns.
  assert (Hmod : allocCalls (mem_stats st')
                 = to_int (allocCalls (mem_stats st) + allocations calls)).
  { induction Hruns as [|st c st1 calls st2 Hstep _ IH]; simpl.
    - rewrite Z.add_0_r. by rewrite to_int_small.
    - destruct Hstep as [fuel st bytes f l p st1 _ Hrun|fuel st ptr st1 Hrun].
      + unfold allocWithStats in Hrun.
        apply myAlloc_stats in Hrun as (Hc & _). simpl in Hc.
        rewrite IH by (rewrite Hc; apply to_int_range).
        rewrite Hc, to_int_add. f_equal. lia.
      + apply heapFree_stats in Hrun as (Hc & _).
        rewrite IH by (by rewrite Hc). by rewrite Hc. }
  split; [done|]. intros Hlt. rewrite Hmod. apply to_int_small.
  pose proof (allocations_nonneg calls). lia.
Qed.

(** ** A request within one header of the top of [size_t] *)

(** X13: the sum of the aligned size and the header size is taken modulo
    2^64.  When it wraps (the aligned request is within one header of
    2^64) and the search finds nothing to reuse, the call asks [sbrk] for
    the wrapped sum only.  [sbrk] grants it, so the call does not take
    the failure exit; the break moves by less than one header, and the
    header that the call then stores at the old break ends beyond the
    new one: the call has no result over the records. *)
Theorem allocWithStats_header_sum_wraps fuel st bytes f ln last :
  0 < CHUNK_SIZE → CHUNK_SIZE <= 2 ^ 63 → in_size_t bytes →
  SIZE_MOD - CHUNK_SIZE <= ALIGN bytes →
  missed fuel st (ALIGN bytes) last →
  brk_min (os st)
    <= brk_cur (os st) + (ALIGN bytes + CHUNK_SIZE - SIZE_MOD)
    <= brk_max (os st) →
  ∃ a',
    sbrk (os st) (add_sz (ALIGN bytes) CHUNK_SIZE)
      = (Some (brk_cur (os st)), a') ∧
    brk_cur a'
      = brk_cur (os st) + (ALIGN bytes + CHUNK_SIZE - SIZE_MOD) ∧
    brk_cur a' < brk_cur (os st) + CHUNK_SIZE ∧
    allocWithStats fuel st bytes f ln = None.
Proof.
  intros HCS Hhalf Hb Hbig Hmiss Hroom.
  pose proof half_SIZE_MOD as [Hhalf0 Hhalf1].
  pose proof (ALIGN_range bytes) as Hs. unfold in_size_t in *.
  assert (Hpos : 0 < bytes).
  { destruct (decide (bytes = 0)) as [->|]; [|lia].
    rewrite ALIGN_0 in Hbig. lia. }
  set (inc := ALIGN bytes + CHUNK_SIZE - SIZE_MOD) in *.
  assert (Hinc : to_intptr (add_sz (ALIGN bytes) CHUNK_SIZE) = inc).
  { unfold add_sz. rewrite wrap_once by lia. unfold to_intptr.
    rewrite !(wrap_small (ALIGN bytes + CHUNK_SIZE - SIZE_MOD))
      by (unfold in_size_t; lia).
    destruct (Z.ltb_spec (ALIGN bytes + CHUNK_SIZE - SIZE_MOD) (2 ^ 63));
      unfold inc; lia. }
  assert (Hsbrk : ∃ a',
    sbrk (os st) (add_sz (ALIGN bytes) CHUNK_SIZE)
      = (Some (brk_cur (os st)), a') ∧
    brk_cur a' = brk_cur (os st) + inc).
  { destruct (decide (inc = 0)) as [H0|H0].
    - exists (os st). unfold sbrk. rewrite Hinc, H0. simpl.
      split; [done|lia].
    - rewrite sbrk_up by (rewrite Hinc; unfold inc; lia). rewrite Hinc.
      destruct (Z.leb_spec (brk_min (os st)) (brk_cur (os st) + inc));
        [|lia].
      destruct (Z.leb_spec (brk_cur (os st) + inc) (brk_max (os st)));
        [|lia].
      simpl. eexists. split; [done|]. done. }
  destruct Hsbrk as (a' & Hsbrk & Hbrk).
  exists a'. split; [done|]. split; [done|]. split; [unfold inc in *; lia|].
  unfold allocWithStats.
  rewrite (myAlloc_miss fuel
             (set_stats (count_request bytes (mem_stats st)) st)
             bytes f ln last Hpos Hmiss).
  rewrite (grow_outside _ _ _ (brk_cur (os st)) a'); [done|exact Hsbrk|].
  unfold inc in *. lia.
Qed.

(** ** The dump and the origin labels *)

(** X4: on a chain whose chunks are all occupied (each then holds the
    file and line of the call that handed it out), with fuel for its
    length, the dump lists every chunk of the chain once, in chain
    order, with the size, line and file its header holds, marked not
    free; its entries are, line for line, what the audit prints in the
    same state. *)
Theorem printAll_lists_the_chain fuel st l :
  chain (mem st) (allChunks st) l → (length l < fuel)%nat →
  (∀ a, a ∈ l → ∃ c, mem st !! a = Some c ∧ isFree c = false) →
  ∃ d,
    printAll fuel st = Some d ∧
    dump_chunk <$> d = l ∧
    (∀ e, e ∈ d →
          ∃ c, mem st !! dump_chunk e = Some c ∧
               e = mkDump (dump_chunk e) (size c) (line c) (file c) false) ∧
    snd <$> checkForUnfreedChunks fuel st
      = Some ((λ e, mkLeak (dump_chunk e) (dump_file e) (dump_line e))
                <$> d).
Proof.
  intros Hch Hfuel Hocc. exists (dumps_of (mem st) l).
  destruct (dumps_of_chain _ _ _ Hch) as (H1 & H2 & H3).
  assert (Hall : ∀ e, e ∈ dumps_of (mem st) l → dump_free e = false).
  { intros e He. pose proof He as Hin.
    apply H3 in He as (c & Hc & He).
    assert (Hel : dump_chunk e ∈ l).
    { rewrite <- H1. apply list_elem_of_fmap. by exists e. }
    destruct (Hocc _ Hel) as (c' & Hc' & Hf).
    assert (c' = c) as -> by congruence.
    rewrite He. simpl. done. }
  split; [unfold printAll; by rewrite (printAll_loop_chain _ _ _ l)|].
  split; [done|]. split.
  - intros e He. pose proof (Hall e He) as Hf.
    apply H3 in He as (c & Hc & He). exists c. split; [done|].
    rewrite He in Hf. simpl in Hf. rewrite He. simpl. by rewrite Hf.
  - unfold checkForUnfreedChunks.
    rewrite (checkForUnfreedChunks_loop_chain _ _ _ l) by done.
    simpl. rewrite <- H2. unfold dump_leaks. do 2 f_equal.
    clear -Hall. induction (dumps_of (mem st) l) as [|e d IH]; [done|].
    rewrite filter_cons_True by (apply Hall; by left).
    f_equal. apply IH. intros e' He'. apply Hall. by right.
Qed.

(** X2: for every path, no character of the name [extractFilename]
    returns is a slash or a backslash; the name is a suffix of the path,
    preceded by nothing or by a part that ends in a slash or a
    backslash; applying the function again changes nothing. *)
Theorem extractFilename_is_separator_free_suffix path :
  (∀ c, In c (list_ascii_of_string (extractFilename path)) →
        c ≠ "/"%char ∧ c ≠ "\"%char) ∧
  (∃ dir,
     path = (dir ++ extractFilename path)%string ∧
     (dir = EmptyString ∨
      ∃ d sep, dir = (d ++ String sep EmptyString)%string ∧
               (sep = "/"%char ∨ sep = "\"%char))) ∧
  extractFilename (extractFilename path) = extractFilename path.
Proof.
  assert (Hsep : ∀ c, is_separator c = true ↔ c = "/"%char ∨ c = "\"%char).
  { intros c. unfold is_separator.
    rewrite orb_true_iff, !Ascii.eqb_eq. done. }
  split.
  { intros c Hc. pose proof (extractFilename_no_separator path) as Hno.
    split; intros ->; apply Hno; eexists; (split; [exact Hc|done]). }
  destruct (last_separator path) as [Hno|(dir & sep & name & -> & Hs & Hno)].
  - unfold extractFilename.
    rewrite !(extractFilename_loop_plain path) by done.
    split; [|done].
    exists EmptyString. split; [done | by left].
  - unfold extractFilename.
    rewrite (extractFilename_loop_last dir sep name) by done.
    split; [|by apply extractFilename_loop_plain].
    exists (dir ++ String sep EmptyString)%string. split.
    + clear. induction dir as [|c dir IH]; [done|].
      change (String c (dir ++ String sep name)%string
              = String c ((dir ++ String sep EmptyString) ++ name)%string).
      by f_equal.
    + right. exists dir, sep. split; [done|]. by apply Hsep.
Qed.

End Allocator.

(** * The theorems at concrete states

    Header size 48: the LP64 layout of [heapChunk] (an [int], a [size_t],
    a [bool], two pointers and an [int], each field aligned). *)

Lemma heapFree_corrupted_marks_free_witness :
  ∃ st',
    heapFree 48 1 (ex_overwritten 48) (ex_a + 48) = Some st' ∧
    corruptedChunks (mem_stats st')
      = corruptedChunks (mem_stats (ex_overwritten 48)) + 1 ∧
    mem st' !! (ex_a + 48 - 48)
      = Some (set_isFree true (ex_chunk 0 8 false NULL)) ∧
    mem st' ≠ mem (ex_overwritten 48).
Proof.
  apply (heapFree_corrupted_marks_free 48 1 (ex_overwritten 48) (ex_a + 48)
           (ex_chunk 0 8 false NULL)).
  - vm_compute. discriminate.
  - vm_compute. reflexivity.
  - vm_compute. discriminate.
  - reflexivity.
  - reflexivity.
Defined.

Lemma myAlloc_splits_on_reuse_witness :
  ALIGN 5 <= 64 ∧
  (48 + ALIGNMENT <= 64 - ALIGN 5 →
   ∃ st' f' l',
     myAlloc 48 3 (ex_state 48 false true) 5 "main.c" 245
       = Some (ex_b 48 + 48, st') ∧
     allChunks st' = ex_a ∧
     mem st' !! ex_b 48 =
       Some (mkChunk MAGIC_NUMBER (ALIGN 5) false (ex_b 48 + ALIGN 5 + 48)
               "main.c" 245) ∧
     mem st' !! (ex_b 48 + ALIGN 5 + 48) =
       Some (mkChunk MAGIC_NUMBER (64 - ALIGN 5 - 48) true NULL f' l') ∧
     ∀ a, a ≠ ex_b 48 → a ≠ ex_b 48 + ALIGN 5 + 48 →
          mem st' !! a = mem (ex_state 48 false true) !! a) ∧
  (64 - ALIGN 5 < 48 + ALIGNMENT →
   myAlloc 48 3 (ex_state 48 false true) 5 "main.c" 245 =
   Some (ex_b 48 + 48,
         set_mem (<[ex_b 48 := mkChunk MAGIC_NUMBER 64 false NULL
                               "main.c" 245]>
                    (mem (ex_state 48 false true)))
           (ex_state 48 false true))).
Proof.
  apply (myAlloc_splits_on_reuse 48 3 (ex_state 48 false true) 5
           "main.c" 245 (ex_b 48) ex_a
           (ex_chunk MAGIC_NUMBER 64 true NULL)).
  - lia.
  - vm_compute. reflexivity.
  - lia.
  - vm_compute. discriminate.
  - vm_compute. reflexivity.
  - vm_compute. discriminate.
  - vm_compute. reflexivity.
  - vm_compute. split; [discriminate | reflexivity].
Defined.


(** C9, as stated, fails: allocate 8, release it, allocate 8 again.  At
    most 8 bytes are ever outstanding, and the peak statistic says 16. *)
Lemma peakMemory_counts_released_bytes :
  ∃ st g,
    run_script 48 2 (init_state (mkArena 4096 4096 65536))
      empty_ledger NULL [Some 8; None; Some 8] = Some (st, g) ∧
    peak_outstanding g = 8 ∧
    peakMemory (mem_stats st) = 16 ∧
    totalAllocated (mem_stats st) = 16 ∧
    peakMemory (mem_stats st) ≠ peak_outstanding g.
Proof.
  eexists _, _. split; [vm_compute; reflexivity|].
  split; [reflexivity|]. split; [reflexivity|]. split; [reflexivity|].
  vm_compute. discriminate.
Qed.

Lemma peakMemory_is_cumulative_witness :
  ∃ st,
    runs 48 (init_state (mkArena 4096 4096 65536))
      [Allocate 8 "script" 0; Release 4144; Allocate 8 "script" 0] st ∧
    totalAllocated (mem_stats st) = wrap 16 ∧
    totalAllocated (mem_stats st) <= peakMemory (mem_stats st) ∧
    (16 < SIZE_MOD →
     peakMemory (mem_stats st) = 16 ∧ totalAllocated (mem_stats st) = 16).
Proof.
  assert (Hruns :
    ∃ st, runs 48 (init_state (mkArena 4096 4096 65536))
            [Allocate 8 "script" 0; Release 4144; Allocate 8 "script" 0] st).
  { eexists.
    eapply runs_cons.
    { eapply (step_allocate 48 2);
        [unfold in_size_t, SIZE_MOD; lia | vm_compute; reflexivity]. }
    eapply runs_cons.
    { eapply (step_release 48 2). vm_compute. reflexivity. }
    eapply runs_cons.
    { eapply (step_allocate 48 2);
        [unfold in_size_t, SIZE_MOD; lia | vm_compute; reflexivity]. }
    apply runs_nil. }
  destruct Hruns as [st Hruns]. exists st. split; [exact Hruns|].
  apply (peakMemory_is_cumulative 48 _ _ _ Hruns).
Defined.

(** ** The further properties at concrete states *)

(** The chain of [ex_state] is [ex_a], then [ex_b]. *)
Ltac ex_chain :=
  split; [reflexivity|]; split; [vm_compute; discriminate|];
  eexists; split; [vm_compute; reflexivity|];
  split; [reflexivity|]; split; [vm_compute; discriminate|];
  eexists; split; [vm_compute; reflexivity|]; reflexivity.

(** [ex_state] is well formed. *)
Ltac ex_well_formed :=
  split; [vm_compute; reflexivity|];
  split; [vm_compute; discriminate|];
  split; [vm_compute; discriminate|];
  split; [vm_compute; discriminate|];
  split; [reflexivity|]; split; [vm_compute; discriminate|];
  eexists; split; [vm_compute; reflexivity|];
  split; [reflexivity|]; split; [vm_compute; discriminate|];
  split; [vm_compute; discriminate|];
  split; [reflexivity|]; split; [vm_compute; discriminate|];
  eexists; split; [vm_compute; reflexivity|];
  split; [reflexivity|]; split; [vm_compute; discriminate|];
  split; [vm_compute; discriminate|]; reflexivity.

(** One more call of a run under construction. *)
Ltac ex_allocate :=
  eapply runs_cons;
  [eapply (step_allocate 48 4);
   [unfold in_size_t, SIZE_MOD; lia | vm_compute; reflexivity]|].

Ltac ex_release :=
  eapply runs_cons; [eapply (step_release 48 4); vm_compute; reflexivity|].

Lemma extractFilename_strips_directories_witness :
  extractFilename ("src" ++ String "/" "main.c")%string = "main.c"%string ∧
  extractFilename "main.c" = "main.c"%string.
Proof.
  apply (extractFilename_strips_directories "src" "/" "main.c").
  - reflexivity.
  - intros (c & Hin & Hsep). simpl in Hin.
    repeat (destruct Hin as [<-|Hin]; [vm_compute in Hsep; discriminate|]).
    destruct Hin.
Defined.


Lemma arena_never_shrinks_witness :
  ∃ st',
    runs 48 (ex_state 48 false false)
      [Allocate 8 "main.c" 1; Release 4144] st' ∧
    (brk_min (os st') = brk_min (os (ex_state 48 false false)) ∧
     brk_max (os st') = brk_max (os (ex_state 48 false false)) ∧
     brk_cur (os (ex_state 48 false false)) <= brk_cur (os st') ∧
     (brk_cur (os (ex_state 48 false false))
        <= brk_max (os (ex_state 48 false false)) →
      brk_cur (os st') <= brk_max (os (ex_state 48 false false)))) ∧
    (∀ fuel s ptr s', heapFree 48 fuel s ptr = Some s' → os s' = os s).
Proof.
  assert (Hruns :
    ∃ st', runs 48 (ex_state 48 false false)
             [Allocate 8 "main.c" 1; Release 4144] st').
  { eexists. ex_allocate. ex_release. apply runs_nil. }
  destruct Hruns as [st' Hruns]. exists st'. split; [exact Hruns|].
  apply (arena_never_shrinks 48 (ex_state 48 false false)
           [Allocate 8 "main.c" 1; Release 4144] st').
  - lia.
  - repeat constructor. vm_compute. discriminate.
  - exact Hruns.
Defined.

Lemma heapAlloc_returns_fitting_block_witness :
  ∃ p st',
    heapAlloc 48 3 (ex_state 48 false true) "src/main.c" 245 5
      = Some (p, st') ∧
    ∃ c, mem st' !! (p - 48) = Some c ∧ isFree c = false ∧
         5 <= ALIGN 5 ∧ ALIGN 5 <= size c ∧
         line c = 245 ∧ file c = extractFilename "src/main.c" ∧
         ¬ has_separator (file c).
Proof.
  eexists _, _. split; [vm_compute; reflexivity|].
  apply (heapAlloc_returns_fitting_block 48 3 (ex_state 48 false true)
           "src/main.c" 245 5).
  - lia.
  - vm_compute. discriminate.
  - vm_compute. reflexivity.
  - vm_compute. discriminate.
Defined.

Lemma allocWithStats_block_inside_arena_witness :
  ∃ p st',
    allocWithStats 48 3 (ex_state 48 false true) 5 "main.c" 245
      = Some (p, st') ∧
    ∃ c, mem st' !! (p - 48) = Some c ∧
         brk_min (os st') <= p - 48 ∧
         0 <= size c ∧ p + size c <= brk_cur (os st').
Proof.
  eexists _, _. split; [vm_compute; reflexivity|].
  apply (allocWithStats_block_inside_arena 48 3 (ex_state 48 false true)
           [ex_a; ex_b 48] 5 "main.c" 245).
  - lia.
  - vm_compute. discriminate.
  - ex_well_formed.
  - vm_compute. reflexivity.
  - vm_compute. discriminate.
Defined.

Lemma allocWithStats_spares_occupied_chunks_witness :
  ∃ p st',
    allocWithStats 48 3 (ex_state 48 false true) 5 "main.c" 245
      = Some (p, st') ∧
    p ≠ ex_a + 48 ∧
    ∃ ca', mem st' !! ex_a = Some ca' ∧ isFree ca' = false ∧
           size ca' = size (ex_chunk MAGIC_NUMBER 8 false (ex_b 48)) ∧
           magic ca' = magic (ex_chunk MAGIC_NUMBER 8 false (ex_b 48)) ∧
           file ca' = file (ex_chunk MAGIC_NUMBER 8 false (ex_b 48)) ∧
           line ca' = line (ex_chunk MAGIC_NUMBER 8 false (ex_b 48)).
Proof.
  eexists _, _. split; [vm_compute; reflexivity|].
  apply (allocWithStats_spares_occupied_chunks 48 3
           (ex_state 48 false true) [ex_a; ex_b 48] 5 "main.c" 245
           _ _ ex_a (ex_chunk MAGIC_NUMBER 8 false (ex_b 48))).
  - lia.
  - vm_compute. reflexivity.
  - ex_well_formed.
  - constructor.
  - vm_compute. reflexivity.
  - reflexivity.
  - vm_compute. reflexivity.
Defined.

Lemma heapFree_leaves_no_free_successor_witness :
  ∃ st' c',
    heapFree 48 3 (ex_state 48 false true) (ex_a + 48) = Some st' ∧
    mem st' !! ex_a = Some c' ∧ isFree c' = true ∧
    (next c' = NULL ∨
     ∃ n, mem st' !! next c' = Some n ∧ isFree n = false) ∧
    allChunks st' = allChunks (ex_state 48 false true) ∧
    ∀ b, b ≠ ex_a → mem st' !! b = mem (ex_state 48 false true) !! b.
Proof.
  apply (heapFree_leaves_no_free_successor 48 3 (ex_state 48 false true)
           [ex_a; ex_b 48] ex_a).
  - ex_chain.
  - constructor.
  - vm_compute. discriminate.
  - simpl. lia.
Defined.

Lemma allocWithStats_aligns_huge_request_to_zero_witness :
  ALIGN (SIZE_MOD - 1) = 0 ∧
  ∃ st' c,
    allocWithStats 48 3 (ex_state 48 false false) (SIZE_MOD - 1)
      "main.c" 245
      = Some (brk_cur (os (ex_state 48 false false)) + 48, st') ∧
    mem st' !! brk_cur (os (ex_state 48 false false)) = Some c ∧
    size c = 0 ∧ isFree c = false ∧
    brk_cur (os st') = brk_cur (os (ex_state 48 false false)) + 48.
Proof.
  destruct (allocWithStats_aligns_huge_request_to_zero 48 3
              (ex_state 48 false false) (SIZE_MOD - 1) "main.c" 245
              (ex_b 48)) as [Halign Hrun].
  - lia.
  - vm_compute. reflexivity.
  - split; vm_compute; reflexivity.
  - split; [exact Halign|]. apply Hrun.
    + right. split; [vm_compute; discriminate | vm_compute; reflexivity].
    + split; vm_compute; discriminate.
Defined.

Lemma heapAlloc_block_is_audited_witness :
  ∃ p st',
    heapAlloc 48 3 (ex_state 48 false true) "src/main.c" 245 5
      = Some (p, st') ∧
    ∃ l',
      chain (mem st') (allChunks st') l' ∧
      ∀ fuel', (length l' < fuel')%nat →
        ∃ st'' out,
          checkForUnfreedChunks fuel' st' = Some (st'', out) ∧
          mkLeak (p - 48) (extractFilename "src/main.c") 245 ∈ out ∧
          ∀ fuel0 s0 out0,
            checkForUnfreedChunks fuel0 (ex_state 48 false true)
              = Some (s0, out0) →
            ∀ x, x ∈ out0 → x ∈ out.
Proof.
  eexists _, _. split; [vm_compute; reflexivity|].
  apply (heapAlloc_block_is_audited 48 3 (ex_state 48 false true)
           [ex_a; ex_b 48] "src/main.c" 245 5).
  - lia.
  - vm_compute. discriminate.
  - ex_well_formed.
  - vm_compute. reflexivity.
  - vm_compute. discriminate.
Defined.

(** ** The claims on laid-out heaps, at concrete states *)

(** A chain, a layout, a well-formed state, by evaluation. *)
Ltac ex_lseg :=
  first
    [ reflexivity
    | split; [reflexivity|]; split; [vm_compute; discriminate|];
      eexists; split; [vm_compute; reflexivity|]; ex_lseg ].

Ltac ex_layout :=
  first
    [ reflexivity
    | split; [reflexivity|]; split; [vm_compute; discriminate|];
      eexists; split; [vm_compute; reflexivity|];
      split; [reflexivity|]; split; [vm_compute; discriminate|];
      split; [vm_compute; discriminate|]; ex_layout ].

Ltac ex_wf :=
  split; [vm_compute; reflexivity|];
  split; [vm_compute; discriminate|];
  split; [vm_compute; discriminate|];
  split; [vm_compute; discriminate|]; ex_layout.

(** The search for 16 bytes walks past the occupied [ex_a] and stops at
    the free [ex_b]; the search for 72 bytes finds nothing and leaves
    [ex_b], the last chunk. *)
Lemma findFreeChunk_first_fit_witness :
  findFreeChunk 3 (ex_state 48 false true) ex_a 16 = Some (ex_b 48, ex_a) ∧
  findFreeChunk 3 (ex_state 48 false true) ex_a 72 = Some (NULL, ex_b 48).
Proof.
  assert (Hch : chain (mem (ex_state 48 false true))
                  (allChunks (ex_state 48 false true)) [ex_a; ex_b 48])
    by ex_lseg.
  assert (Hfuel : (length [ex_a; ex_b 48] < 3)%nat) by (simpl; lia).
  split.
  - destruct (findFreeChunk_first_fit 3 _ ex_a 16 _ Hch Hfuel)
      as (Hhit & _ & _).
    apply (Hhit [ex_a] (ex_b 48) [] (ex_chunk MAGIC_NUMBER 64 true NULL)).
    + reflexivity.
    + intros a Ha. apply list_elem_of_singleton in Ha. subst a.
      eexists. split; [vm_compute; reflexivity|]. left. reflexivity.
    + vm_compute. reflexivity.
    + reflexivity.
    + vm_compute. discriminate.
  - destruct (findFreeChunk_first_fit 3 _ ex_a 72 _ Hch Hfuel)
      as (_ & Hmiss & _).
    apply Hmiss. intros a Ha. apply elem_of_cons in Ha as [Ha|Ha].
    + subst a. eexists. split; [vm_compute; reflexivity|]. left. reflexivity.
    + apply list_elem_of_singleton in Ha. subst a.
      eexists. split; [vm_compute; reflexivity|]. right.
      vm_compute. reflexivity.
Defined.

(** Both chunks occupied and a request beyond the limit of the arena. *)
Lemma allocWithStats_arena_failure_witness :
  ∃ st',
    allocWithStats 48 3 (ex_state 48 false false) 100000 "main.c" 250
      = Some (NULL, st') ∧
    allChunks st' = ex_a ∧ mem st' = ex_mem 48 false false ∧
    os st' = ex_arena 48 ∧ diag st' = [] ∧
    sbrkCalls (mem_stats st') = 3 ∧
    allocCalls (mem_stats st') = 3 ∧
    totalAllocated (mem_stats st') = 100065 ∧
    peakMemory (mem_stats st') = 100065 ∧
    corruptedChunks (mem_stats st') = 0 ∧
    unfreedChunks (mem_stats st') = 0.
Proof.
  apply (allocWithStats_arena_failure 48 3 (ex_state 48 false false)
           [ex_a; ex_b 48] 100000 "main.c" 250).
  - lia.
  - ex_lseg.
  - simpl. lia.
  - intros a Ha. apply elem_of_cons in Ha as [Ha|Ha].
    + subst a. eexists. split; [vm_compute; reflexivity|]. left. reflexivity.
    + apply list_elem_of_singleton in Ha. subst a.
      eexists. split; [vm_compute; reflexivity|]. left. reflexivity.
  - vm_compute. reflexivity.
Defined.

(** [ex_a] and [ex_b] occupied, the free [ex_c] after them.  Later
    first: [ex_b] takes in [ex_c] (64 + 48 + 16 = 128), then [ex_a] takes
    in [ex_b] (8 + 48 + 128 = 184).  Earlier first: [ex_a] stays at 8
    bytes and linked to [ex_b], also after [ex_b] is released. *)
Lemma coalescing_is_forward_only_witness :
  (∃ st1 st2,
     heapFree 48 4 (ex_state3 48 true) (ex_b 48 + 48) = Some st1 ∧
     mem st1 !! ex_b 48
       = Some (mkChunk MAGIC_NUMBER 128 true NULL "main.c" 241) ∧
     mem st1 !! ex_a = Some (ex_chunk MAGIC_NUMBER 8 false (ex_b 48)) ∧
     chain (mem st1) (allChunks st1) [ex_a; ex_b 48] ∧
     heapFree 48 4 st1 (ex_a + 48) = Some st2 ∧
     mem st2 !! ex_a
       = Some (mkChunk MAGIC_NUMBER 184 true NULL "main.c" 241) ∧
     chain (mem st2) (allChunks st2) [ex_a]) ∧
  (∃ st1 st2,
     heapFree 48 4 (ex_state3 48 true) (ex_a + 48) = Some st1 ∧
     mem st1 !! ex_a
       = Some (mkChunk MAGIC_NUMBER 8 true (ex_b 48) "main.c" 241) ∧
     mem st1 !! ex_b 48 = Some (ex_chunk MAGIC_NUMBER 64 false (ex_c 48)) ∧
     chain (mem st1) (allChunks st1) [ex_a; ex_b 48; ex_c 48] ∧
     heapFree 48 4 st1 (ex_b 48 + 48) = Some st2 ∧
     mem st2 !! ex_b 48
       = Some (mkChunk MAGIC_NUMBER 128 true NULL "main.c" 241) ∧
     mem st2 !! ex_a
       = Some (mkChunk MAGIC_NUMBER 8 true (ex_b 48) "main.c" 241) ∧
     chain (mem st2) (allChunks st2) [ex_a; ex_b 48]).
Proof.
  apply (coalescing_is_forward_only 48 4 (ex_state3 48 true) []
           ex_a (ex_b 48) [ex_c 48] []
           (ex_chunk MAGIC_NUMBER 8 false (ex_b 48))
           (ex_chunk MAGIC_NUMBER 64 false (ex_c 48))).
  - lia.
  - ex_wf.
  - vm_compute. reflexivity.
  - vm_compute. reflexivity.
  - reflexivity.
  - reflexivity.
  - intros x Hx. apply list_elem_of_singleton in Hx. subst x.
    eexists. split; [vm_compute; reflexivity|]. reflexivity.
  - intros r cr Hr. discriminate Hr.
  - simpl. lia.
Defined.



(** ** An orderly run

    On a fresh allocator: allocate 8 and 64 bytes, release the second
    block and then the first (the two chunks merge), allocate 16 bytes
    (the merged chunk is split). *)
Ltac ex_orderly_allocate :=
  eapply orderly_cons;
  [vm_compute; reflexivity
  |eapply (step_allocate 48 4);
   [unfold in_size_t, SIZE_MOD; lia | vm_compute; reflexivity]
  |].

Ltac ex_in_chain_head :=
  apply in_chain_hd; [vm_compute; reflexivity | vm_compute; discriminate].

Ltac ex_orderly_release_head :=
  eapply orderly_cons;
  [right; ex_in_chain_head
  |eapply (step_release 48 4); vm_compute; reflexivity
  |].

Ltac ex_orderly_release_second :=
  eapply orderly_cons;
  [right; eapply in_chain_step;
   [ex_in_chain_head | vm_compute; reflexivity | vm_compute; reflexivity
   |vm_compute; discriminate]
  |eapply (step_release 48 4); vm_compute; reflexivity
  |].

Lemma ex_orderly_run :
  ∃ st,
    orderly 48 (init_state (mkArena 4096 4096 65536))
      [Allocate 8 "main.c" 1; Allocate 64 "main.c" 2; Release 4200;
       Release 4144; Allocate 16 "main.c" 3] st ∧
    allChunks st = 4096 ∧
    mem st !! 4096
      = Some (mkChunk MAGIC_NUMBER 16 false 4160 "main.c" 3) ∧
    (∃ f l, mem st !! 4160 = Some (mkChunk MAGIC_NUMBER 56 true NULL f l)) ∧
    os st = mkArena 4096 4264 65536.
Proof.
  eexists. split.
  - ex_orderly_allocate. ex_orderly_allocate.
    ex_orderly_release_second. ex_orderly_release_head.
    ex_orderly_allocate. apply orderly_nil.
  - split; [reflexivity|]. split; [vm_compute; reflexivity|].
    split; [|reflexivity]. eexists _, _. vm_compute. reflexivity.
Defined.

Lemma reachable_chunks_carry_sentinel_witness :
  ∃ st,
    orderly 48 (init_state (mkArena 4096 4096 65536))
      [Allocate 8 "main.c" 1; Allocate 64 "main.c" 2; Release 4200;
       Release 4144; Allocate 16 "main.c" 3] st ∧
    ∀ x, in_chain st x →
         ∃ c, mem st !! x = Some c ∧ magic c = MAGIC_NUMBER.
Proof.
  destruct ex_orderly_run as (st & Hrun & _). exists st.
  split; [exact Hrun|].
  apply (reachable_chunks_carry_sentinel 48 (mkArena 4096 4096 65536)
           [Allocate 8 "main.c" 1; Allocate 64 "main.c" 2; Release 4200;
            Release 4144; Allocate 16 "main.c" 3] st).
  - lia.
  - vm_compute. reflexivity.
  - vm_compute. reflexivity.
  - vm_compute. discriminate.
  - vm_compute. discriminate.
  - vm_compute. discriminate.
  - exact Hrun.
Defined.

Lemma sizes_are_multiples_of_8_witness :
  ∃ st,
    orderly 48 (init_state (mkArena 4096 4096 65536))
      [Allocate 8 "main.c" 1; Allocate 64 "main.c" 2; Release 4200;
       Release 4144; Allocate 16 "main.c" 3] st ∧
    (∀ bytes, (8 | ALIGN bytes)) ∧
    (∀ x c, in_chain st x → mem st !! x = Some c → (8 | size c)).
Proof.
  destruct ex_orderly_run as (st & Hrun & _). exists st.
  split; [exact Hrun|].
  apply (sizes_are_multiples_of_8 48 (mkArena 4096 4096 65536)
           [Allocate 8 "main.c" 1; Allocate 64 "main.c" 2; Release 4200;
            Release 4144; Allocate 16 "main.c" 3] st).
  - lia.
  - vm_compute. reflexivity.
  - exists 6. reflexivity.
  - vm_compute. reflexivity.
  - vm_compute. discriminate.
  - vm_compute. discriminate.
  - vm_compute. discriminate.
  - exact Hrun.
Defined.

Lemma orderly_runs_count_no_corruption_witness :
  ∃ st,
    orderly 48 (init_state (mkArena 4096 4096 65536))
      [Allocate 8 "main.c" 1; Allocate 64 "main.c" 2; Release 4200;
       Release 4144; Allocate 16 "main.c" 3] st ∧
    corruptedChunks (mem_stats st) = 0 ∧ diag st = [] ∧
    unfreedChunks (mem_stats st) = 0.
Proof.
  destruct ex_orderly_run as (st & Hrun & _). exists st.
  split; [exact Hrun|].
  apply (orderly_runs_count_no_corruption 48 (mkArena 4096 4096 65536)
           [Allocate 8 "main.c" 1; Allocate 64 "main.c" 2; Release 4200;
            Release 4144; Allocate 16 "main.c" 3] st).
  - lia.
  - vm_compute. reflexivity.
  - vm_compute. reflexivity.
  - vm_compute. discriminate.
  - vm_compute. discriminate.
  - vm_compute. discriminate.
  - exact Hrun.
Defined.

Lemma chain_stays_laid_out_witness :
  ∃ st,
    orderly 48 (init_state (mkArena 4096 4096 65536))
      [Allocate 8 "main.c" 1; Allocate 64 "main.c" 2; Release 4200;
       Release 4144; Allocate 16 "main.c" 3] st ∧
    ∃ l,
      chain (mem st) (allChunks st) l ∧ NoDup l ∧
      (∀ x, x ∈ l →
            ∃ c, mem st !! x = Some c ∧ magic c = MAGIC_NUMBER ∧
                 brk_min (os st) <= x ∧ 0 <= size c ∧
                 x + 48 + size c <= brk_cur (os st)) ∧
      (∀ l1 x l2 c y,
         l = l1 ++ x :: l2 → mem st !! x = Some c → y ∈ l2 →
         x + 48 + size c <= y).
Proof.
  destruct ex_orderly_run as (st & Hrun & _). exists st.
  split; [exact Hrun|].
  apply (chain_stays_laid_out 48 (mkArena 4096 4096 65536)
           [Allocate 8 "main.c" 1; Allocate 64 "main.c" 2; Release 4200;
            Release 4144; Allocate 16 "main.c" 3] st).
  - lia.
  - vm_compute. reflexivity.
  - vm_compute. reflexivity.
  - vm_compute. discriminate.
  - vm_compute. discriminate.
  - vm_compute. discriminate.
  - exact Hrun.
Defined.

Lemma chain_tiles_the_arena_witness :
  ∃ st,
    orderly 48 (init_state (mkArena 4096 4096 65536))
      [Allocate 8 "main.c" 1; Allocate 64 "main.c" 2; Release 4200;
       Release 4144; Allocate 16 "main.c" 3] st ∧
    ∃ l,
      chain (mem st) (allChunks st) l ∧
      hd (brk_cur (os st)) l = 4096 ∧
      (∀ l1 x l2 c,
         l = l1 ++ x :: l2 → mem st !! x = Some c →
         x + 48 + size c = hd (brk_cur (os st)) l2 ∧
         next c = hd NULL l2) ∧
      footprint 48 (mem st) l = brk_cur (os st) - 4096.
Proof.
  destruct ex_orderly_run as (st & Hrun & _). exists st.
  split; [exact Hrun|].
  apply (chain_tiles_the_arena 48 (mkArena 4096 4096 65536)
           [Allocate 8 "main.c" 1; Allocate 64 "main.c" 2; Release 4200;
            Release 4144; Allocate 16 "main.c" 3] st).
  - lia.
  - vm_compute. reflexivity.
  - vm_compute. reflexivity.
  - vm_compute. discriminate.
  - vm_compute. discriminate.
  - vm_compute. discriminate.
  - exact Hrun.
Defined.

(** ** The further properties on laid-out heaps, at concrete states *)

Lemma allocWithStats_returns_witness :
  ∃ p st',
    allocWithStats 48 3 (ex_state 48 false true) 5 "main.c" 245
      = Some (p, st').
Proof.
  apply (allocWithStats_returns 48 3 (ex_state 48 false true)
           [ex_a; ex_b 48] 5 "main.c" 245).
  - lia.
  - ex_wf.
  - vm_compute. reflexivity.
  - simpl. lia.
Defined.

Lemma heapFree_block_leaves_audit_witness :
  ∃ st' l',
    heapFree 48 3 (ex_state 48 false true) (ex_a + 48) = Some st' ∧
    chain (mem st') (allChunks st') l' ∧
    ∀ fuel', (length l' < fuel')%nat →
      ∃ st'' out,
        checkForUnfreedChunks fuel' st' = Some (st'', out) ∧
        (∀ x, x ∈ out → leak_chunk x ≠ ex_a + 48 - 48) ∧
        ∀ fuel0 s0 out0,
          checkForUnfreedChunks fuel0 (ex_state 48 false true)
            = Some (s0, out0) →
          ∀ x, x ∈ out → x ∈ out0.
Proof.
  apply (heapFree_block_leaves_audit 48 3 (ex_state 48 false true)
           [ex_a; ex_b 48] (ex_a + 48)).
  - lia.
  - ex_wf.
  - ex_in_chain_head.
  - simpl. lia.
Defined.

Lemma allocCalls_counts_every_request_witness :
  ∃ st,
    runs 48 (init_state (mkArena 4096 4096 65536))
      [Allocate 8 "main.c" 1; Release 4144; Allocate 8 "main.c" 2] st ∧
    allocCalls (mem_stats st) = 2.
Proof.
  assert (Hruns :
    ∃ st, runs 48 (init_state (mkArena 4096 4096 65536))
            [Allocate 8 "main.c" 1; Release 4144; Allocate 8 "main.c" 2]
            st).
  { eexists. ex_allocate. ex_release. ex_allocate. apply runs_nil. }
  destruct Hruns as [st Hruns]. exists st. split; [exact Hruns|].
  assert (Hrange :
    - 2 ^ 31
      <= allocCalls (mem_stats (init_state (mkArena 4096 4096 65536)))
      < 2 ^ 31) by (split; vm_compute; [discriminate | reflexivity]).
  destruct (allocCalls_counts_every_request 48 _ _ st Hrange Hruns)
    as [_ Hexact].
  apply Hexact. vm_compute. reflexivity.
Defined.

(** A request of 2^64 - 40 bytes with both chunks occupied: the sum with
    the header wraps to 8, [sbrk] moves the break by 8 bytes, and the
    header of 48 bytes does not fit below it. *)
Lemma allocWithStats_header_sum_wraps_witness :
  ∃ a',
    sbrk (ex_arena 48) (add_sz (ALIGN (SIZE_MOD - 40)) 48)
      = (Some 4264, a') ∧
    brk_cur a' = 4264 + 8 ∧
    brk_cur a' < 4264 + 48 ∧
    allocWithStats 48 3 (ex_state 48 false false) (SIZE_MOD - 40)
      "main.c" 245 = None.
Proof.
  apply (allocWithStats_header_sum_wraps 48 3 (ex_state 48 false false)
           (SIZE_MOD - 40) "main.c" 245 (ex_b 48)).
  - lia.
  - vm_compute. discriminate.
  - split; vm_compute; [discriminate | reflexivity].
  - vm_compute. discriminate.
  - right. split; [vm_compute; discriminate | vm_compute; reflexivity].
  - split; vm_compute; discriminate.
Defined.

Lemma printAll_lists_the_chain_witness :
  ∃ d,
    printAll 3 (ex_state 48 false false) = Some d ∧
    dump_chunk <$> d = [ex_a; ex_b 48] ∧
    (∀ e, e ∈ d →
          ∃ c, mem (ex_state 48 false false) !! dump_chunk e = Some c ∧
               e = mkDump (dump_chunk e) (size c) (line c) (file c) false) ∧
    snd <$> checkForUnfreedChunks 3 (ex_state 48 false false)
      = Some ((λ e, mkLeak (dump_chunk e) (dump_file e) (dump_line e))
                <$> d).
Proof.
  apply (printAll_lists_the_chain 3 (ex_state 48 false false)
           [ex_a; ex_b 48]).
  - ex_lseg.
  - simpl. lia.
  - intros a Ha. apply elem_of_cons in Ha as [Ha|Ha].
    + subst a. eexists. split; [vm_compute; reflexivity|]. reflexivity.
    + apply list_elem_of_singleton in Ha. subst a.
      eexists. split; [vm_compute; reflexivity|]. reflexivity.
Defined.

(** * Outside the orderly runs: the program over bytes

    Runs of [LP64] on a fresh arena from 4096 to 65536; the file names
    are string literals at address 4202512. *)

(** C7, as stated, fails.  First run, requests only: allocate 8, then
    2^64 - 56 bytes (the sum with the header wraps to 2^64 - 8 and [sbrk]
    is asked to take the break back by 8, so the second header is stored
    at 4152, eight bytes above the new break), then 8 bytes: the third
    header is stored at 4144 and its [size] field covers the sentinel of
    the second chunk, which stays in the chain and now reads 8.  Second
    run: allocate 8 and 72, release both blocks (the chunks merge),
    allocate 24 (a chunk is split off at 4168) and 2^64 - 1 bytes, then
    release the second block once more: its header, at 4152, is no
    longer in the chain, and the store to its [isFree] field changes the
    lowest byte of the sentinel of the chunk at 4168. *)
Lemma sentinel_overwritten_in_chain :
  (∃ p1 s1 p2 s2 p3 s3,
     LP64.allocWithStats 4 8 4202512 1
       (LP64.init (mkArena 4096 4096 65536)) = Some (p1, s1) ∧
     LP64.allocWithStats 4 (SIZE_MOD - 56) 4202512 2 s1 = Some (p2, s2) ∧
     LP64.allocWithStats 4 8 4202512 3 s2 = Some (p3, s3) ∧
     p1 ≠ NULL ∧ p2 ≠ NULL ∧ p3 ≠ NULL ∧
     LP64.allChunks s3 = 4096 ∧
     LP64.get_next 4096 s3 = Some (4152, s3) ∧
     LP64.get_magic 4152 s3 = Some (8, s3) ∧
     8 ≠ MAGIC_NUMBER) ∧
  (∃ p1 s1 p2 s2 s3 s4 p5 s5 p6 s6 s7,
     LP64.allocWithStats 6 8 4202512 1
       (LP64.init (mkArena 4096 4096 65536)) = Some (p1, s1) ∧
     LP64.allocWithStats 6 72 4202512 2 s1 = Some (p2, s2) ∧
     LP64.heapFree 6 p2 s2 = Some (tt, s3) ∧
     LP64.heapFree 6 p1 s3 = Some (tt, s4) ∧
     LP64.allocWithStats 6 24 4202512 3 s4 = Some (p5, s5) ∧
     LP64.allocWithStats 6 (SIZE_MOD - 1) 4202512 4 s5 = Some (p6, s6) ∧
     LP64.heapFree 6 p2 s6 = Some (tt, s7) ∧
     LP64.allChunks s7 = 4096 ∧
     LP64.get_next 4096 s7 = Some (4168, s7) ∧
     LP64.get_magic 4168 s7 = Some (0x12345601, s7) ∧
     0x12345601 ≠ MAGIC_NUMBER ∧
     corruptedChunks (LP64.mem_stats s7) = 0).
Proof.
  split.
  - eexists _, _, _, _, _, _.
    split; [vm_compute; reflexivity|].
    split; [vm_compute; reflexivity|].
    split; [vm_compute; reflexivity|].
    repeat (split; [vm_compute; first [reflexivity | discriminate]|]).
    vm_compute. discriminate.
  - eexists _, _, _, _, _, _, _, _, _, _, _.
    split; [vm_compute; reflexivity|].
    split; [vm_compute; reflexivity|].
    split; [vm_compute; reflexivity|].
    split; [vm_compute; reflexivity|].
    split; [vm_compute; reflexivity|].
    split; [vm_compute; reflexivity|].
    split; [vm_compute; reflexivity|].
    repeat (split; [vm_compute; first [reflexivity | discriminate]|]).
    vm_compute. reflexivity.
Qed.

(** C8, as stated, fails.  First run: allocate 8, then 2^64 - 56 bytes
    (second header at 4152, above the break, as before), then 8 bytes
    (third header at 4144), and release the third block: the store to
    [isFree] of the header at 4144 changes the lowest byte of the [size]
    field of the second chunk, which is in the chain.  Second run:
    allocate 8 and 64, release both blocks (the chunks merge), allocate
    16 (a chunk is split off at 4160) and 56 bytes, then release the
    second block once more: the store to [isFree] of its old header at
    4152 lands on the [size] field of the chunk at 4160, which now reads
    1. *)
Lemma size_overwritten_in_chain :
  (∃ p1 s1 p2 s2 p3 s3 s4 sz,
     LP64.allocWithStats 4 8 4202512 1
       (LP64.init (mkArena 4096 4096 65536)) = Some (p1, s1) ∧
     LP64.allocWithStats 4 (SIZE_MOD - 56) 4202512 2 s1 = Some (p2, s2) ∧
     LP64.allocWithStats 4 8 4202512 3 s2 = Some (p3, s3) ∧
     LP64.heapFree 4 p3 s3 = Some (tt, s4) ∧
     LP64.allChunks s4 = 4096 ∧
     LP64.get_next 4096 s4 = Some (4152, s4) ∧
     LP64.get_size 4152 s4 = Some (sz, s4) ∧
     sz mod 8 = 1) ∧
  (∃ p1 s1 p2 s2 s3 s4 p5 s5 p6 s6 s7,
     LP64.allocWithStats 6 8 4202512 1
       (LP64.init (mkArena 4096 4096 65536)) = Some (p1, s1) ∧
     LP64.allocWithStats 6 64 4202512 2 s1 = Some (p2, s2) ∧
     LP64.heapFree 6 p2 s2 = Some (tt, s3) ∧
     LP64.heapFree 6 p1 s3 = Some (tt, s4) ∧
     LP64.allocWithStats 6 16 4202512 3 s4 = Some (p5, s5) ∧
     LP64.allocWithStats 6 56 4202512 4 s5 = Some (p6, s6) ∧
     LP64.heapFree 6 p2 s6 = Some (tt, s7) ∧
     LP64.allChunks s7 = 4096 ∧
     LP64.get_next 4096 s7 = Some (4160, s7) ∧
     LP64.get_size 4160 s7 = Some (1, s7) ∧
     ¬ (8 | 1)).
Proof.
  split.
  - eexists _, _, _, _, _, _, _, _.
    split; [vm_compute; reflexivity|].
    split; [vm_compute; reflexivity|].
    split; [vm_compute; reflexivity|].
    split; [vm_compute; reflexivity|].
    repeat (split; [vm_compute; reflexivity|]).
    vm_compute. reflexivity.
  - eexists _, _, _, _, _, _, _, _, _, _, _.
    split; [vm_compute; reflexivity|].
    split; [vm_compute; reflexivity|].
    split; [vm_compute; reflexivity|].
    split; [vm_compute; reflexivity|].
    split; [vm_compute; reflexivity|].
    split; [vm_compute; reflexivity|].
    split; [vm_compute; reflexivity|].
    repeat (split; [vm_compute; reflexivity|]).
    intros [k Hk]. lia.
Qed.
